(** * EasyGuide: a shallow embedding of [pyro/contrib/easyguide/easyguide.py]

    The development follows the Python module: tensors and shapes as the
    guide code observes them, the prototype trace (site catalog), the
    [Group] helper and the [EasyGuide] orchestrator with its three caches
    ([frames], [groups], [plates]).  Mutable Python state is threaded
    explicitly through a small state-and-exception monad.  Python objects
    whose identity matters ([pyro.plate] objects, [Group] objects) carry an
    object identifier drawn from an allocation counter. *)

From Stdlib Require Import ZArith List String Ascii Lia Bool.
From stdpp Require Import gmap strings list fin_maps.

Local Open Scope string_scope.
Local Open Scope list_scope.

(** ** Exceptions and results *)

Inductive exn :=
  | NotImplementedError
  | ValueError
  | IndexError
  | KeyError
  | AssertionError
  | AttributeError
  | RuntimeError
  | re_error.

Inductive result (A : Type) :=
  | Ok (a : A)
  | Raise (e : exn).
Arguments Ok {A} a.
Arguments Raise {A} e.

Definition result_bind {A B} (r : result A) (k : A -> result B) : result B :=
  match r with
  | Ok a => k a
  | Raise e => Raise e
  end.

Notation "'let?' x := e 'in' k" := (result_bind e (fun x => k))
  (at level 10, x pattern, e at level 100, k at level 200).

#[global] Instance exn_eq_dec : EqDecision exn.
Proof. solve_decision. Defined.

(** ** Tensors

    A tensor is its shape together with its elements in row-major order,
    as a contiguous [torch.Tensor] stores them.  The guide code never
    computes on elements, it only moves them, so integers stand for the
    element type.  [requires_grad] records whether the tensor is attached
    to gradient history. *)

Record tensor := {
  shape : list nat;
  data : list Z;
  requires_grad : bool
}.

#[global] Instance tensor_eq_dec : EqDecision tensor.
Proof. solve_decision. Defined.

(** [torch.Size(s).numel()] *)
Definition numel (s : list nat) : nat := foldr Nat.mul 1 s.

Definition tensor_wf (t : tensor) : Prop := length (data t) = numel (shape t).

(** [t.detach()]: same storage, cut from gradient history. *)
Definition detach (t : tensor) : tensor :=
  {| shape := shape t; data := data t; requires_grad := false |}.

(** Python and torch index wrap-around: an index [i] into a sequence of
    length [len] is valid when [-len <= i < len]; negative indices count
    from the end. *)
Definition py_index (len : nat) (i : Z) : option nat :=
  if decide (0 <= i < Z.of_nat len)%Z then Some (Z.to_nat i)
  else if decide (- Z.of_nat len <= i < 0)%Z then Some (Z.to_nat (Z.of_nat len + i))
  else None.

(** [l[i] = x] on a Python list. *)
Definition list_setitem {A} (l : list A) (i : Z) (x : A) : result (list A) :=
  match py_index (length l) i with
  | Some k => Ok (<[k := x]> l)
  | None => Raise IndexError
  end.

(** [t.size(dim)] *)
Definition tensor_size (t : tensor) (dim : Z) : result nat :=
  match py_index (length (shape t)) dim with
  | Some d => match shape t !! d with Some n => Ok n | None => Raise IndexError end
  | None => Raise IndexError
  end.

(** [t.shape[:-1]] *)
Definition shape_init (s : list nat) : list nat := take (length s - 1) s.

(** [t[..., lo:hi]] for [0 <= lo], [0 <= hi]: the bounds are clamped to the
    trailing dimension; a 0-dimensional tensor cannot be sliced. *)
Definition slice_last (t : tensor) (lo hi : nat) : result tensor :=
  match last (shape t) with
  | None => Raise IndexError
  | Some n =>
      let lo' := lo `min` n in
      let w := (hi `min` n) - lo' in
      let rows := numel (shape_init (shape t)) in
      Ok {| shape := shape_init (shape t) ++ [w];
            data := flat_map (fun r => take w (drop (r * n + lo') (data t))) (seq 0 rows);
            requires_grad := requires_grad t |}
  end.

(** [t.reshape(s)] with explicit sizes. *)
Definition reshape (t : tensor) (s : list nat) : result tensor :=
  if decide (numel (shape t) = numel s)
  then Ok {| shape := s; data := data t; requires_grad := requires_grad t |}
  else Raise RuntimeError.

(** [torch.arange(n)] *)
Definition arange (n : Z) : result (list Z) :=
  if decide (n < 0)%Z then Raise RuntimeError else Ok (seqZ 0 n).

(** [ind % m] on an integer tensor; a zero divisor is an error. *)
Definition remainder (ind : list Z) (m : Z) : result (list Z) :=
  if decide (m = 0)%Z then Raise RuntimeError
  else Ok ((fun i => i mod m)%Z <$> ind).

(** Every index of [ind] must address the selected dimension. *)
Definition indices_in_range (n : nat) (ind : list Z) : bool :=
  forallb (fun i => bool_decide (0 <= i < Z.of_nat n)%Z) ind.

(** [t.index_select(dim, ind)] *)
Definition index_select (t : tensor) (dim : Z) (ind : list Z) : result tensor :=
  match py_index (length (shape t)) dim with
  | None => Raise IndexError
  | Some d =>
      match shape t !! d with
      | None => Raise IndexError
      | Some n =>
          if indices_in_range n ind then
            let outer := numel (take d (shape t)) in
            let inner := numel (drop (S d) (shape t)) in
            Ok {| shape := take d (shape t) ++ [length ind] ++ drop (S d) (shape t);
                  data := flat_map (fun o =>
                            flat_map (fun i =>
                              take inner (drop ((o * n + Z.to_nat i) * inner) (data t)))
                              ind)
                            (seq 0 outer);
                  requires_grad := requires_grad t |}
          else Raise IndexError
      end
  end.

(** Row-major offset of a multi-index, and element access [t[i1, ..., ik]]
    for non-negative indices. *)
Fixpoint ravel (s idx : list nat) : option nat :=
  match s, idx with
  | [], [] => Some 0
  | n :: s', i :: idx' =>
      if decide (i < n) then
        match ravel s' idx' with
        | Some r => Some (i * numel s' + r)
        | None => None
        end
      else None
  | _, _ => None
  end.

Definition tensor_get (t : tensor) (idx : list nat) : option Z :=
  match ravel (shape t) idx with
  | Some off => data t !! off
  | None => None
  end.


(** ** Distributions, frames and sites *)

(** [fn.support] is a constraint object of [torch.distributions]; the
    guide code passes it on without looking inside. *)
Inductive constraint :=
  | real
  | positive
  | unit_interval
  | simplex
  | lower_cholesky.

#[global] Instance constraint_eq_dec : EqDecision constraint.
Proof. solve_decision. Defined.

(** The part of a distribution object the guide code reads. *)
Record distribution := {
  batch_shape : list nat;
  event_shape : list nat;
  support : constraint
}.

(** [fn.event_dim] is the number of event dimensions. *)
Definition event_dim (fn : distribution) : Z := Z.of_nat (length (event_shape fn)).

(** Modelled from the spec: the batching-context frame type (its
    declaration is not part of this module).  A frame identifies a named
    plate dimension, its size, and whether it is of the vectorized kind. *)
Record frame := {
  frame_name : string;
  frame_dim : Z;
  frame_size : Z;
  frame_vectorized : bool
}.

(** Modelled from the spec: a node of the recorded execution.  The flag
    [site_stochastic] says whether the node is among those that
    [iter_stochastic_nodes] yields. *)
Record site := {
  site_name : string;
  site_stochastic : bool;
  site_fn : distribution;
  site_value : tensor;
  site_cond_indep_stack : list frame
}.

#[global] Instance distribution_eq_dec : EqDecision distribution.
Proof. solve_decision. Defined.
#[global] Instance frame_eq_dec : EqDecision frame.
Proof. solve_decision. Defined.
#[global] Instance site_eq_dec : EqDecision site.
Proof. solve_decision. Defined.

(** Modelled from the spec: [trace.iter_stochastic_nodes()], in recording order. *)
Definition iter_stochastic_nodes (tr : list site) : list site :=
  List.filter site_stochastic tr.

(** [trace.nodes[name]] *)
Definition trace_node (tr : list site) (name : string) : result site :=
  match List.find (fun s => bool_decide (site_name s = name)) tr with
  | Some s => Ok s
  | None => Raise KeyError
  end.

(** ** Group construction *)

Record Group := {
  group_oid : nat;
  group_sites : list site;
  group_frames : list frame;
  group_event_shape : list nat
}.

#[global] Instance Group_eq_dec : EqDecision Group.
Proof. solve_decision. Defined.

Definition vectorized_frames (s : site) : list frame :=
  List.filter frame_vectorized (site_cond_indep_stack s).

(** The [frozenset.intersection] of the sites' vectorized frames, kept as a
    duplicate-free list: the frames of the first site that every other
    site has too. *)
Definition common_frames (sites : list site) : list frame :=
  match sites with
  | [] => []
  | s :: rest =>
      List.filter
        (fun f => forallb (fun s' => bool_decide (f ∈ vectorized_frames s')) rest)
        (remove_dups (vectorized_frames s))
  end.

(** The inner loop [for f in self.frames: site_batch_shape[f.dim] = 1]. *)
Fixpoint collapse_frames (fs : list frame) (site_batch_shape : list nat)
  : result (list nat) :=
  match fs with
  | [] => Ok site_batch_shape
  | f :: fs' =>
      let? b := list_setitem site_batch_shape (frame_dim f) 1 in
      collapse_frames fs' b
  end.

(** What one site adds to [event_shape[0]] in [Group.__init__]. *)
Definition site_flat_size (fs : list frame) (s : site) : result nat :=
  let site_event_size := numel (event_shape (site_fn s)) in
  let? site_batch_shape := collapse_frames fs (batch_shape (site_fn s)) in
  Ok (site_event_size * numel site_batch_shape).

(** The outer loop of [Group.__init__], with [acc] the running [event_shape[0]]. *)
Fixpoint event_shape_loop (fs : list frame) (sites : list site) (acc : nat)
  : result nat :=
  match sites with
  | [] => Ok acc
  | s :: rest =>
      let? n := site_flat_size fs s in
      event_shape_loop fs rest (acc + n)
  end.

(** [Group.__init__]; [oid] is the identity of the object being built. *)
Definition Group_init (oid : nat) (sites : list site) : result Group :=
  match sites with
  | [] => Raise AssertionError
  | _ :: _ =>
      let fs := common_frames sites in
      let? total := event_shape_loop fs sites 0 in
      Ok {| group_oid := oid;
            group_sites := sites;
            group_frames := fs;
            group_event_shape := [total] |}
  end.

(** ** Unpacking in [Group.sample]

    [guide_z] is the packed tensor drawn by [pyro.sample(guide_name, fn)].
    For each site the loop slices [size] trailing elements at [pos] and
    reshapes them to [batch_shape + fn.event_shape] where
    [batch_shape = guide_z.shape[:-1]]. *)

(** The span length [size] computed for one site. *)
Definition span_size (s : site) : nat := numel (event_shape (site_fn s)).

Definition unpack_site (guide_z : tensor) (pos : nat) (s : site) : result tensor :=
  let batch_shape := shape_init (shape guide_z) in
  let size := span_size s in
  let? unconstrained_z := slice_last guide_z pos (pos + size) in
  reshape unconstrained_z (batch_shape ++ event_shape (site_fn s)).

(** The final value of [pos]: the part of the trailing dimension consumed. *)
Definition consumed (sites : list site) : nat :=
  foldl (fun pos s => pos + span_size s) 0 sites.

(** ** Regular expressions: a fragment of the pattern language of [re]

    [re.match(pattern, name)] succeeds when the pattern matches at the
    beginning of [name]; for the patterns modelled here that is when some
    prefix of [name], possibly empty, is in the language of the pattern.
    The fragment covers literal characters, escaped metacharacters, [.],
    grouping, alternation and the postfix operators [*], [+] and [?].
    What [re] does with any other pattern string is left to the library
    (see [re_match] below). *)

Inductive regex :=
  | Void
  | Eps
  | Chr (c : ascii)
  | Any
  | Alt (r1 r2 : regex)
  | Seq (r1 r2 : regex)
  | Star (r : regex).

Definition newline : ascii := "010"%char.

Fixpoint nullable (r : regex) : bool :=
  match r with
  | Void => false
  | Eps => true
  | Chr _ => false
  | Any => false
  | Alt r1 r2 => nullable r1 || nullable r2
  | Seq r1 r2 => nullable r1 && nullable r2
  | Star _ => true
  end.

Fixpoint deriv (c : ascii) (r : regex) : regex :=
  match r with
  | Void => Void
  | Eps => Void
  | Chr c' => if decide (c = c') then Eps else Void
  | Any => if decide (c = newline) then Void else Eps
  | Alt r1 r2 => Alt (deriv c r1) (deriv c r2)
  | Seq r1 r2 =>
      if nullable r1 then Alt (Seq (deriv c r1) r2) (deriv c r2)
      else Seq (deriv c r1) r2
  | Star r1 => Seq (deriv c r1) (Star r1)
  end.

(** Does some prefix of [s] belong to the language of [r]? *)
Fixpoint prefix_match (r : regex) (s : list ascii) : bool :=
  nullable r ||
  match s with
  | [] => false
  | c :: s' => prefix_match (deriv c r) s'
  end.

(** The language of a regular expression: [matches r w] says that the
    whole word [w] matches [r]. *)
Inductive matches : regex -> list ascii -> Prop :=
  | m_eps : matches Eps []
  | m_chr (c : ascii) : matches (Chr c) [c]
  | m_any (c : ascii) : c <> newline -> matches Any [c]
  | m_alt_l (r1 r2 : regex) (w : list ascii) : matches r1 w -> matches (Alt r1 r2) w
  | m_alt_r (r1 r2 : regex) (w : list ascii) : matches r2 w -> matches (Alt r1 r2) w
  | m_seq (r1 r2 : regex) (w1 w2 : list ascii) :
      matches r1 w1 -> matches r2 w2 -> matches (Seq r1 r2) (w1 ++ w2)
  | m_star_nil (r : regex) : matches (Star r) []
  | m_star_app (r : regex) (w1 w2 : list ascii) :
      matches r w1 -> matches (Star r) w2 -> matches (Star r) (w1 ++ w2).

(** Does the whole of [s] belong to the language of [r]? *)
Definition full_match (r : regex) (s : list ascii) : bool :=
  nullable (foldl (fun r' c => deriv c r') r s).

Definition is_meta (c : ascii) : bool :=
  bool_decide (c ∈ [".";"^";"$";"*";"+";"?";"{";"}";"[";"]";"\";"|";"(";")"]%char).

(** The pattern syntax of the fragment, as the documentation of [re]
    gives it: [reads_alt p r] says that the pattern text [p] denotes the
    regular expression [r].  An alternation is a [|]-separated list of
    sequences, a sequence is a juxtaposition of repetitions, a repetition
    is an atom with at most one postfix operator, and an atom is an
    ordinary character, an escaped metacharacter, [.] or a parenthesised
    alternation. *)
Inductive reads_alt : list ascii -> regex -> Prop :=
  | reads_alt_one (p : list ascii) (r : regex) :
      reads_seq p r -> reads_alt p r
  | reads_alt_bar (p q : list ascii) (r r' : regex) :
      reads_seq p r -> reads_alt q r' -> reads_alt (p ++ "|"%char :: q) (Alt r r')
with reads_seq : list ascii -> regex -> Prop :=
  | reads_seq_nil : reads_seq [] Eps
  | reads_seq_cons (p q : list ascii) (r r' : regex) :
      reads_rep p r -> reads_seq q r' -> reads_seq (p ++ q) (Seq r r')
with reads_rep : list ascii -> regex -> Prop :=
  | reads_rep_atom (p : list ascii) (r : regex) :
      reads_atom p r -> reads_rep p r
  | reads_rep_star (p : list ascii) (r : regex) :
      reads_atom p r -> reads_rep (p ++ ["*"%char]) (Star r)
  | reads_rep_plus (p : list ascii) (r : regex) :
      reads_atom p r -> reads_rep (p ++ ["+"%char]) (Seq r (Star r))
  | reads_rep_opt (p : list ascii) (r : regex) :
      reads_atom p r -> reads_rep (p ++ ["?"%char]) (Alt r Eps)
with reads_atom : list ascii -> regex -> Prop :=
  | reads_chr (c : ascii) : is_meta c = false -> reads_atom [c] (Chr c)
  | reads_dot : reads_atom ["."%char] Any
  | reads_esc (c : ascii) : is_meta c = true -> reads_atom ["\"%char; c] (Chr c)
  | reads_group (p : list ascii) (r : regex) :
      reads_alt p r -> reads_atom ("("%char :: p ++ [")"%char]) r.

Section Parser.
(** The parser for a parenthesised sub-pattern, one nesting level down. *)
Variable parse_inner : list ascii -> option (regex * list ascii).

Definition parse_atom (s : list ascii) : option (regex * list ascii) :=
  match s with
  | [] => None
  | c :: s' =>
      if decide (c = "("%char) then
        match parse_inner s' with
        | Some (r, c' :: s'') => if decide (c' = ")"%char) then Some (r, s'') else None
        | _ => None
        end
      else if decide (c = "."%char) then Some (Any, s')
      else if decide (c = "\"%char) then
        match s' with
        | c' :: s'' => if is_meta c' then Some (Chr c', s'') else None
        | [] => None
        end
      else if is_meta c then None
      else Some (Chr c, s')
  end.

Definition parse_rep (s : list ascii) : option (regex * list ascii) :=
  match parse_atom s with
  | Some (r, c :: s') =>
      if decide (c = "*"%char) then Some (Star r, s')
      else if decide (c = "+"%char) then Some (Seq r (Star r), s')
      else if decide (c = "?"%char) then Some (Alt r Eps, s')
      else Some (r, c :: s')
  | other => other
  end.

Fixpoint parse_seq (k : nat) (s : list ascii) : option (regex * list ascii) :=
  match s with
  | [] => Some (Eps, s)
  | c :: _ =>
      if bool_decide (c = "|"%char ∨ c = ")"%char) then Some (Eps, s)
      else
        match k with
        | 0 => None
        | S k' =>
            match parse_rep s with
            | None => None
            | Some (r, s') =>
                match parse_seq k' s' with
                | Some (r', s'') => Some (Seq r r', s'')
                | None => None
                end
            end
        end
  end.

Fixpoint parse_alt (k : nat) (s : list ascii) : option (regex * list ascii) :=
  match parse_seq (length s) s with
  | Some (r, c :: s') =>
      if decide (c = "|"%char) then
        match k with
        | 0 => None
        | S k' =>
            match parse_alt k' s' with
            | Some (r', s'') => Some (Alt r r', s'')
            | None => None
            end
        end
      else Some (r, c :: s')
  | other => other
  end.
End Parser.

Fixpoint parse_regex (depth : nat) (s : list ascii) : option (regex * list ascii) :=
  match depth with
  | 0 => None
  | S d => parse_alt (parse_regex d) (length s) s
  end.

(** The regular expression of a pattern string of the fragment; [None]
    for every other string. *)
Definition re_compile (pattern : string) : option regex :=
  let s := list_ascii_of_string pattern in
  match parse_regex (S (length s)) s with
  | Some (r, []) => Some r
  | _ => None
  end.

(** ** Plates and the program state *)

(** The arguments [EasyGuide.plate] forwards to [pyro.plate]. *)
Record plate_args := {
  arg_size : option Z;
  arg_subsample_size : option Z;
  arg_subsample : option (list Z);
  arg_dim : option Z
}.

(** [self.plate(frame.name)]: every optional argument left at [None]. *)
Definition no_args : plate_args :=
  {| arg_size := None; arg_subsample_size := None; arg_subsample := None; arg_dim := None |}.

(** The attributes [.size], [.subsample_size] and [.dim] of a plate object. *)
Record plate_attrs := {
  attr_size : Z;
  attr_subsample_size : Z;
  attr_dim : Z
}.

(** A [pyro.plate] object: its identity, its name and its attributes. *)
Record plate := {
  plate_oid : nat;
  plate_name : string;
  plate_attr : plate_attrs
}.

Definition plate_size (p : plate) : Z := attr_size (plate_attr p).
Definition plate_subsample_size (p : plate) : Z := attr_subsample_size (plate_attr p).
Definition plate_dim (p : plate) : Z := attr_dim (plate_attr p).

#[global] Instance plate_attrs_eq_dec : EqDecision plate_attrs.
Proof. solve_decision. Defined.
#[global] Instance plate_eq_dec : EqDecision plate.
Proof. solve_decision. Defined.

(** The fields of an [EasyGuide] instance ([prototype_trace], [frames],
    [groups], [plates]) together with the process-wide state the module
    touches: the parameter store, the stack of active effect handlers
    ([runtime._PYRO_STACK], here the identities of the entered plates) and
    the allocation counter for object identities. *)
Record state := {
  prototype_trace : option (list site);
  frames : gmap string frame;
  groups : gmap string Group;
  plates : gmap string plate;
  param_store : gmap string tensor;
  PYRO_STACK : list nat;
  next_oid : nat
}.

Definition set_prototype_trace (v : option (list site)) (st : state) : state :=
  {| prototype_trace := v; frames := frames st; groups := groups st;
     plates := plates st; param_store := param_store st;
     PYRO_STACK := PYRO_STACK st; next_oid := next_oid st |}.

Definition set_frames (v : gmap string frame) (st : state) : state :=
  {| prototype_trace := prototype_trace st; frames := v; groups := groups st;
     plates := plates st; param_store := param_store st;
     PYRO_STACK := PYRO_STACK st; next_oid := next_oid st |}.

Definition set_groups (v : gmap string Group) (st : state) : state :=
  {| prototype_trace := prototype_trace st; frames := frames st; groups := v;
     plates := plates st; param_store := param_store st;
     PYRO_STACK := PYRO_STACK st; next_oid := next_oid st |}.

Definition set_plates (v : gmap string plate) (st : state) : state :=
  {| prototype_trace := prototype_trace st; frames := frames st; groups := groups st;
     plates := v; param_store := param_store st;
     PYRO_STACK := PYRO_STACK st; next_oid := next_oid st |}.

Definition set_param_store (v : gmap string tensor) (st : state) : state :=
  {| prototype_trace := prototype_trace st; frames := frames st; groups := groups st;
     plates := plates st; param_store := v;
     PYRO_STACK := PYRO_STACK st; next_oid := next_oid st |}.

Definition set_PYRO_STACK (v : list nat) (st : state) : state :=
  {| prototype_trace := prototype_trace st; frames := frames st; groups := groups st;
     plates := plates st; param_store := param_store st;
     PYRO_STACK := v; next_oid := next_oid st |}.

Definition set_next_oid (v : nat) (st : state) : state :=
  {| prototype_trace := prototype_trace st; frames := frames st; groups := groups st;
     plates := plates st; param_store := param_store st;
     PYRO_STACK := PYRO_STACK st; next_oid := v |}.

(** Computations that read and write the state and may raise.  A raised
    exception keeps the writes made before it, as in Python. *)
Definition M (A : Type) : Type := state -> result A * state.

Definition ret {A} (a : A) : M A := fun st => (Ok a, st).
Definition raise {A} (e : exn) : M A := fun st => (Raise e, st).
Definition bind {A B} (m : M A) (k : A -> M B) : M B :=
  fun st =>
    match m st with
    | (Ok a, st') => k a st'
    | (Raise e, st') => (Raise e, st')
    end.
Definition lift {A} (r : result A) : M A := fun st => (r, st).
Definition modify (f : state -> state) : M unit := fun st => (Ok tt, f st).

Notation "'let*' x := e 'in' k" := (bind e (fun x => k))
  (at level 10, x pattern, e at level 100, k at level 200).

(** [with ExitStack() as stack: body]: whatever [body] entered is exited
    when the block is left, normally or by an exception, which puts the
    handler stack back to what it was on entry. *)
Definition with_ExitStack {A} (body : M A) : M A :=
  fun st =>
    let '(r, st') := body st in
    (r, set_PYRO_STACK (PYRO_STACK st) st').

(** [stack.enter_context(plate)]: the plate becomes active. *)
Definition enter_context (p : plate) : M unit :=
  modify (fun st => set_PYRO_STACK (PYRO_STACK st ++ [plate_oid p]) st).

(** [plate in runtime._PYRO_STACK], a test on object identity. *)
Definition is_active (p : plate) (st : state) : bool :=
  bool_decide (plate_oid p ∈ PYRO_STACK st).

(** ** The libraries below the module

    The module calls into [re], [torch.distributions] and the Pyro
    primitives.  What these compute is not fixed here: every property
    below holds for any behaviour of theirs that fits this interface.
    The functions that read the active plates ([pyro.param] subsamples a
    parameter, [pyro.sample] broadcasts a value) take the state in which
    they are called.  Apart from [re.match], which may reject a pattern,
    and [sum_rightmost], whose reshape torch may refuse, the calls are
    taken to return. *)
Class Substrate := {
  (** [re.match(pattern, name)], as a truth value or as the error it
      raises, for a pattern string outside the fragment modelled above *)
  re_other : string -> string -> result bool;
  (** [biject_to(support)(x)] *)
  biject_to : constraint -> tensor -> tensor;
  (** [biject_to(support).inv.log_abs_det_jacobian(z, x)] *)
  log_abs_det_jacobian : constraint -> tensor -> tensor -> tensor;
  (** [sum_rightmost(value, dim)], which reshapes and sums; [None] when
      torch refuses the reshape *)
  sum_rightmost : tensor -> Z -> option tensor;
  (** the tensor that the parameter store keeps for a parameter created
      from [init_value] under [constraint] and [event_dim] *)
  param_init : constraint -> Z -> tensor -> tensor;
  (** what [pyro.param(name, ..., event_dim)] returns for the stored
      tensor, given the plates that are active *)
  param_value : string -> Z -> tensor -> state -> tensor;
  (** what [pyro.sample(name, dist.Delta(v, log_density, event_dim))]
      returns, given the plates that are active *)
  sample_delta : string -> tensor -> option tensor -> Z -> state -> tensor
}.

Section Primitives.
Context {lib : Substrate}.

(** [re.match(pattern, name)], as a truth value. *)
Definition re_match (pattern name : string) : result bool :=
  match re_compile pattern with
  | Some r => Ok (prefix_match r (list_ascii_of_string name))
  | None => re_other pattern name
  end.

(** Modelled from the spec: [pyro.param(name, init_value, constraint,
    event_dim)], parameter registration that returns a value reused by
    name; the store has create-if-absent semantics.  Assumed: a parameter
    that exists is never written, one that does not exist is created from
    [init_value], and asking for one that does not exist without an
    initial value is an error. *)
Definition pyro_param (name : string) (init_value : option tensor)
    (constraint : constraint) (event_dim : Z) : M tensor :=
  fun st =>
    match param_store st !! name with
    | Some w => (Ok (param_value name event_dim w st), st)
    | None =>
        match init_value with
        | Some v =>
            let w := param_init constraint event_dim v in
            let st' := set_param_store (<[name := w]> (param_store st)) st in
            (Ok (param_value name event_dim w st'), st')
        | None => (Raise ValueError, st)
        end
    end.

(** Modelled from the spec: [pyro.sample(name, dist.Delta(v,
    log_density=..., event_dim=...))], a deterministic sample statement;
    it returns a value and leaves the state of this module alone. *)
Definition pyro_sample_delta (name : string) (v : tensor) (log_density : option tensor)
    (event_dim : Z) : M tensor :=
  fun st => (Ok (sample_delta name v log_density event_dim st), st).
End Primitives.

(** [EasyGuide.__init__]: a fresh instance in a given process state. *)
Definition EasyGuide_init (store : gmap string tensor) (oid : nat) : state :=
  {| prototype_trace := None; frames := ∅; groups := ∅; plates := ∅;
     param_store := store; PYRO_STACK := []; next_oid := oid |}.

(** ** The [EasyGuide] methods *)

Section EasyGuide.
Context {lib : Substrate}.
(** How the constructor [pyro.plate(name, size, subsample_size, subsample,
    ...)] derives the attributes of the new object from its arguments. *)
Variable pyro_plate : string -> plate_args -> plate_attrs.

(** The loop over one site's [cond_indep_stack] in [_setup_prototype]. *)
Fixpoint setup_frames (fs : list frame) : M unit :=
  match fs with
  | [] => ret tt
  | f :: fs' =>
      if frame_vectorized f then
        let* _ := modify (fun st => set_frames (<[frame_name f := f]> (frames st)) st) in
        setup_frames fs'
      else raise NotImplementedError
  end.

(** The loop over the stochastic nodes in [_setup_prototype]. *)
Fixpoint setup_sites (sites : list site) : M unit :=
  match sites with
  | [] => ret tt
  | s :: rest =>
      let* _ := setup_frames (site_cond_indep_stack s) in
      setup_sites rest
  end.

(** [EasyGuide._setup_prototype]; [model_trace] is the pruned trace that
    running the model on the arguments of the call records. *)
Definition EasyGuide_setup_prototype (model_trace : list site) : M unit :=
  let* _ := modify (set_prototype_trace (Some model_trace)) in
  setup_sites (iter_stochastic_nodes model_trace).

(** [EasyGuide.__call__]; [guide] is the user's guide body applied to the
    arguments of the call. *)
Definition EasyGuide_call {R} (model_trace : list site) (guide : M R) : M R :=
  let* _ := (fun st =>
               match prototype_trace st with
               | None => EasyGuide_setup_prototype model_trace st
               | Some _ => ret tt st
               end) in
  let* result := guide in
  let* _ := modify (set_plates ∅) in
  ret result.

(** [EasyGuide.plate] *)
Definition EasyGuide_plate (name : string) (args : plate_args) : M plate :=
  fun st =>
    match plates st !! name with
    | Some p => (Ok p, st)
    | None =>
        let p := {| plate_oid := next_oid st;
                    plate_name := name;
                    plate_attr := pyro_plate name args |} in
        (Ok p, set_next_oid (S (next_oid st)) (set_plates (<[name := p]> (plates st)) st))
    end.

(** The list comprehension of [EasyGuide.group]: [re.match] is evaluated
    once per stochastic node, in catalog order. *)
Fixpoint select_sites (pattern : string) (nodes : list site) : result (list site) :=
  match nodes with
  | [] => Ok []
  | s :: rest =>
      let? b := re_match pattern (site_name s) in
      let? sel := select_sites pattern rest in
      Ok (if b : bool then s :: sel else sel)
  end.

(** [EasyGuide.group] *)
Definition EasyGuide_group (pattern : string) : M Group :=
  fun st =>
    match groups st !! pattern with
    | Some g => (Ok g, st)
    | None =>
        match prototype_trace st with
        | None => (Raise AttributeError, st)
        | Some tr =>
            match select_sites pattern (iter_stochastic_nodes tr) with
            | Raise e => (Raise e, st)
            | Ok [] => (Raise ValueError, st)
            | Ok sites =>
                match Group_init (next_oid st) sites with
                | Raise e => (Raise e, st)
                | Ok g =>
                    (Ok g, set_next_oid (S (next_oid st))
                             (set_groups (<[pattern := g]> (groups st)) st))
                end
            end
        end
    end.

(** The body of the [elif] branch of [map_estimate]: repeat [init_value]
    to the full size of the plate. *)
Definition repeat_to_full_size (p : plate) (fn : distribution) (init_value : tensor)
  : result tensor :=
  let dim := (plate_dim p - event_dim fn)%Z in
  let? n := tensor_size init_value dim in
  if decide (Z.of_nat n = plate_subsample_size p) then
    let? ind := arange (plate_size p) in
    let? ind := remainder ind (plate_subsample_size p) in
    index_select init_value dim ind
  else Raise AssertionError.

(** One iteration of the loop over frames in [map_estimate]. *)
Definition map_estimate_frame (fn : distribution) (init_value : option tensor) (f : frame)
  : M (option tensor) :=
  let* p := EasyGuide_plate (frame_name f) no_args in
  fun st =>
    if negb (is_active p st) then
      (let* _ := enter_context p in ret init_value) st
    else
      match init_value with
      | Some v =>
          if decide (plate_subsample_size p < plate_size p)%Z then
            match repeat_to_full_size p fn v with
            | Ok v' => (Ok (Some v'), st)
            | Raise e => (Raise e, st)
            end
          else (Ok init_value, st)
      | None => (Ok init_value, st)
      end.

Fixpoint map_estimate_frames (fn : distribution) (init_value : option tensor)
    (fs : list frame) : M (option tensor) :=
  match fs with
  | [] => ret init_value
  | f :: fs' =>
      let* init_value' := map_estimate_frame fn init_value f in
      map_estimate_frames fn init_value' fs'
  end.

Definition param_name_of (name : string) : string := "auto_" +:+ name.

(** [EasyGuide.map_estimate] *)
Definition EasyGuide_map_estimate (name : string) : M tensor :=
  fun st =>
    match prototype_trace st with
    | None => (Raise AttributeError, st)
    | Some tr =>
        match trace_node tr name with
        | Raise e => (Raise e, st)
        | Ok site =>
            let fn := site_fn site in
            let param_name := param_name_of name in
            let init_value :=
              match param_store st !! param_name with
              | None => Some (detach (site_value site))
              | Some _ => None
              end in
            with_ExitStack
              (let* init_value' :=
                 map_estimate_frames fn init_value (site_cond_indep_stack site) in
               let* value := pyro_param param_name init_value' (support fn) (event_dim fn) in
               pyro_sample_delta name value None (event_dim fn)) st
        end
    end.

(** The replay block of [Group.sample] for one site: enter the site's
    plates that are not active yet, then register the Delta sample. *)
Fixpoint enter_frames (fs : list frame) : M unit :=
  match fs with
  | [] => ret tt
  | f :: fs' =>
      let* p := EasyGuide_plate (frame_name f) no_args in
      let* _ := (fun st => if negb (is_active p st) then enter_context p st else ret tt st) in
      enter_frames fs'
  end.

(** The transform to constrained space in [Group.sample]: the value [z]
    and the log-density correction of one site. *)
Definition constrain (fn : distribution) (unconstrained_z : tensor)
  : result (tensor * tensor) :=
  let z := biject_to (support fn) unconstrained_z in
  let log_density := log_abs_det_jacobian (support fn) z unconstrained_z in
  match sum_rightmost log_density
          (Z.of_nat (length (shape log_density)) - Z.of_nat (length (shape z))
           + event_dim fn)%Z with
  | Some log_density' => Ok (z, log_density')
  | None => Raise RuntimeError
  end.

(** The loop of [Group.sample] over the member sites. *)
Fixpoint sample_loop (guide_z : tensor) (pos : nat) (sites : list site)
    (model_zs : gmap string tensor) : M (gmap string tensor) :=
  match sites with
  | [] => ret model_zs
  | s :: rest =>
      let fn := site_fn s in
      let* unconstrained_z := lift (unpack_site guide_z pos s) in
      let* zl := lift (constrain fn unconstrained_z) in
      let* v := with_ExitStack
                  (let* _ := enter_frames (site_cond_indep_stack s) in
                   pyro_sample_delta (site_name s) (fst zl) (Some (snd zl)) (event_dim fn)) in
      sample_loop guide_z (pos + span_size s) rest (<[site_name s := v]> model_zs)
  end.

(** [Group.sample], from the packed draw [guide_z] on. *)
Definition Group_sample (g : Group) (guide_z : tensor) : M (tensor * gmap string tensor) :=
  let* model_zs := sample_loop guide_z 0 (group_sites g) ∅ in
  ret (guide_z, model_zs).

(** [Group.map_estimate] *)
Fixpoint Group_map_estimate_loop (sites : list site) (acc : gmap string tensor)
  : M (gmap string tensor) :=
  match sites with
  | [] => ret acc
  | s :: rest =>
      let* v := EasyGuide_map_estimate (site_name s) in
      Group_map_estimate_loop rest (<[site_name s := v]> acc)
  end.

Definition Group_map_estimate (g : Group) : M (gmap string tensor) :=
  Group_map_estimate_loop (group_sites g) ∅.
End EasyGuide.

(** ** Well-formedness

    Inside a vectorized plate the distribution of a site is broadcast over
    the plate, so its batch shape has the dimension every vectorized frame
    of the site points at. *)
Definition site_wf (s : site) : Prop :=
  Forall (fun f => is_Some (py_index (length (batch_shape (site_fn s))) (frame_dim f)))
         (vectorized_frames s).

Section GroupCache.
Context {lib : Substrate}.

(** What holds of the group cache in every state the methods produce:
    a cached group holds the non-empty selection of its pattern from the
    catalog, and cached groups are distinct objects allocated earlier. *)
Record groups_wf (st : state) : Prop := {
  groups_selected : forall p g, groups st !! p = Some g ->
    exists tr, prototype_trace st = Some tr
      /\ select_sites p (iter_stochastic_nodes tr) = Ok (group_sites g)
      /\ group_sites g <> [];
  groups_bounded : forall p g, groups st !! p = Some g -> group_oid g < next_oid st;
  groups_distinct : forall p q g h,
    groups st !! p = Some g -> groups st !! q = Some h ->
    group_oid g = group_oid h -> p = q
}.

(** [self.group()] with the default argument [match=".*"]. *)
Definition EasyGuide_group_default : M Group := EasyGuide_group ".*".
End GroupCache.

(** Every entry of the plate registry of [st] is still there in [st']. *)
Definition plates_kept (st st' : state) : Prop :=
  forall name p, plates st !! name = Some p -> plates st' !! name = Some p.

(** ** Concrete instances

    Small models and tensors on which the definitions above are run. *)

(** [value.reshape(lead + (-1,)).sum(-1)]: the reshape is refused when
    [lead] has no element, since the size standing for [-1] is then
    ambiguous. *)
Definition sum_rows (lead : list nat) (t : tensor) : option tensor :=
  if decide (numel lead = 0) then None
  else
    let w := numel (shape t) / numel lead in
    Some {| shape := lead;
            data := (fun r => foldr Z.add 0%Z (take w (drop (r * w) (data t))))
                      <$> seq 0 (numel lead);
            requires_grad := requires_grad t |}.

(** Modelled from the spec: [sum_rightmost(value, dim)] sums out the
    [dim] rightmost dimensions; a negative [dim] counts the dimensions to
    keep on the left; summing out every dimension gives a scalar. *)
Definition sum_rightmost_tensor (value : tensor) (dim : Z) : option tensor :=
  let n := Z.of_nat (length (shape value)) in
  let dim := if decide (dim < 0)%Z then (dim + n)%Z else dim in
  if decide (dim = 0)%Z then Some value
  else if decide (n <= dim)%Z then
    Some {| shape := []; data := [foldr Z.add 0%Z (data value)];
            requires_grad := requires_grad value |}
  else if decide (0 < dim)%Z then sum_rows (take (Z.to_nat (n - dim)) (shape value)) value
  else sum_rows (take (Z.to_nat (- dim)) (shape value)) value.

(** One instance of the libraries, on which the examples are run; no
    general statement depends on it.  It fits the models below, whose
    sites have real support: the transform to the support is the identity
    and its log Jacobian is zero everywhere, a new parameter is a leaf
    that requires gradients, and a Delta sample is its value.  It is
    simpler than the libraries in two respects: a parameter is read back
    as stored, without subsampling under an active plate, and a pattern
    string outside the fragment is reported as an error; the examples
    state nothing that depends on either. *)
Definition lib_real : Substrate :=
  {| re_other := fun _ _ => Raise re_error;
     biject_to := fun _ x => x;
     log_abs_det_jacobian := fun _ z _ =>
       {| shape := shape z; data := replicate (numel (shape z)) 0%Z;
          requires_grad := requires_grad z |};
     sum_rightmost := sum_rightmost_tensor;
     param_init := fun _ _ v =>
       {| shape := shape v; data := data v; requires_grad := true |};
     param_value := fun _ _ w _ => w;
     sample_delta := fun _ v _ _ _ => v |}.

(** A constructor for plate objects: absent sizes follow the torch
    convention [-1], an absent subsample size means the full size, and the
    plate sits on the rightmost batch dimension unless told otherwise. *)
Definition plate_of_args (_ : string) (a : plate_args) : plate_attrs :=
  let size := default (-1)%Z (arg_size a) in
  {| attr_size := size;
     attr_subsample_size := default size (arg_subsample_size a);
     attr_dim := default (-1)%Z (arg_dim a) |}.

Definition zeros (s : list nat) : tensor :=
  {| shape := s; data := replicate (numel s) 0%Z; requires_grad := false |}.

Definition frame_data : frame :=
  {| frame_name := "data"; frame_dim := (-1)%Z; frame_size := 10%Z; frame_vectorized := true |}.

(** A scalar site inside the vectorized plate [data] of size 10. *)
Definition site_x : site :=
  {| site_name := "x"; site_stochastic := true;
     site_fn := {| batch_shape := [10]; event_shape := []; support := real |};
     site_value := zeros [10];
     site_cond_indep_stack := [frame_data] |}.

(** A site outside any plate whose distribution has batch shape [(3,)]. *)
Definition site_w : site :=
  {| site_name := "w"; site_stochastic := true;
     site_fn := {| batch_shape := [3]; event_shape := []; support := real |};
     site_value := zeros [3];
     site_cond_indep_stack := [] |}.

(** A packed draw for a group of event size 1 taken while the plate [data]
    is subsampled to 5 elements. *)
Definition guide_z_sub : tensor :=
  {| shape := [5; 1]; data := [11; 12; 13; 14; 15]%Z; requires_grad := true |}.

(** The dict that [Group.sample] returns on [guide_z_sub] for the group
    of [site_x]. *)
Definition zs_x : gmap string tensor :=
  {[ "x" := {| shape := [5]; data := [11; 12; 13; 14; 15]%Z; requires_grad := true |} ]}.

(** An instance whose catalog holds [site_x]. *)
Definition st_x : state :=
  snd (EasyGuide_setup_prototype [site_x] (EasyGuide_init ∅ 0)).

(** The groups that [Group.__init__] builds from [[site_x]] and [[site_w]]. *)
Definition group_x : Group :=
  {| group_oid := 0; group_sites := [site_x];
     group_frames := [frame_data]; group_event_shape := [1] |}.

Definition group_w : Group :=
  {| group_oid := 0; group_sites := [site_w];
     group_frames := []; group_event_shape := [3] |}.

(** A guide body that asks for the plate [data] and returns the object. *)
Definition guide_plate_data : M plate :=
  EasyGuide_plate plate_of_args "data"
    {| arg_size := Some 10%Z; arg_subsample_size := Some 5%Z;
       arg_subsample := None; arg_dim := None |}.

(** A frame of the sequential kind, and a model that has a site in it. *)
Definition frame_loop : frame :=
  {| frame_name := "loop"; frame_dim := 0%Z; frame_size := 4%Z; frame_vectorized := false |}.

Definition site_y : site :=
  {| site_name := "y"; site_stochastic := true;
     site_fn := {| batch_shape := []; event_shape := []; support := real |};
     site_value := zeros [];
     site_cond_indep_stack := [frame_loop] |}.

(** A site with a vector event in the plate [data], a scalar site outside
    any plate, and a catalog of three sites. *)
Definition site_ab : site :=
  {| site_name := "ab"; site_stochastic := true;
     site_fn := {| batch_shape := [10]; event_shape := [2]; support := real |};
     site_value := zeros [10; 2];
     site_cond_indep_stack := [frame_data] |}.

Definition site_b : site :=
  {| site_name := "b"; site_stochastic := true;
     site_fn := {| batch_shape := []; event_shape := []; support := real |};
     site_value := zeros [];
     site_cond_indep_stack := [] |}.

Definition catalog3 : list site := [site_ab; site_x; site_b].

(** An instance whose catalog is [catalog3]. *)
Definition st3 : state :=
  snd (EasyGuide_setup_prototype catalog3 (EasyGuide_init ∅ 0)).

(** A plate of full size 7 subsampled to 3 elements, a site recorded
    inside it with the value [[0, 1, 2]], and a state in which the plate is
    registered and active. *)
Definition frame_sub : frame :=
  {| frame_name := "data"; frame_dim := (-1)%Z; frame_size := 7%Z; frame_vectorized := true |}.

Definition site_s : site :=
  {| site_name := "s"; site_stochastic := true;
     site_fn := {| batch_shape := [3]; event_shape := []; support := real |};
     site_value := {| shape := [3]; data := [0; 1; 2]%Z; requires_grad := true |};
     site_cond_indep_stack := [frame_sub] |}.

Definition args_sub : plate_args :=
  {| arg_size := Some 7%Z; arg_subsample_size := Some 3%Z;
     arg_subsample := None; arg_dim := None |}.

Definition plate_sub : plate :=
  {| plate_oid := 0; plate_name := "data"; plate_attr := plate_of_args "data" args_sub |}.

Definition st_sub : state :=
  {| prototype_trace := Some [site_s]; frames := {[ "data" := frame_sub ]};
     groups := ∅; plates := {[ "data" := plate_sub ]};
     param_store := ∅; PYRO_STACK := [0]; next_oid := 1 |}.

(** The guide body [with self.plate("data", 7, subsample_size=3):
    return self.map_estimate("s")]. *)
Definition guide_map_s : M tensor :=
  with_ExitStack
    (let* p := EasyGuide_plate plate_of_args "data" args_sub in
     let* _ := enter_context p in
     EasyGuide_map_estimate (lib := lib_real) plate_of_args "s").

(** ** Notions used to state further properties *)

(** The frames [_setup_prototype] visits, in the order it visits them. *)
Definition trace_frames (tr : list site) : list frame :=
  flat_map site_cond_indep_stack (iter_stochastic_nodes tr).

(** The frame visited last among those called [name]. *)
Definition last_frame_named (name : string) (fs : list frame) : option frame :=
  last (List.filter (fun f => bool_decide (frame_name f = name)) fs).

(** A model with two sites in plates that share the name [data] but not
    the size. *)
Definition frame_data7 : frame :=
  {| frame_name := "data"; frame_dim := (-1)%Z; frame_size := 7%Z; frame_vectorized := true |}.

Definition site_x7 : site :=
  {| site_name := "x7"; site_stochastic := true;
     site_fn := {| batch_shape := [7]; event_shape := []; support := real |};
     site_value := zeros [7];
     site_cond_indep_stack := [frame_data7] |}.

(** A node that is not stochastic (an observed site) in a sequential frame. *)
Definition site_obs : site :=
  {| site_name := "obs"; site_stochastic := false;
     site_fn := {| batch_shape := []; event_shape := []; support := real |};
     site_value := zeros [];
     site_cond_indep_stack := [frame_loop] |}.

(** Every frame shared by the sites indexes the batch shape of every site. *)
Definition shared_dims_ok (sites : list site) : Prop :=
  Forall (fun s =>
            Forall (fun f => is_Some (py_index (length (batch_shape (site_fn s))) (frame_dim f)))
                   (common_frames sites))
         sites.

(** What the methods leave alone: the catalog, the frames, the group
    cache and the parameter store are as before, the plate registry has
    lost nothing and no object identity was taken back. *)
Definition instance_kept (st st' : state) : Prop :=
  prototype_trace st' = prototype_trace st
  /\ frames st' = frames st
  /\ groups st' = groups st
  /\ param_store st' = param_store st
  /\ plates_kept st st'
  /\ next_oid st <= next_oid st'.

(** A packed draw of shape [(2, 12)] for the group of [site_ab] and
    [site_x], taken with two leading batch elements. *)
Definition group_abx : Group :=
  {| group_oid := 0; group_sites := [site_ab; site_x];
     group_frames := [frame_data]; group_event_shape := [3] |}.

Definition guide_z_abx : tensor :=
  {| shape := [2; 3]; data := [1; 2; 3; 4; 5; 6]%Z; requires_grad := true |}.

(** The dict that [Group.sample] returns on [guide_z_abx]. *)
Definition zs_abx : gmap string tensor :=
  {[ "ab" := {| shape := [2; 2]; data := [1; 2; 4; 5]%Z; requires_grad := true |};
     "x" := {| shape := [2]; data := [3; 6]%Z; requires_grad := true |} ]}.

(** What holds of the plate registry in every state the methods produce:
    an entry is a plate of the name it is filed under, allocated earlier,
    and entries under different names are different objects. *)
Record plates_wf (st : state) : Prop := {
  plates_named : forall n p, plates st !! n = Some p -> plate_name p = n;
  plates_bounded : forall n p, plates st !! n = Some p -> plate_oid p < next_oid st;
  plates_distinct : forall n m p q,
    plates st !! n = Some p -> plates st !! m = Some q ->
    plate_oid p = plate_oid q -> n = m
}.

(** No plate that the registry holds for one of the frames is both
    active and subsampled, and the active handlers are objects allocated
    earlier. *)
Definition frames_at_full_size (fs : list frame) (st : state) : Prop :=
  (forall f p, f ∈ fs -> plates st !! frame_name f = Some p ->
     plate_oid p ∈ PYRO_STACK st -> (plate_size p <= plate_subsample_size p)%Z)
  /\ (forall o, o ∈ PYRO_STACK st -> o < next_oid st).

(** The state [st_sub] with a catalog whose site [s] was recorded at the
    full size 7 although its plate is now subsampled to 3. *)
Definition site_s7 : site :=
  {| site_name := "s"; site_stochastic := true;
     site_fn := {| batch_shape := [7]; event_shape := []; support := real |};
     site_value := zeros [7];
     site_cond_indep_stack := [frame_sub] |}.

Definition st_sub7 : state := set_prototype_trace (Some [site_s7]) st_sub.

(** The stack of active handlers after the loop over the frames of a
    site, whatever the loop does to the seed: every frame whose plate, as
    the registry [m] has it, is not active yet gets that plate entered. *)
Definition enter_stack (m : gmap string plate) (fs : list frame) (stack : list nat)
  : list nat :=
  foldl (fun stk f =>
           match m !! frame_name f with
           | Some p => if bool_decide (plate_oid p ∈ stk) then stk else stk ++ [plate_oid p]
           | None => stk
           end) stack fs.

(** A site in two nested plates, [data] (subsampled, as in [st_sub]) and
    [batch], and a state whose catalog holds it. *)
Definition frame_batch : frame :=
  {| frame_name := "batch"; frame_dim := (-2)%Z; frame_size := 2%Z; frame_vectorized := true |}.

Definition site_t : site :=
  {| site_name := "t"; site_stochastic := true;
     site_fn := {| batch_shape := [2; 3]; event_shape := []; support := real |};
     site_value := {| shape := [2; 3]; data := [0; 1; 2; 10; 11; 12]%Z; requires_grad := true |};
     site_cond_indep_stack := [frame_batch; frame_sub] |}.

Definition st_sub_t : state := set_prototype_trace (Some [site_t]) st_sub.

(** * Properties *)

(** ** Shapes *)

Lemma numel_app (s1 s2 : list nat) : numel (s1 ++ s2) = numel s1 * numel s2.
Proof.
  induction s1 as [|n s1 IH]; simpl.
  - lia.
  - rewrite IH. lia.
Qed.

Lemma numel_singleton (n : nat) : numel [n] = n.
Proof. simpl. lia. Qed.

Lemma slice_last_shape (t : tensor) (n lo hi : nat) :
  last (shape t) = Some n -> lo <= hi -> hi <= n ->
  exists u, slice_last t lo hi = Ok u /\ shape u = shape_init (shape t) ++ [hi - lo].
Proof.
  intros Hlast Hlo Hhi. unfold slice_last. rewrite Hlast.
  eexists. split; [reflexivity|]. simpl.
  rewrite (Nat.min_l lo n) by lia. rewrite (Nat.min_l hi n) by lia. reflexivity.
Qed.

(** One step of the unpacking loop: a span that lies inside the trailing
    dimension is reshaped to the leading dimensions of the packed tensor
    followed by the site's event shape. *)
Lemma unpack_site_shape (guide_z : tensor) (n pos : nat) (s : site) :
  last (shape guide_z) = Some n -> pos + span_size s <= n ->
  exists t, unpack_site guide_z pos s = Ok t
            /\ shape t = shape_init (shape guide_z) ++ event_shape (site_fn s).
Proof.
  intros Hlast Hle. unfold unpack_site.
  destruct (slice_last_shape guide_z n pos (pos + span_size s) Hlast) as (u & Hu & Hshape);
    [lia | lia |].
  rewrite Hu. simpl. unfold reshape.
  rewrite Hshape, !numel_app, numel_singleton.
  replace (pos + span_size s - pos) with (span_size s) by lia.
  unfold span_size. rewrite decide_True by reflexivity.
  eexists. split; reflexivity.
Qed.

Lemma consumed_from (sites : list site) (pos : nat) :
  foldl (fun p s => p + span_size s) pos sites = pos + consumed sites.
Proof.
  unfold consumed. revert pos. induction sites as [|s sites IH] using rev_ind; intros pos.
  - simpl. lia.
  - rewrite !foldl_app. simpl. rewrite IH. lia.
Qed.

Lemma consumed_cons (s : site) (sites : list site) :
  consumed (s :: sites) = span_size s + consumed sites.
Proof. unfold consumed at 1. simpl. rewrite consumed_from. lia. Qed.

(** ** The handler stack and the plate registry never raise *)

Lemma consumed_app (l1 l2 : list site) :
  consumed (l1 ++ l2) = consumed l1 + consumed l2.
Proof. unfold consumed at 1. rewrite foldl_app, consumed_from. reflexivity. Qed.

(** A reshape that succeeds gives the shape that was asked for. *)
Lemma unpack_site_Ok_shape (guide_z : tensor) (pos : nat) (s : site) (u : tensor) :
  unpack_site guide_z pos s = Ok u ->
  shape u = shape_init (shape guide_z) ++ event_shape (site_fn s).
Proof.
  unfold unpack_site. destruct (slice_last guide_z pos (pos + span_size s)) as [t|e];
    simpl; [|discriminate].
  unfold reshape. destruct (decide _); [|discriminate].
  intros [= <-]. reflexivity.
Qed.

Section PlateFacts.
Context {lib : Substrate}.
Variable pyro_plate : string -> plate_args -> plate_attrs.

Lemma EasyGuide_plate_ok (name : string) (a : plate_args) (st : state) :
  exists p st', EasyGuide_plate pyro_plate name a st = (Ok p, st').
Proof. unfold EasyGuide_plate. destruct (plates st !! name); eauto. Qed.

Lemma enter_frames_ok (fs : list frame) (st : state) :
  exists st', enter_frames pyro_plate fs st = (Ok tt, st').
Proof.
  revert st. induction fs as [|f fs IH]; intros st; simpl.
  - eexists. reflexivity.
  - unfold bind at 1.
    destruct (EasyGuide_plate_ok (frame_name f) no_args st) as (p & st1 & ->).
    unfold bind at 1.
    destruct (negb (is_active p st1)); simpl; apply IH.
Qed.

(** One round of the loop of [Group.sample], as an equation: the slice
    and the transform may raise; otherwise the plates of the site are
    entered, the Delta sample is replayed in that state and filed under
    the name of the site, and the handler stack is put back. *)
Lemma sample_loop_cons (guide_z : tensor) (pos : nat) (s : site) (sites : list site)
    (acc : gmap string tensor) (st : state) :
  sample_loop pyro_plate guide_z pos (s :: sites) acc st
  = match unpack_site guide_z pos s with
    | Raise e => (Raise e, st)
    | Ok u =>
        match constrain (site_fn s) u with
        | Raise e => (Raise e, st)
        | Ok zl =>
            let st1 := snd (enter_frames pyro_plate (site_cond_indep_stack s) st) in
            sample_loop pyro_plate guide_z (pos + span_size s) sites
              (<[site_name s := sample_delta (site_name s) (fst zl) (Some (snd zl))
                                  (event_dim (site_fn s)) st1]> acc)
              (set_PYRO_STACK (PYRO_STACK st) st1)
        end
    end.
Proof.
  simpl. unfold bind at 1. unfold lift.
  destruct (unpack_site guide_z pos s) as [u|e]; [|reflexivity].
  unfold bind at 1.
  destruct (constrain (site_fn s) u) as [zl|e]; [|reflexivity].
  unfold bind at 1. unfold with_ExitStack, bind, pyro_sample_delta.
  destruct (enter_frames_ok (site_cond_indep_stack s) st) as (st1 & ->).
  reflexivity.
Qed.

(** What a run of the loop that returns has filed under the name of each
    site. *)
Lemma sample_loop_entries (guide_z : tensor) (sites : list site) :
  NoDup (site_name <$> sites) ->
  forall (pos : nat) (acc zs : gmap string tensor) (st st' : state),
    sample_loop pyro_plate guide_z pos sites acc st = (Ok zs, st') ->
    (forall pre s post, sites = pre ++ s :: post ->
       exists u zl st_in,
         unpack_site guide_z (pos + consumed pre) s = Ok u
         /\ constrain (site_fn s) u = Ok zl
         /\ zs !! site_name s
            = Some (sample_delta (site_name s) (fst zl) (Some (snd zl))
                      (event_dim (site_fn s)) st_in))
    /\ (forall k, k ∉ (site_name <$> sites) -> zs !! k = acc !! k).
Proof.
  induction sites as [|s0 sites IH]; intros Hnd pos acc zs st st' Hrun.
  - simpl in Hrun. injection Hrun as <- <-. split; [|reflexivity].
    intros pre s post Heq. destruct pre; discriminate.
  - apply NoDup_cons in Hnd as [Hnotin Hnd].
    rewrite sample_loop_cons in Hrun.
    destruct (unpack_site guide_z pos s0) as [u|e] eqn:Hu; [|discriminate].
    destruct (constrain (site_fn s0) u) as [zl|e] eqn:Hzl; [|discriminate].
    simpl in Hrun. apply (IH Hnd) in Hrun as [Hin Hout]. split.
    + intros pre s post Heq. destruct pre as [|s1 pre]; simpl in Heq.
      * injection Heq as <- <-. exists u, zl. eexists.
        unfold consumed. simpl. rewrite Nat.add_0_r.
        split; [exact Hu|]. split; [exact Hzl|].
        rewrite Hout by exact Hnotin. apply lookup_insert_eq.
      * injection Heq as <- ->.
        destruct (Hin pre s post eq_refl) as (u' & zl' & st_in & Hu' & Hzl' & Hz).
        exists u', zl', st_in. split; [|split; assumption].
        rewrite consumed_cons. rewrite <- Hu'. f_equal. lia.
    + intros k Hk. simpl in Hk. apply not_elem_of_cons in Hk as [Hne Hk].
      rewrite Hout by exact Hk. apply lookup_insert_ne. congruence.
Qed.

Lemma Group_sample_Ok (g : Group) (guide_z z : tensor) (zs : gmap string tensor)
    (st st' : state) :
  Group_sample pyro_plate g guide_z st = (Ok (z, zs), st') ->
  z = guide_z /\ sample_loop pyro_plate guide_z 0 (group_sites g) ∅ st = (Ok zs, st').
Proof.
  unfold Group_sample, bind, ret.
  destruct (sample_loop pyro_plate guide_z 0 (group_sites g) ∅ st) as [[zs0|e] st0];
    [|discriminate].
  intros [= <- <- <-]. auto.
Qed.

(** ** Unpacking in [Group.sample] *)

(** C1, as amended.  For every group and every packed sample on which
    [Group.sample] returns, the slice unpacked for each member site, the
    tensor that is handed to the support transform and whose replayed
    Delta sample is the value returned for the site, has the shape
    [guide_z.shape[:-1]], the leading dimensions of the packed sample at
    call time, followed by the site's event shape as recorded in the
    catalog.  The batch shape recorded in the catalog is not consulted.
    The value returned for the site has that shape too whenever the
    transform and the replay keep the shape of what they are given. *)
Theorem Group_sample_unpacked_shape (g : Group) (guide_z : tensor)
    (model_zs : gmap string tensor) (st st' : state) :
  NoDup (site_name <$> group_sites g) ->
  Group_sample pyro_plate g guide_z st = (Ok (guide_z, model_zs), st') ->
  forall pre s post, group_sites g = pre ++ s :: post ->
    exists u zl st_in,
      unpack_site guide_z (consumed pre) s = Ok u
      /\ shape u = shape_init (shape guide_z) ++ event_shape (site_fn s)
      /\ constrain (site_fn s) u = Ok zl
      /\ fst zl = biject_to (support (site_fn s)) u
      /\ model_zs !! site_name s
         = Some (sample_delta (site_name s) (fst zl) (Some (snd zl))
                   (event_dim (site_fn s)) st_in)
      /\ ((forall c x, shape (biject_to c x) = shape x) ->
          (forall n v l e s0, shape (sample_delta n v l e s0) = shape v) ->
          exists t, model_zs !! site_name s = Some t
                    /\ shape t = shape_init (shape guide_z) ++ event_shape (site_fn s)).
Proof.
  intros Hnd Hrun pre s post Heq.
  apply Group_sample_Ok in Hrun as [_ Hloop].
  destruct (sample_loop_entries guide_z (group_sites g) Hnd 0 ∅ model_zs st st' Hloop)
    as [Hin _].
  destruct (Hin pre s post Heq) as (u & zl & st_in & Hu & Hzl & Hz). simpl in Hu.
  pose proof (unpack_site_Ok_shape _ _ _ _ Hu) as Hshape.
  assert (fst zl = biject_to (support (site_fn s)) u) as Hfst.
  { revert Hzl. unfold constrain. destruct (sum_rightmost _ _); [|discriminate].
    intros [= <-]. reflexivity. }
  exists u, zl, st_in. repeat (split; [assumption|]).
  intros Htrans Hreplay. eexists. split; [exact Hz|].
  rewrite Hreplay, Hfst, Htrans. exact Hshape.
Qed.
End PlateFacts.

Example Group_init_site_x : Group_init 0 [site_x] = Ok group_x.
Proof. reflexivity. Qed.

Example Group_init_site_w : Group_init 0 [site_w] = Ok group_w.
Proof. reflexivity. Qed.

Lemma Group_sample_unpacked_shape_witness :
  Group_sample (lib := lib_real) plate_of_args group_x guide_z_sub st_x
  = (Ok (guide_z_sub, zs_x),
     snd (Group_sample (lib := lib_real) plate_of_args group_x guide_z_sub st_x))
  /\ forall pre s post, group_sites group_x = pre ++ s :: post ->
    exists u zl st_in,
      unpack_site guide_z_sub (consumed pre) s = Ok u
      /\ shape u = shape_init (shape guide_z_sub) ++ event_shape (site_fn s)
      /\ constrain (lib := lib_real) (site_fn s) u = Ok zl
      /\ fst zl = biject_to (Substrate := lib_real) (support (site_fn s)) u
      /\ zs_x !! site_name s
         = Some (sample_delta (Substrate := lib_real) (site_name s) (fst zl) (Some (snd zl))
                   (event_dim (site_fn s)) st_in)
      /\ ((forall c x, shape (biject_to (Substrate := lib_real) c x) = shape x) ->
          (forall n v l e s0,
             shape (sample_delta (Substrate := lib_real) n v l e s0) = shape v) ->
          exists t, zs_x !! site_name s = Some t
                    /\ shape t = shape_init (shape guide_z_sub) ++ event_shape (site_fn s)).
Proof.
  split; [vm_compute; reflexivity|].
  apply (Group_sample_unpacked_shape (lib := lib_real) plate_of_args group_x guide_z_sub
           zs_x st_x (snd (Group_sample (lib := lib_real) plate_of_args group_x guide_z_sub st_x))).
  - apply NoDup_singleton.
  - vm_compute. reflexivity.
Defined.

(** C1, as stated, fails.  The site [x] was recorded with batch shape
    [(10,)] and event shape [()]; on a packed sample drawn while its plate
    is subsampled to 5 elements, the value unpacked for [x] has shape
    [(5,)], not the catalog shape [(10,)]. *)
Lemma Group_sample_shape_not_catalog :
  exists model_zs st' t,
    Group_sample (lib := lib_real) plate_of_args group_x guide_z_sub st_x
    = (Ok (guide_z_sub, model_zs), st')
    /\ model_zs !! site_name site_x = Some t
    /\ shape t = [5]
    /\ shape t <> batch_shape (site_fn site_x) ++ event_shape (site_fn site_x).
Proof.
  eexists _, _, _. split; [vm_compute; reflexivity|].
  split; [vm_compute; reflexivity|]. split; [reflexivity|]. discriminate.
Qed.

(** ** The declared size of a group and the spans [Group.sample] consumes *)

(** When the batch dimensions of every member site collapse to a single
    element, the declared size is the sum of the spans. *)
Lemma event_shape_loop_unit_batch (fs : list frame) (sites : list site) (acc : nat) :
  (forall s, s ∈ sites ->
     exists b, collapse_frames fs (batch_shape (site_fn s)) = Ok b /\ numel b = 1) ->
  event_shape_loop fs sites acc = Ok (acc + consumed sites).
Proof.
  revert acc. induction sites as [|s sites IH]; intros acc Hall; simpl.
  - unfold consumed. simpl. f_equal. lia.
  - destruct (Hall s) as (b & Hb & Hone); [left|].
    unfold site_flat_size. rewrite Hb. simpl. rewrite Hone.
    rewrite IH by (intros s' Hs'; apply Hall; right; exact Hs').
    rewrite consumed_cons. unfold span_size. f_equal. lia.
Qed.

(** C2 at a failing input.  For the group made of the single site [w]
    (batch shape [(3,)] outside any plate, scalar event),
    [Group.__init__] declares the event shape [(3,)] while the loop of
    [Group.sample] advances [pos] by 1 only. *)
Theorem Group_sample_span_mismatch :
  Group_init 0 [site_w] = Ok group_w
  /\ group_event_shape group_w = [3]
  /\ consumed (group_sites group_w) = 1
  /\ group_event_shape group_w <> [consumed (group_sites group_w)].
Proof. repeat split; try reflexivity. discriminate. Qed.

(** ** The plate registry *)

Section PlateRegistry.
Context {lib : Substrate}.
Variable pyro_plate : string -> plate_args -> plate_attrs.

Lemma EasyGuide_plate_hit (name : string) (a : plate_args) (p : plate) (st : state) :
  plates st !! name = Some p ->
  EasyGuide_plate pyro_plate name a st = (Ok p, st).
Proof. intros H. unfold EasyGuide_plate. rewrite H. reflexivity. Qed.

Lemma EasyGuide_plate_miss (name : string) (a : plate_args) (st : state) :
  plates st !! name = None ->
  exists p st',
    EasyGuide_plate pyro_plate name a st = (Ok p, st')
    /\ plate_oid p = next_oid st
    /\ plate_attr p = pyro_plate name a
    /\ plates st' = <[name := p]> (plates st)
    /\ next_oid st' = S (next_oid st).
Proof.
  intros H. unfold EasyGuide_plate. rewrite H.
  eexists _, _. repeat split.
Qed.

Lemma EasyGuide_plate_registered (name : string) (a : plate_args) (p : plate)
    (st st' : state) :
  EasyGuide_plate pyro_plate name a st = (Ok p, st') ->
  plates st' !! name = Some p.
Proof.
  unfold EasyGuide_plate. destruct (plates st !! name) as [q|] eqn:Hq.
  - intros [= <- <-]. exact Hq.
  - intros [= <- <-]. simpl. apply lookup_insert_eq.
Qed.

(** C8.  Two requests for the same plate name return the same object,
    whatever the arguments of the second request; the second request
    changes nothing, and when the first one built the object its
    attributes come from the arguments of the first request. *)
Theorem EasyGuide_plate_memoized (name : string) (a1 a2 : plate_args) (st : state) :
  exists p st1,
    EasyGuide_plate pyro_plate name a1 st = (Ok p, st1)
    /\ EasyGuide_plate pyro_plate name a2 st1 = (Ok p, st1)
    /\ (plates st !! name = None -> plate_attr p = pyro_plate name a1).
Proof.
  destruct (EasyGuide_plate_ok pyro_plate name a1 st) as (p & st1 & Hrun).
  exists p, st1. split; [exact Hrun|]. split.
  - apply EasyGuide_plate_hit. eapply EasyGuide_plate_registered, Hrun.
  - intros Hnone. destruct (EasyGuide_plate_miss name a1 st Hnone)
      as (p' & st' & Hrun' & _ & Hattr & _).
    rewrite Hrun in Hrun'. injection Hrun' as -> _. exact Hattr.
Qed.

(** What [__call__] does once the catalog exists or has been built. *)
Lemma EasyGuide_call_returns {R} (model_trace : list site) (guide : M R)
    (r : R) (st st' : state) :
  EasyGuide_call model_trace guide st = (Ok r, st') ->
  plates st' = ∅.
Proof.
  unfold EasyGuide_call, bind, modify, ret.
  destruct (prototype_trace st).
  - destruct (guide st) as [[r0|e] st1]; intros [= <- <-]. reflexivity.
  - destruct (EasyGuide_setup_prototype model_trace st) as [[[]|e] st0]; [|discriminate].
    destruct (guide st0) as [[r0|e] st1]; intros [= <- <-]. reflexivity.
Qed.

End PlateRegistry.



(** ** Catalog construction *)

Lemma setup_frames_sequential (fs : list frame) (f : frame) (st : state) :
  f ∈ fs -> frame_vectorized f = false ->
  fst (setup_frames fs st) = Raise NotImplementedError.
Proof.
  revert st. induction fs as [|f0 fs IH]; intros st Hin Hseq.
  - inversion Hin.
  - simpl. destruct (frame_vectorized f0) eqn:Hv.
    + apply elem_of_cons in Hin as [-> | Hin]; [congruence|].
      unfold bind, modify. apply IH; assumption.
    + reflexivity.
Qed.

Lemma setup_frames_outcome (fs : list frame) (st : state) :
  fst (setup_frames fs st) = Ok tt \/ fst (setup_frames fs st) = Raise NotImplementedError.
Proof.
  revert st. induction fs as [|f fs IH]; intros st; simpl.
  - left. reflexivity.
  - destruct (frame_vectorized f).
    + unfold bind, modify. apply IH.
    + right. reflexivity.
Qed.

Lemma setup_sites_sequential (sites : list site) (s : site) (f : frame) (st : state) :
  s ∈ sites -> f ∈ site_cond_indep_stack s -> frame_vectorized f = false ->
  fst (setup_sites sites st) = Raise NotImplementedError.
Proof.
  revert st. induction sites as [|s0 sites IH]; intros st Hs Hf Hseq.
  - inversion Hs.
  - simpl. unfold bind.
    apply elem_of_cons in Hs as [-> | Hs].
    + pose proof (setup_frames_sequential _ _ st Hf Hseq) as H.
      destruct (setup_frames (site_cond_indep_stack s0) st) as [[u|e] st1]; simpl in H.
      * discriminate.
      * simpl. exact H.
    + destruct (setup_frames_outcome (site_cond_indep_stack s0) st) as [H|H];
        destruct (setup_frames (site_cond_indep_stack s0) st) as [[u|e] st1]; simpl in H;
        try discriminate.
      * apply IH; assumption.
      * simpl. exact H.
Qed.

Lemma setup_frames_prototype_trace (fs : list frame) (st : state) :
  prototype_trace (snd (setup_frames fs st)) = prototype_trace st.
Proof.
  revert st. induction fs as [|f fs IH]; intros st; simpl; [reflexivity|].
  destruct (frame_vectorized f); [|reflexivity].
  unfold bind, modify. rewrite IH. reflexivity.
Qed.

Lemma setup_sites_prototype_trace (sites : list site) (st : state) :
  prototype_trace (snd (setup_sites sites st)) = prototype_trace st.
Proof.
  revert st. induction sites as [|s sites IH]; intros st; simpl; [reflexivity|].
  unfold bind.
  pose proof (setup_frames_prototype_trace (site_cond_indep_stack s) st) as H.
  destruct (setup_frames (site_cond_indep_stack s) st) as [[u|e] st1]; simpl in H.
  - rewrite IH. exact H.
  - exact H.
Qed.

(** The catalog is assigned before the frames are inspected: the state a
    failed construction leaves behind already has it. *)
Lemma EasyGuide_setup_prototype_assigns (model_trace : list site) (st : state) :
  prototype_trace (snd (EasyGuide_setup_prototype model_trace st)) = Some model_trace.
Proof.
  unfold EasyGuide_setup_prototype, bind, modify.
  rewrite setup_sites_prototype_trace. reflexivity.
Qed.

(** C5 at a failing input.  On the first invocation of an instance (no
    catalog yet), a model that has a stochastic site with a frame that is
    not vectorized makes the invocation raise [NotImplementedError] before
    the guide body runs.  The failure does not last: the state it leaves
    behind already holds the catalog, so the next invocation of the same
    instance skips the construction and its frame check, and does exactly
    what the guide body does, whatever model the arguments stand for. *)
Theorem EasyGuide_call_sequential_frame {R R'} (model_trace model_trace' : list site)
    (guide : M R) (guide' : M R') (s : site) (f : frame) (st : state) :
  prototype_trace st = None ->
  s ∈ iter_stochastic_nodes model_trace ->
  f ∈ site_cond_indep_stack s ->
  frame_vectorized f = false ->
  let st1 := snd (EasyGuide_setup_prototype model_trace st) in
  EasyGuide_call model_trace guide st = (Raise NotImplementedError, st1)
  /\ prototype_trace st1 = Some model_trace
  /\ EasyGuide_call model_trace' guide' st1
     = match guide' st1 with
       | (Ok r, st2) => (Ok r, set_plates ∅ st2)
       | (Raise e, st2) => (Raise e, st2)
       end.
Proof.
  intros Hnone Hs Hf Hseq st1.
  pose proof (EasyGuide_setup_prototype_assigns model_trace st) as Hassigned.
  fold st1 in Hassigned. split; [|split; [exact Hassigned|]].
  - unfold EasyGuide_call. unfold bind at 1. rewrite Hnone.
    assert (fst (EasyGuide_setup_prototype model_trace st) = Raise NotImplementedError) as H.
    { unfold EasyGuide_setup_prototype, bind, modify.
      eapply setup_sites_sequential; eassumption. }
    unfold st1. destruct (EasyGuide_setup_prototype model_trace st) as [[u|e] st0];
      simpl in H.
    + discriminate.
    + simpl. congruence.
  - unfold EasyGuide_call, bind, modify, ret. rewrite Hassigned.
    destruct (guide' st1) as [[r|e] st2]; reflexivity.
Qed.

Lemma EasyGuide_call_sequential_frame_witness :
  let st1 := snd (EasyGuide_setup_prototype [site_y] (EasyGuide_init ∅ 0)) in
  EasyGuide_call [site_y] guide_plate_data (EasyGuide_init ∅ 0)
  = (Raise NotImplementedError, st1)
  /\ prototype_trace st1 = Some [site_y]
  /\ EasyGuide_call [site_y] guide_plate_data st1
     = match guide_plate_data st1 with
       | (Ok r, st2) => (Ok r, set_plates ∅ st2)
       | (Raise e, st2) => (Raise e, st2)
       end.
Proof.
  apply (EasyGuide_call_sequential_frame [site_y] [site_y] guide_plate_data guide_plate_data
           site_y frame_loop).
  - reflexivity.
  - simpl. left.
  - simpl. left.
  - reflexivity.
Defined.

(** The same model invoked twice: the first invocation raises, the second
    returns the plate the guide body asked for. *)
Example EasyGuide_call_sequential_frame_twice :
  exists st1 p st2,
    EasyGuide_call [site_y] guide_plate_data (EasyGuide_init ∅ 0)
    = (Raise NotImplementedError, st1)
    /\ EasyGuide_call [site_y] guide_plate_data st1 = (Ok p, st2).
Proof. eexists _, _, _. split; vm_compute; reflexivity. Qed.

(** ** Group construction succeeds on well-formed sites *)

Lemma collapse_frames_ok (fs : list frame) (b : list nat) :
  Forall (fun f => is_Some (py_index (length b) (frame_dim f))) fs ->
  exists b', collapse_frames fs b = Ok b' /\ length b' = length b.
Proof.
  revert b. induction fs as [|f fs IH]; intros b Hall; simpl.
  - eauto.
  - apply Forall_cons in Hall as [[k Hk] Hall].
    unfold list_setitem. rewrite Hk. simpl.
    destruct (IH (<[k := 1]> b)) as (b' & Hb' & Hlen).
    + rewrite length_insert. exact Hall.
    + exists b'. split; [exact Hb'|]. rewrite Hlen. apply length_insert.
Qed.

Lemma common_frames_vectorized (sites : list site) (f : frame) (s : site) :
  f ∈ common_frames sites -> s ∈ sites -> f ∈ vectorized_frames s.
Proof.
  destruct sites as [|s0 rest]; simpl; [intros H; inversion H|].
  intros Hf Hs. apply list_elem_of_In, filter_In in Hf as [Hf0 Hall].
  apply elem_of_cons in Hs as [-> | Hs].
  - rewrite <- list_elem_of_In, elem_of_remove_dups in Hf0. exact Hf0.
  - rewrite forallb_forall in Hall.
    apply list_elem_of_In in Hs. specialize (Hall s Hs).
    apply bool_decide_eq_true in Hall. exact Hall.
Qed.

Lemma site_flat_size_ok (fs : list frame) (s : site) :
  site_wf s -> (forall f, f ∈ fs -> f ∈ vectorized_frames s) ->
  exists n, site_flat_size fs s = Ok n.
Proof.
  intros Hwf Hsub. unfold site_flat_size.
  destruct (collapse_frames_ok fs (batch_shape (site_fn s))) as (b & Hb & _).
  - apply Forall_forall. intros f Hf.
    unfold site_wf in Hwf. rewrite Forall_forall in Hwf. apply Hwf, Hsub, Hf.
  - rewrite Hb. simpl. eauto.
Qed.

Lemma event_shape_loop_ok (fs : list frame) (sites : list site) (acc : nat) :
  Forall site_wf sites ->
  (forall f s, f ∈ fs -> s ∈ sites -> f ∈ vectorized_frames s) ->
  exists n, event_shape_loop fs sites acc = Ok n.
Proof.
  revert acc. induction sites as [|s sites IH]; intros acc Hwf Hsub; simpl.
  - eauto.
  - apply Forall_cons in Hwf as [Hs Hwf].
    destruct (site_flat_size_ok fs s Hs) as (n & Hn).
    + intros f Hf. apply Hsub; [exact Hf | left].
    + rewrite Hn. simpl. apply IH; [exact Hwf|].
      intros f s' Hf Hs'. apply Hsub; [exact Hf | right; exact Hs'].
Qed.

Lemma Group_init_ok (oid : nat) (sites : list site) :
  sites <> [] -> Forall site_wf sites ->
  exists g, Group_init oid sites = Ok g
            /\ group_oid g = oid /\ group_sites g = sites.
Proof.
  intros Hne Hwf. unfold Group_init. destruct sites as [|s rest]; [congruence|].
  destruct (event_shape_loop_ok (common_frames (s :: rest)) (s :: rest) 0 Hwf) as (n & Hn).
  - intros f s' Hf Hs'. eapply common_frames_vectorized; eassumption.
  - rewrite Hn. simpl. eexists. repeat split.
Qed.

Lemma Group_init_fields (oid : nat) (sites : list site) (g : Group) :
  Group_init oid sites = Ok g -> group_oid g = oid /\ group_sites g = sites /\ sites <> [].
Proof.
  unfold Group_init. destruct sites as [|s rest]; [discriminate|].
  destruct (event_shape_loop _ _ _); simpl; [|discriminate].
  intros [= <-]. repeat split. discriminate.
Qed.

(** ** Site selection keeps catalog order and well-formedness *)

Lemma select_sites_sublist {lib : Substrate} (pattern : string) (nodes sel : list site) :
  select_sites pattern nodes = Ok sel -> forall s, s ∈ sel -> s ∈ nodes.
Proof.
  revert sel. induction nodes as [|s0 nodes IH]; intros sel; simpl.
  - intros [= <-] s Hs. inversion Hs.
  - destruct (re_match pattern (site_name s0)) as [b|e]; simpl; [|discriminate].
    destruct (select_sites pattern nodes) as [sel'|e]; simpl; [|discriminate].
    intros [= <-] s Hs. destruct b.
    + apply elem_of_cons in Hs as [-> | Hs]; [left | right; eauto].
    + right. eauto.
Qed.

(** ** The group cache *)

Lemma EasyGuide_init_groups_wf {lib : Substrate} (store : gmap string tensor) (oid : nat) :
  groups_wf (EasyGuide_init store oid).
Proof.
  split; simpl; intros *; rewrite lookup_empty; discriminate.
Qed.

Lemma EasyGuide_group_hit {lib : Substrate} (pattern : string) (g : Group) (st : state) :
  groups st !! pattern = Some g -> EasyGuide_group pattern st = (Ok g, st).
Proof. intros H. unfold EasyGuide_group. rewrite H. reflexivity. Qed.

Lemma EasyGuide_group_miss {lib : Substrate} (pattern : string) (tr sites : list site) (st : state) :
  groups st !! pattern = None ->
  prototype_trace st = Some tr ->
  select_sites pattern (iter_stochastic_nodes tr) = Ok sites ->
  sites <> [] ->
  Forall site_wf (iter_stochastic_nodes tr) ->
  exists g,
    EasyGuide_group pattern st
    = (Ok g, set_next_oid (S (next_oid st)) (set_groups (<[pattern := g]> (groups st)) st))
    /\ group_oid g = next_oid st /\ group_sites g = sites.
Proof.
  intros Hnone Htr Hsel Hne Hwf.
  destruct (Group_init_ok (next_oid st) sites Hne) as (g & Hg & Hoid & Hsites).
  - apply Forall_forall. intros s Hs. rewrite Forall_forall in Hwf.
    apply Hwf. eapply select_sites_sublist; eassumption.
  - exists g. split; [|auto]. unfold EasyGuide_group. rewrite Hnone, Htr, Hsel.
    destruct sites; [congruence|]. rewrite Hg. reflexivity.
Qed.

Lemma EasyGuide_group_groups_wf {lib : Substrate} (pattern : string) (st : state) :
  groups_wf st -> groups_wf (snd (EasyGuide_group pattern st)).
Proof.
  intros Hwf. unfold EasyGuide_group.
  destruct (groups st !! pattern) as [g0|] eqn:Hlook; [exact Hwf|].
  destruct (prototype_trace st) as [tr|] eqn:Htr; [|exact Hwf].
  destruct (select_sites pattern (iter_stochastic_nodes tr)) as [sites|e] eqn:Hsel;
    [|exact Hwf].
  destruct sites as [|s sites]; [exact Hwf|].
  destruct (Group_init (next_oid st) (s :: sites)) as [g|e] eqn:Hg; [|exact Hwf].
  apply Group_init_fields in Hg as (Hoid & Hsites & Hne).
  destruct Hwf as [Hsel_wf Hbound Hdist]. split; simpl.
  - intros p h Hp. destruct (decide (pattern = p)) as [<-|Hneq].
    + rewrite lookup_insert_eq in Hp. injection Hp as <-.
      exists tr. rewrite Hsites. auto.
    + rewrite lookup_insert_ne in Hp by exact Hneq. apply Hsel_wf in Hp. exact Hp.
  - intros p h Hp. destruct (decide (pattern = p)) as [<-|Hneq].
    + rewrite lookup_insert_eq in Hp. injection Hp as <-. lia.
    + rewrite lookup_insert_ne in Hp by exact Hneq. apply Hbound in Hp. lia.
  - intros p q h1 h2 Hp Hq Heq.
    destruct (decide (pattern = p)) as [<-|Hnp]; destruct (decide (pattern = q)) as [<-|Hnq].
    + reflexivity.
    + rewrite lookup_insert_eq in Hp. injection Hp as <-.
      rewrite lookup_insert_ne in Hq by exact Hnq. apply Hbound in Hq. lia.
    + rewrite lookup_insert_eq in Hq. injection Hq as <-.
      rewrite lookup_insert_ne in Hp by exact Hnp. apply Hbound in Hp. lia.
    + rewrite lookup_insert_ne in Hp by exact Hnp.
      rewrite lookup_insert_ne in Hq by exact Hnq. eapply Hdist; eassumption.
Qed.

Lemma groups_wf_empty {lib : Substrate} (st : state) : groups st = ∅ -> groups_wf st.
Proof.
  intros H. split; intros *; rewrite H, lookup_empty; discriminate.
Qed.

(** One request for a pattern that selects at least one site. *)
Lemma EasyGuide_group_total {lib : Substrate} (pattern : string) (tr sites : list site) (st : state) :
  groups_wf st ->
  prototype_trace st = Some tr ->
  Forall site_wf (iter_stochastic_nodes tr) ->
  select_sites pattern (iter_stochastic_nodes tr) = Ok sites ->
  sites <> [] ->
  exists g st1,
    EasyGuide_group pattern st = (Ok g, st1)
    /\ group_sites g = sites
    /\ groups st1 !! pattern = Some g
    /\ groups_wf st1
    /\ prototype_trace st1 = Some tr
    /\ (forall p, p <> pattern -> groups st1 !! p = groups st !! p)
    /\ (groups st !! pattern = None -> group_oid g = next_oid st).
Proof.
  intros Hwf Htr Hsites Hsel Hne.
  pose proof (EasyGuide_group_groups_wf pattern st Hwf) as Hwf1.
  destruct (groups st !! pattern) as [g|] eqn:Hlook.
  - rewrite (EasyGuide_group_hit pattern g st Hlook) in Hwf1 |- *.
    exists g, st. split; [reflexivity|].
    destruct (groups_selected st Hwf pattern g Hlook) as (tr' & Htr' & Hsel' & _).
    assert (tr' = tr) as -> by congruence.
    split; [congruence|]. split; [exact Hlook|]. split; [exact Hwf1|].
    split; [exact Htr|]. split; [reflexivity|]. intros Hnone. congruence.
  - destruct (EasyGuide_group_miss pattern tr sites st Hlook Htr Hsel Hne Hsites)
      as (g & Hrun & Hoid & Hgs).
    rewrite Hrun in Hwf1 |- *. simpl in Hwf1.
    eexists g, _. split; [reflexivity|]. split; [exact Hgs|].
    simpl. split; [apply lookup_insert_eq|]. split; [exact Hwf1|].
    split; [exact Htr|]. split; [|intros _; exact Hoid].
    intros p Hp. apply lookup_insert_ne. congruence.
Qed.

(** A pattern that selects nothing is not a key of the cache. *)
Lemma groups_wf_uncached {lib : Substrate} (pattern : string) (tr : list site) (st : state) :
  groups_wf st ->
  prototype_trace st = Some tr ->
  select_sites pattern (iter_stochastic_nodes tr) = Ok [] ->
  groups st !! pattern = None.
Proof.
  intros Hwf Htr Hsel.
  destruct (groups st !! pattern) as [g|] eqn:Hlook; [|reflexivity].
  destruct (groups_selected st Hwf pattern g Hlook) as (tr' & Htr' & Hsel' & Hne).
  assert (tr' = tr) as -> by congruence.
  congruence.
Qed.

(** C6.  A pattern that selects no site of the catalog makes [group]
    raise [ValueError]; the whole state, the group cache included, is left
    as it was, so no group is created or cached. *)
Theorem EasyGuide_group_no_match {lib : Substrate} (pattern : string) (tr : list site) (st : state) :
  groups_wf st ->
  prototype_trace st = Some tr ->
  select_sites pattern (iter_stochastic_nodes tr) = Ok [] ->
  EasyGuide_group pattern st = (Raise ValueError, st).
Proof.
  intros Hwf Htr Hsel. unfold EasyGuide_group.
  rewrite (groups_wf_uncached pattern tr st Hwf Htr Hsel), Htr, Hsel. reflexivity.
Qed.

Lemma EasyGuide_group_no_match_witness :
  EasyGuide_group (lib := lib_real) "z" st3 = (Raise ValueError, st3).
Proof.
  apply (EasyGuide_group_no_match (lib := lib_real) "z" catalog3 st3).
  - apply groups_wf_empty. reflexivity.
  - reflexivity.
  - reflexivity.
Defined.

(** C7.  A pattern with at least one matching site yields a group, and
    asking again returns that very object without touching the state.
    The cache is keyed by the pattern string: another string that selects
    the same sites gets a group of its own, a different object, and both
    stay cached under their own keys. *)
Theorem EasyGuide_group_cached {lib : Substrate} (pattern : string) (tr sites : list site) (st : state) :
  groups_wf st ->
  prototype_trace st = Some tr ->
  Forall site_wf (iter_stochastic_nodes tr) ->
  select_sites pattern (iter_stochastic_nodes tr) = Ok sites ->
  sites <> [] ->
  exists g st1,
    EasyGuide_group pattern st = (Ok g, st1)
    /\ EasyGuide_group pattern st1 = (Ok g, st1)
    /\ group_sites g = sites
    /\ forall q, q <> pattern ->
         select_sites q (iter_stochastic_nodes tr) = Ok sites ->
         exists h st2,
           EasyGuide_group q st1 = (Ok h, st2)
           /\ group_sites h = sites
           /\ group_oid h <> group_oid g
           /\ groups st2 !! pattern = Some g
           /\ groups st2 !! q = Some h.
Proof.
  intros Hwf Htr Hsites Hsel Hne.
  destruct (EasyGuide_group_total pattern tr sites st Hwf Htr Hsites Hsel Hne)
    as (g & st1 & Hrun & Hgs & Hreg & Hwf1 & Htr1 & _ & _).
  exists g, st1. split; [exact Hrun|].
  split; [apply EasyGuide_group_hit; exact Hreg|]. split; [exact Hgs|].
  intros q Hq Hselq.
  destruct (EasyGuide_group_total q tr sites st1 Hwf1 Htr1 Hsites Hselq Hne)
    as (h & st2 & Hrun2 & Hhs & Hreg2 & Hwf2 & _ & Hother & Hfresh).
  exists h, st2. split; [exact Hrun2|]. split; [exact Hhs|].
  assert (groups st2 !! pattern = Some g) as Hkeep.
  { rewrite Hother by congruence. exact Hreg. }
  split; [|split; assumption].
  intros Heq. apply Hq.
  exact (groups_distinct st2 Hwf2 q pattern h g Hreg2 Hkeep Heq).
Qed.

Lemma catalog3_wf : Forall site_wf (iter_stochastic_nodes catalog3).
Proof.
  unfold site_wf. simpl.
  repeat (apply Forall_cons; split); try apply Forall_nil; eexists; reflexivity.
Qed.

Lemma EasyGuide_group_cached_witness :
  exists g st1,
    EasyGuide_group (lib := lib_real) "x" st3 = (Ok g, st1)
    /\ EasyGuide_group (lib := lib_real) "x" st1 = (Ok g, st1)
    /\ group_sites g = [site_x]
    /\ forall q, q <> "x" ->
         select_sites (lib := lib_real) q (iter_stochastic_nodes catalog3) = Ok [site_x] ->
         exists h st2,
           EasyGuide_group (lib := lib_real) q st1 = (Ok h, st2)
           /\ group_sites h = [site_x]
           /\ group_oid h <> group_oid g
           /\ groups st2 !! "x" = Some g
           /\ groups st2 !! q = Some h.
Proof.
  apply (EasyGuide_group_cached (lib := lib_real) "x" catalog3 [site_x] st3).
  - apply groups_wf_empty. reflexivity.
  - reflexivity.
  - exact catalog3_wf.
  - reflexivity.
  - discriminate.
Defined.

(** The patterns [x] and [(x)] select the same site of [catalog3]; each
    gets its own cached group. *)
Example EasyGuide_group_two_patterns :
  exists g h st1 st2,
    EasyGuide_group (lib := lib_real) "x" st3 = (Ok g, st1)
    /\ EasyGuide_group (lib := lib_real) "(x)" st1 = (Ok h, st2)
    /\ group_sites g = group_sites h
    /\ group_oid g = 0 /\ group_oid h = 1.
Proof.
  eexists _, _, _, _. split; [vm_compute; reflexivity|].
  split; [vm_compute; reflexivity|]. repeat split.
Qed.

(** ** Regular expressions: the matcher decides prefix membership *)

Lemma nullable_matches (r : regex) : nullable r = true <-> matches r [].
Proof.
  split.
  - induction r; simpl; intros H; try discriminate.
    + constructor.
    + apply orb_true_iff in H as [H|H]; [apply m_alt_l | apply m_alt_r]; auto.
    + apply andb_true_iff in H as [H1 H2].
      change (@nil ascii) with (@nil ascii ++ @nil ascii). constructor; auto.
    + constructor.
  - induction r; simpl; intros H; inversion H; subst; try reflexivity.
    + apply orb_true_iff. left. auto.
    + apply orb_true_iff. right. auto.
    + match goal with Heq : _ ++ _ = [] |- _ => apply app_eq_nil in Heq as [-> ->] end.
      apply andb_true_iff. split; auto.
Qed.

Lemma deriv_sound (c : ascii) (r : regex) (w : list ascii) :
  matches (deriv c r) w -> matches r (c :: w).
Proof.
  revert w. induction r; simpl; intros w H.
  - inversion H.
  - inversion H.
  - destruct (decide (c = c0)) as [->|]; inversion H; subst. constructor.
  - destruct (decide (c = newline)); inversion H; subst. constructor. assumption.
  - inversion H; subst; [apply m_alt_l | apply m_alt_r]; auto.
  - destruct (nullable r1) eqn:Hn.
    + inversion H as [| | | ? ? ? H1 | ? ? ? H2 | | |]; subst.
      * inversion H1; subst.
        change (c :: w1 ++ w2) with ((c :: w1) ++ w2). constructor; auto.
      * change (c :: w) with ([] ++ c :: w). constructor; auto.
        apply nullable_matches. exact Hn.
    + inversion H; subst.
      change (c :: w1 ++ w2) with ((c :: w1) ++ w2). constructor; auto.
  - inversion H; subst.
    change (c :: w1 ++ w2) with ((c :: w1) ++ w2). constructor; auto.
Qed.

Lemma deriv_complete_aux (r : regex) (s : list ascii) :
  matches r s -> forall c w, s = c :: w -> matches (deriv c r) w.
Proof.
  induction 1 as [| c0 | c0 Hc0 | r1 r2 w0 H IH | r1 r2 w0 H IH
                  | r1 r2 w1 w2 H1 IH1 H2 IH2 | r0 | r0 w1 w2 H1 IH1 H2 IH2];
    intros c w Heq; simpl.
  - discriminate.
  - injection Heq as -> <-. rewrite decide_True by reflexivity. constructor.
  - injection Heq as -> <-. rewrite decide_False by assumption. constructor.
  - apply m_alt_l. eauto.
  - apply m_alt_r. eauto.
  - destruct w1 as [|c1 w1]; simpl in Heq.
    + assert (nullable r1 = true) as -> by (apply nullable_matches; exact H1).
      apply m_alt_r. eauto.
    + injection Heq as -> <-.
      assert (matches (Seq (deriv c r1) r2) (w1 ++ w2)) as Hseq
        by (constructor; eauto).
      destruct (nullable r1); [apply m_alt_l|]; exact Hseq.
  - discriminate.
  - destruct w1 as [|c1 w1]; simpl in Heq.
    + apply (IH2 c w Heq).
    + injection Heq as -> <-. constructor; eauto.
Qed.

Lemma deriv_matches (c : ascii) (r : regex) (w : list ascii) :
  matches (deriv c r) w <-> matches r (c :: w).
Proof.
  split; [apply deriv_sound|]. intros H. eapply deriv_complete_aux; eauto.
Qed.

Lemma prefix_match_spec (r : regex) (s : list ascii) :
  prefix_match r s = true <-> exists k, matches r (take k s).
Proof.
  revert r. induction s as [|c s IH]; intros r; simpl.
  - rewrite orb_false_r, nullable_matches. split.
    + intros H. exists 0. exact H.
    + intros [k H]. rewrite take_nil in H. exact H.
  - rewrite orb_true_iff, nullable_matches, IH. split.
    + intros [H | [k H]].
      * exists 0. exact H.
      * exists (S k). simpl. apply deriv_matches. exact H.
    + intros [[|k] H]; simpl in H.
      * left. exact H.
      * right. exists k. apply deriv_matches. exact H.
Qed.

Lemma full_match_spec (r : regex) (s : list ascii) :
  full_match r s = true <-> matches r s.
Proof.
  unfold full_match. revert r. induction s as [|c s IH]; intros r; simpl.
  - apply nullable_matches.
  - rewrite IH. apply deriv_matches.
Qed.

(** ** Regular expressions: the parser follows the pattern syntax *)

Section ParserSound.
Variable parse_inner : list ascii -> option (regex * list ascii).
Hypothesis parse_inner_sound : forall s r rest,
  parse_inner s = Some (r, rest) -> exists p, s = p ++ rest /\ reads_alt p r.

Lemma parse_atom_sound (s : list ascii) (r : regex) (rest : list ascii) :
  parse_atom parse_inner s = Some (r, rest) ->
  exists p, s = p ++ rest /\ reads_atom p r.
Proof.
  unfold parse_atom. destruct s as [|c s']; [discriminate|].
  destruct (decide (c = "("%char)) as [->|Hpar].
  - destruct (parse_inner s') as [[r0 [|c' s'']]|] eqn:Hin; try discriminate.
    destruct (decide (c' = ")"%char)) as [->|]; [|discriminate].
    intros [= <- <-]. apply parse_inner_sound in Hin as (p & -> & Hp).
    exists ("("%char :: p ++ [")"%char]). split.
    + simpl. rewrite <- app_assoc. reflexivity.
    + constructor. exact Hp.
  - destruct (decide (c = "."%char)) as [->|Hdot].
    { intros [= <- <-]. exists ["."%char]. split; [reflexivity | constructor]. }
    destruct (decide (c = "\"%char)) as [->|Hesc].
    + destruct s' as [|c' s'']; [discriminate|].
      destruct (is_meta c') eqn:Hm; [|discriminate].
      intros [= <- <-]. exists ["\"%char; c']. split; [reflexivity | constructor; exact Hm].
    + destruct (is_meta c) eqn:Hm; [discriminate|].
      intros [= <- <-]. exists [c]. split; [reflexivity | constructor; exact Hm].
Qed.

Lemma parse_rep_sound (s : list ascii) (r : regex) (rest : list ascii) :
  parse_rep parse_inner s = Some (r, rest) ->
  exists p, s = p ++ rest /\ reads_rep p r.
Proof.
  unfold parse_rep.
  destruct (parse_atom parse_inner s) as [[r0 [|c s']]|] eqn:Hat; try discriminate.
  - intros [= <- <-]. apply parse_atom_sound in Hat as (p & -> & Hp).
    exists p. split; [reflexivity | apply reads_rep_atom; exact Hp].
  - apply parse_atom_sound in Hat as (p & -> & Hp).
    destruct (decide (c = "*"%char)) as [->|].
    { intros [= <- <-]. exists (p ++ ["*"%char]).
      split; [rewrite <- app_assoc; reflexivity | apply reads_rep_star; exact Hp]. }
    destruct (decide (c = "+"%char)) as [->|].
    { intros [= <- <-]. exists (p ++ ["+"%char]).
      split; [rewrite <- app_assoc; reflexivity | apply reads_rep_plus; exact Hp]. }
    destruct (decide (c = "?"%char)) as [->|].
    { intros [= <- <-]. exists (p ++ ["?"%char]).
      split; [rewrite <- app_assoc; reflexivity | apply reads_rep_opt; exact Hp]. }
    intros [= <- <-]. exists p. split; [reflexivity | apply reads_rep_atom; exact Hp].
Qed.

Lemma parse_seq_sound (k : nat) :
  forall (s : list ascii) (r : regex) (rest : list ascii),
    parse_seq parse_inner k s = Some (r, rest) ->
    exists p, s = p ++ rest /\ reads_seq p r.
Proof.
  induction k as [|k IH]; intros s r rest; destruct s as [|c s']; cbn [parse_seq].
  - intros [= <- <-]. exists []. split; [reflexivity | constructor].
  - destruct (bool_decide (c = "|"%char ∨ c = ")"%char)); [|discriminate].
    intros [= <- <-]. exists []. split; [reflexivity | constructor].
  - intros [= <- <-]. exists []. split; [reflexivity | constructor].
  - destruct (bool_decide (c = "|"%char ∨ c = ")"%char)).
    { intros [= <- <-]. exists []. split; [reflexivity | constructor]. }
    destruct (parse_rep parse_inner (c :: s')) as [[r1 s1]|] eqn:Hrep; [|discriminate].
    destruct (parse_seq parse_inner k s1) as [[r2 s2]|] eqn:Hseq; [|discriminate].
    intros [= <- <-].
    apply parse_rep_sound in Hrep as (p1 & Heq1 & Hp1).
    apply IH in Hseq as (p2 & -> & Hp2).
    exists (p1 ++ p2). split; [rewrite Heq1, app_assoc; reflexivity|].
    constructor; assumption.
Qed.

Lemma parse_alt_sound (k : nat) :
  forall (s : list ascii) (r : regex) (rest : list ascii),
    parse_alt parse_inner k s = Some (r, rest) ->
    exists p, s = p ++ rest /\ reads_alt p r.
Proof.
  induction k as [|k IH]; intros s r rest; cbn [parse_alt];
    destruct (parse_seq parse_inner (length s) s) as [[r1 [|c s1]]|] eqn:Hseq;
    try discriminate.
  - intros [= <- <-]. apply parse_seq_sound in Hseq as (p & -> & Hp).
    exists p. split; [reflexivity | constructor; exact Hp].
  - destruct (decide (c = "|"%char)); [discriminate|].
    intros [= <- <-]. apply parse_seq_sound in Hseq as (p & -> & Hp).
    exists p. split; [reflexivity | constructor; exact Hp].
  - intros [= <- <-]. apply parse_seq_sound in Hseq as (p & -> & Hp).
    exists p. split; [reflexivity | constructor; exact Hp].
  - apply parse_seq_sound in Hseq as (p & -> & Hp).
    destruct (decide (c = "|"%char)) as [->|].
    + destruct (parse_alt parse_inner k s1) as [[r2 s2]|] eqn:Halt; [|discriminate].
      intros [= <- <-]. apply IH in Halt as (q & -> & Hq).
      exists (p ++ "|"%char :: q). split.
      * rewrite <- app_assoc. reflexivity.
      * apply reads_alt_bar; assumption.
    + intros [= <- <-]. exists p. split; [reflexivity | constructor; exact Hp].
Qed.
End ParserSound.

Lemma parse_regex_sound (depth : nat) :
  forall (s : list ascii) (r : regex) (rest : list ascii),
    parse_regex depth s = Some (r, rest) ->
    exists p, s = p ++ rest /\ reads_alt p r.
Proof.
  induction depth as [|d IH]; intros s r rest; simpl; [discriminate|].
  apply parse_alt_sound. exact IH.
Qed.

(** Whatever the parser makes of a pattern string is a reading of the
    whole string by the pattern syntax. *)
Lemma re_compile_sound (pattern : string) (r : regex) :
  re_compile pattern = Some r -> reads_alt (list_ascii_of_string pattern) r.
Proof.
  unfold re_compile.
  destruct (parse_regex _ _) as [[r0 [|c rest]]|] eqn:Hparse; try discriminate.
  intros [= <-]. apply parse_regex_sound in Hparse as (p & Heq & Hp).
  rewrite app_nil_r in Heq. rewrite Heq. exact Hp.
Qed.

(** ** Site selection is anchored at the start of the name *)

Lemma select_sites_spec {lib : Substrate} (pattern : string) (nodes sel : list site) :
  select_sites pattern nodes = Ok sel ->
  forall s, s ∈ sel <-> s ∈ nodes /\ re_match pattern (site_name s) = Ok true.
Proof.
  revert sel. induction nodes as [|s0 nodes IH]; intros sel; simpl.
  - intros [= <-] s. split; [intros H; inversion H | intros [H _]; inversion H].
  - destruct (re_match pattern (site_name s0)) as [b|e] eqn:Hb; simpl; [|discriminate].
    destruct (select_sites pattern nodes) as [sel'|e]; simpl; [|discriminate].
    intros [= <-] s. specialize (IH sel' eq_refl s).
    destruct b; rewrite ?elem_of_cons, IH; split.
    + intros [-> | [H1 H2]]; [split; [left; reflexivity | exact Hb] | split; [right|]; assumption].
    + intros [[-> | H1] H2]; [left; reflexivity | right; split; assumption].
    + intros [H1 H2]. split; [right|]; assumption.
    + intros [[-> | H1] H2]; [congruence | split; assumption].
Qed.

Lemma select_sites_filter {lib : Substrate} (pattern : string) (r : regex)
    (nodes : list site) :
  re_compile pattern = Some r ->
  select_sites pattern nodes
  = Ok (List.filter (fun s => prefix_match r (list_ascii_of_string (site_name s))) nodes).
Proof.
  intros Hr. induction nodes as [|s nodes IH]; simpl; [reflexivity|].
  unfold re_match. rewrite Hr. simpl. rewrite IH. simpl. reflexivity.
Qed.

(** The sites of a group that [group] returns are the selection of the
    pattern, whether the group was cached or is new. *)
Lemma EasyGuide_group_selected {lib : Substrate} (pattern : string) (tr : list site)
    (g : Group) (st st' : state) :
  groups_wf st ->
  prototype_trace st = Some tr ->
  EasyGuide_group pattern st = (Ok g, st') ->
  select_sites pattern (iter_stochastic_nodes tr) = Ok (group_sites g)
  /\ group_sites g <> [].
Proof.
  intros Hwf Htr. unfold EasyGuide_group.
  destruct (groups st !! pattern) as [g0|] eqn:Hlook.
  - intros [= <- <-].
    destruct (groups_selected st Hwf pattern g0 Hlook) as (tr' & Htr' & Hsel & Hne).
    assert (tr' = tr) as -> by congruence. auto.
  - rewrite Htr.
    destruct (select_sites pattern (iter_stochastic_nodes tr)) as [[|s sites]|e];
      try discriminate.
    destruct (Group_init (next_oid st) (s :: sites)) as [g1|e] eqn:Hg; [|discriminate].
    intros [= <- <-]. apply Group_init_fields in Hg as (_ & -> & Hne). auto.
Qed.



(** The pattern [a] selects the site named [ab], whose whole name it does
    not match, and neither [x] nor [b]; the pattern [a|x] selects [ab] and
    [x]. *)
Example EasyGuide_group_a_selects_ab :
  re_compile "a" = Some (Seq (Chr "a") Eps)
  /\ (exists g st', EasyGuide_group (lib := lib_real) "a" st3 = (Ok g, st')
                    /\ group_sites g = [site_ab])
  /\ ~ matches (Seq (Chr "a") Eps) (list_ascii_of_string "ab")
  /\ re_compile "a|x" = Some (Alt (Seq (Chr "a") Eps) (Seq (Chr "x") Eps))
  /\ (exists g st', EasyGuide_group (lib := lib_real) "a|x" st3 = (Ok g, st')
                    /\ group_sites g = [site_ab; site_x]).
Proof.
  split; [reflexivity|]. split; [|split; [|split; [reflexivity|]]].
  - eexists _, _. split; [vm_compute; reflexivity|]. reflexivity.
  - rewrite <- full_match_spec. vm_compute. discriminate.
  - eexists _, _. split; [vm_compute; reflexivity|]. reflexivity.
Qed.

(** ** Row-major indexing *)

Lemma ravel_lt (s idx : list nat) (off : nat) :
  ravel s idx = Some off -> off < numel s.
Proof.
  revert idx off. induction s as [|n s IH]; intros [|i idx] off; simpl; try discriminate.
  - intros [= <-]. lia.
  - destruct (decide (i < n)); [|discriminate].
    destruct (ravel s idx) as [r|] eqn:Hr; [|discriminate].
    intros [= <-]. specialize (IH idx r Hr). nia.
Qed.

Lemma ravel_length (s idx : list nat) (off : nat) :
  ravel s idx = Some off -> length idx = length s.
Proof.
  revert idx off. induction s as [|n s IH]; intros [|i idx] off; simpl; try discriminate.
  - reflexivity.
  - destruct (decide (i < n)); [|discriminate].
    destruct (ravel s idx) as [r|] eqn:Hr; [|discriminate].
    intros _. f_equal. eapply IH, Hr.
Qed.

Lemma ravel_app (s1 s2 i1 i2 : list nat) (a b : nat) :
  ravel s1 i1 = Some a -> ravel s2 i2 = Some b ->
  ravel (s1 ++ s2) (i1 ++ i2) = Some (a * numel s2 + b).
Proof.
  revert i1 a. induction s1 as [|n s1 IH]; intros [|i i1] a; simpl; try discriminate.
  - intros [= <-] ->. reflexivity.
  - destruct (decide (i < n)); [|discriminate].
    destruct (ravel s1 i1) as [r|] eqn:Hr; [|discriminate].
    intros [= <-] Hb. rewrite (IH i1 r Hr Hb), numel_app. f_equal. lia.
Qed.

Lemma ravel_app_inv (s1 s2 idx : list nat) (off : nat) :
  ravel (s1 ++ s2) idx = Some off ->
  exists i1 i2 a b,
    idx = i1 ++ i2 /\ length i1 = length s1
    /\ ravel s1 i1 = Some a /\ ravel s2 i2 = Some b
    /\ off = a * numel s2 + b.
Proof.
  revert idx off. induction s1 as [|n s1 IH]; intros idx off; simpl.
  - intros H. exists [], idx, 0, off. repeat split; auto.
  - destruct idx as [|i idx]; [discriminate|].
    destruct (decide (i < n)) as [Hi|]; [|discriminate].
    destruct (ravel (s1 ++ s2) idx) as [r|] eqn:Hr; [|discriminate].
    intros [= <-].
    destruct (IH idx r Hr) as (i1 & i2 & a & b & -> & Hlen & Ha & Hb & ->).
    exists (i :: i1), i2, (i * numel s1 + a), b. simpl.
    rewrite decide_True by exact Hi. rewrite Ha, numel_app.
    repeat split; auto. lia.
Qed.

(** ** Blocks of equal length *)

Lemma length_flat_map_uniform {A B} (f : A -> list B) (l : list A) (m : nat) :
  (forall x, x ∈ l -> length (f x) = m) ->
  length (flat_map f l) = length l * m.
Proof.
  induction l as [|x l IH]; intros Hlen; simpl; [reflexivity|].
  rewrite length_app, Hlen by left. rewrite IH; [lia|].
  intros y Hy. apply Hlen. right. exact Hy.
Qed.

Lemma lookup_flat_map_uniform {A B} (f : A -> list B) (l : list A) (m a b : nat) :
  (forall x, x ∈ l -> length (f x) = m) ->
  b < m ->
  flat_map f l !! (a * m + b) = l !! a ≫= (fun x => f x !! b).
Proof.
  revert a. induction l as [|x l IH]; intros a Hlen Hb; simpl.
  - rewrite !lookup_nil. reflexivity.
  - destruct a as [|a]; simpl.
    + rewrite lookup_app_l by (rewrite Hlen by left; lia). reflexivity.
    + rewrite lookup_app_r by (rewrite Hlen by left; lia).
      rewrite Hlen by left.
      replace (m + a * m + b - m) with (a * m + b) by lia.
      apply IH; [|exact Hb]. intros y Hy. apply Hlen. right. exact Hy.
Qed.

(** The elements of an [index_select] result, block by block: [o] counts
    the leading positions, [j] the position along the selected dimension
    and [c] the trailing positions. *)
Lemma index_select_data_lookup (dat : list Z) (outer n inner : nat) (ind : list Z)
    (o j c : nat) (i : Z) :
  length dat = outer * (n * inner) ->
  (forall i', i' ∈ ind -> (0 <= i' < Z.of_nat n)%Z) ->
  o < outer -> ind !! j = Some i -> c < inner ->
  flat_map (fun o' =>
      flat_map (fun i' => take inner (drop ((o' * n + Z.to_nat i') * inner) dat)) ind)
    (seq 0 outer) !! ((o * length ind + j) * inner + c)
  = dat !! ((o * n + Z.to_nat i) * inner + c).
Proof.
  intros Hdat Hind Ho Hj Hc.
  assert (forall o' i', o' < outer -> i' ∈ ind ->
            length (take inner (drop ((o' * n + Z.to_nat i') * inner) dat)) = inner) as Hblk.
  { intros o' i' Ho' Hi'. specialize (Hind i' Hi').
    rewrite length_take, length_drop, Hdat.
    assert (Z.to_nat i' < n) as Hk by lia.
    assert (o' * n + Z.to_nat i' + 1 <= outer * n) as Hrow by nia.
    assert ((o' * n + Z.to_nat i') * inner + inner <= outer * (n * inner)) by nia.
    lia. }
  assert (j < length ind) as Hjlt by (eapply lookup_lt_Some; exact Hj).
  replace ((o * length ind + j) * inner + c)
    with (o * (length ind * inner) + (j * inner + c)) by lia.
  rewrite (lookup_flat_map_uniform _ _ (length ind * inner)).
  - rewrite lookup_seq_lt by exact Ho. simpl.
    rewrite (lookup_flat_map_uniform _ _ inner).
    + rewrite Hj. simpl. rewrite lookup_take_lt by exact Hc.
      rewrite lookup_drop. reflexivity.
    + intros i' Hi'. apply Hblk; assumption.
    + exact Hc.
  - intros o' Ho'. apply elem_of_seq in Ho'.
    apply length_flat_map_uniform. intros i' Hi'. apply Hblk; [lia | exact Hi'].
  - nia.
Qed.

Lemma index_select_data_length (dat : list Z) (outer n inner : nat) (ind : list Z) :
  length dat = outer * (n * inner) ->
  (forall i', i' ∈ ind -> (0 <= i' < Z.of_nat n)%Z) ->
  length (flat_map (fun o' =>
      flat_map (fun i' => take inner (drop ((o' * n + Z.to_nat i') * inner) dat)) ind)
    (seq 0 outer)) = outer * (length ind * inner).
Proof.
  intros Hdat Hind.
  rewrite (length_flat_map_uniform _ _ (length ind * inner)).
  - rewrite length_seq. reflexivity.
  - intros o' Ho'. apply elem_of_seq in Ho'.
    apply length_flat_map_uniform. intros i' Hi'. specialize (Hind i' Hi').
    rewrite length_take, length_drop, Hdat.
    assert (Z.to_nat i' < n) as Hk by lia.
    assert (o' * n + Z.to_nat i' + 1 <= outer * n) as Hrow by nia.
    assert ((o' * n + Z.to_nat i') * inner + inner <= outer * (n * inner)) by nia.
    lia.
Qed.

(** Selecting never invents an element. *)
Lemma index_select_data_elem (dat : list Z) (outer n inner : nat) (ind : list Z) (z : Z) :
  z ∈ flat_map (fun o' =>
      flat_map (fun i' => take inner (drop ((o' * n + Z.to_nat i') * inner) dat)) ind)
    (seq 0 outer) ->
  z ∈ dat.
Proof.
  rewrite list_elem_of_In, in_flat_map. intros (o' & _ & Hz).
  apply in_flat_map in Hz as (i' & _ & Hz). apply list_elem_of_In in Hz.
  eapply subseteq_drop, subseteq_take, Hz.
Qed.

(** ** Repeating a seed to the full size of a plate *)

Lemma repeat_to_full_size_spec (p : plate) (fn : distribution) (v : tensor)
    (d ss size : nat) :
  tensor_wf v ->
  py_index (length (shape v)) (plate_dim p - event_dim fn) = Some d ->
  shape v !! d = Some ss ->
  0 < ss ->
  plate_subsample_size p = Z.of_nat ss ->
  plate_size p = Z.of_nat size ->
  exists v',
    repeat_to_full_size p fn v = Ok v'
    /\ shape v' = <[d := size]> (shape v)
    /\ tensor_wf v'
    /\ requires_grad v' = requires_grad v
    /\ (forall z, z ∈ data v' -> z ∈ data v)
    /\ forall idx i,
         idx !! d = Some i -> is_Some (ravel (shape v') idx) ->
         tensor_get v' idx = tensor_get v (<[d := i mod ss]> idx).
Proof.
  intros Hwf Hd Hss Hpos Hsub Hsize.
  assert (d < length (shape v)) as Hdlt by (eapply lookup_lt_Some; exact Hss).
  pose proof (take_drop_middle (shape v) d ss Hss) as Hsplit.
  set (pre := take d (shape v)) in *. set (post := drop (S d) (shape v)) in *.
  assert (length (data v) = numel pre * (ss * numel post)) as Hdat.
  { unfold tensor_wf in Hwf. rewrite Hwf, <- Hsplit, numel_app. reflexivity. }
  unfold repeat_to_full_size, tensor_size. rewrite Hd, Hss. simpl.
  rewrite decide_True by lia.
  unfold arange. rewrite decide_False by lia. simpl.
  unfold remainder. rewrite decide_False by lia. simpl.
  unfold index_select. rewrite Hd, Hss. fold pre post.
  set (ind := (fun i => i mod plate_subsample_size p)%Z <$> seqZ 0 (plate_size p)).
  assert (forall i', i' ∈ ind -> (0 <= i' < Z.of_nat ss)%Z) as Hind.
  { intros i' Hi'. apply list_elem_of_fmap in Hi' as (k & -> & _).
    rewrite Hsub. apply Z.mod_pos_bound. lia. }
  assert (indices_in_range ss ind = true) as ->.
  { apply forallb_forall. intros x Hx. apply bool_decide_eq_true, Hind.
    apply list_elem_of_In. exact Hx. }
  assert (length ind = size) as Hlen.
  { unfold ind. rewrite length_fmap, length_seqZ, Hsize. apply Nat2Z.id. }
  eexists. split; [reflexivity|]. simpl. rewrite Hlen.
  split; [|split; [|split; [reflexivity|split]]].
  - rewrite insert_take_drop by exact Hdlt. reflexivity.
  - unfold tensor_wf. simpl.
    rewrite (index_select_data_length _ _ ss _ _ Hdat Hind), Hlen, numel_app.
    reflexivity.
  - intros z. apply index_select_data_elem.
  - intros idx i Hi [off Hoff].
    apply ravel_app_inv in Hoff as (i1 & i2 & a & b & -> & Hl1 & Ha & Hb & ->).
    assert (length i1 = d) as Hl1d.
    { rewrite Hl1. unfold pre. rewrite length_take. lia. }
    destruct i2 as [|i0 ipost]; [discriminate|]. simpl in Hb.
    destruct (decide (i0 < size)) as [Hi0|]; [|discriminate].
    destruct (ravel post ipost) as [c|] eqn:Hc; [|discriminate].
    injection Hb as <-.
    assert (i = i0) as ->.
    { rewrite <- Hl1d in Hi. rewrite list_lookup_middle in Hi by reflexivity. congruence. }
    rewrite insert_app_r_alt by lia. rewrite Hl1d, Nat.sub_diag. simpl.
    pose proof (ravel_lt _ _ _ Ha) as Halt. pose proof (ravel_lt _ _ _ Hc) as Hclt.
    assert (i0 mod ss < ss) as Hmod by (apply Nat.mod_upper_bound; lia).
    assert (ravel (shape v) (i1 ++ i0 mod ss :: ipost)
            = Some (a * numel (ss :: post) + (i0 mod ss * numel post + c))) as Hget.
    { rewrite <- Hsplit. apply ravel_app; [exact Ha|].
      simpl. rewrite decide_True by exact Hmod. rewrite Hc. reflexivity. }
    unfold tensor_get. simpl.
    rewrite (ravel_app pre (size :: post) i1 (i0 :: ipost) a (i0 * numel post + c) Ha).
    2:{ simpl. rewrite decide_True by exact Hi0. rewrite Hc. reflexivity. }
    rewrite Hget. simpl.
    replace (a * (size * numel post) + (i0 * numel post + c))
      with ((a * length ind + i0) * numel post + c) by (rewrite Hlen; lia).
    rewrite (index_select_data_lookup (data v) (numel pre) ss (numel post) ind a i0 c
               (Z.of_nat i0 mod Z.of_nat ss)%Z Hdat Hind Halt).
    + rewrite <- Nat2Z.inj_mod, Nat2Z.id. f_equal. lia.
    + unfold ind. rewrite list_lookup_fmap, lookup_seqZ_lt by lia. simpl.
      rewrite Hsub. f_equal.
    + exact Hclt.
Qed.

(** ** [map_estimate] and the parameter store *)

Lemma repeat_to_full_size_elems (p : plate) (fn : distribution) (v v' : tensor) :
  repeat_to_full_size p fn v = Ok v' ->
  requires_grad v' = requires_grad v /\ forall z, z ∈ data v' -> z ∈ data v.
Proof.
  unfold repeat_to_full_size.
  destruct (tensor_size v (plate_dim p - event_dim fn)) as [n|]; simpl; [|discriminate].
  destruct (decide (Z.of_nat n = plate_subsample_size p)); [|discriminate].
  destruct (arange (plate_size p)) as [ind|]; simpl; [|discriminate].
  destruct (remainder ind (plate_subsample_size p)) as [ind'|]; simpl; [|discriminate].
  unfold index_select.
  destruct (py_index (length (shape v)) (plate_dim p - event_dim fn)) as [d|]; [|discriminate].
  destruct (shape v !! d) as [m|]; [|discriminate].
  destruct (indices_in_range m ind'); [|discriminate].
  intros [= <-]. simpl. split; [reflexivity|].
  intros z. apply index_select_data_elem.
Qed.

Section ParamStore.
Context {lib : Substrate}.
Variable pyro_plate : string -> plate_args -> plate_attrs.

Lemma EasyGuide_plate_param_store (name : string) (a : plate_args) (st : state) :
  param_store (snd (EasyGuide_plate pyro_plate name a st)) = param_store st.
Proof. unfold EasyGuide_plate. destruct (plates st !! name); reflexivity. Qed.

Lemma map_estimate_frame_inv (fn : distribution) (init : option tensor) (f : frame)
    (st : state) :
  param_store (snd (map_estimate_frame pyro_plate fn init f st)) = param_store st
  /\ match fst (map_estimate_frame pyro_plate fn init f st), init with
     | Ok out, None => out = None
     | Ok out, Some v =>
         exists v', out = Some v' /\ requires_grad v' = requires_grad v
                    /\ forall z, z ∈ data v' -> z ∈ data v
     | Raise _, _ => True
     end.
Proof.
  unfold map_estimate_frame, bind.
  pose proof (EasyGuide_plate_param_store (frame_name f) no_args st) as Hps.
  destruct (EasyGuide_plate_ok pyro_plate (frame_name f) no_args st) as (p & st1 & Hrun).
  rewrite Hrun in Hps |- *. simpl in Hps.
  destruct (negb (is_active p st1)); simpl.
  - split; [exact Hps|]. destruct init as [v|]; eauto.
  - destruct init as [v|]; [|split; [exact Hps | reflexivity]].
    destruct (decide (plate_subsample_size p < plate_size p)%Z).
    + destruct (repeat_to_full_size p fn v) as [v'|e] eqn:Hrep; simpl.
      * split; [exact Hps|]. apply repeat_to_full_size_elems in Hrep.
        exists v'. tauto.
      * split; [exact Hps | exact I].
    + simpl. split; [exact Hps|]. eauto.
Qed.

Lemma map_estimate_frames_inv (fn : distribution) (fs : list frame)
    (init : option tensor) (st : state) :
  param_store (snd (map_estimate_frames pyro_plate fn init fs st)) = param_store st
  /\ match fst (map_estimate_frames pyro_plate fn init fs st), init with
     | Ok out, None => out = None
     | Ok out, Some v =>
         exists v', out = Some v' /\ requires_grad v' = requires_grad v
                    /\ forall z, z ∈ data v' -> z ∈ data v
     | Raise _, _ => True
     end.
Proof.
  revert init st. induction fs as [|f fs IH]; intros init st; simpl.
  - split; [reflexivity|]. destruct init as [v|]; eauto.
  - unfold bind.
    destruct (map_estimate_frame_inv fn init f st) as [Hps Hout].
    destruct (map_estimate_frame pyro_plate fn init f st) as [[out|e] st1];
      simpl in Hps, Hout.
    + destruct (IH out st1) as [Hps' Hout']. split; [congruence|].
      destruct (map_estimate_frames pyro_plate fn out fs st1) as [[out'|e] st2];
        simpl in *; [|destruct init; exact I].
      destruct init as [v|].
      * destruct Hout as (v1 & -> & Hg1 & He1).
        destruct Hout' as (v2 & -> & Hg2 & He2).
        exists v2. split; [reflexivity|]. split; [congruence|]. auto.
      * subst out. exact Hout'.
    + simpl. split; [exact Hps|]. destruct init; exact I.
Qed.

(** [map_estimate] with the catalog and the site at hand, step by step:
    the loop over the frames, then the parameter, then the Delta sample,
    and the handler stack put back whatever happened. *)
Lemma EasyGuide_map_estimate_unfold (name : string) (tr : list site) (site : site)
    (st : state) :
  prototype_trace st = Some tr ->
  trace_node tr name = Ok site ->
  EasyGuide_map_estimate pyro_plate name st
  = let fn := site_fn site in
    let pn := param_name_of name in
    let init := match param_store st !! pn with
                | None => Some (detach (site_value site))
                | Some _ => None
                end in
    match map_estimate_frames pyro_plate fn init (site_cond_indep_stack site) st with
    | (Raise e, st1) => (Raise e, set_PYRO_STACK (PYRO_STACK st) st1)
    | (Ok out, st1) =>
        match param_store st1 !! pn with
        | Some w =>
            (Ok (sample_delta name (param_value pn (event_dim fn) w st1) None
                   (event_dim fn) st1),
             set_PYRO_STACK (PYRO_STACK st) st1)
        | None =>
            match out with
            | Some seed =>
                let w := param_init (support fn) (event_dim fn) seed in
                let st2 := set_param_store (<[pn := w]> (param_store st1)) st1 in
                (Ok (sample_delta name (param_value pn (event_dim fn) w st2) None
                       (event_dim fn) st2),
                 set_PYRO_STACK (PYRO_STACK st) st2)
            | None => (Raise ValueError, set_PYRO_STACK (PYRO_STACK st) st1)
            end
        end
    end.
Proof.
  intros Htr Hnode. unfold EasyGuide_map_estimate. rewrite Htr, Hnode.
  unfold with_ExitStack, bind. cbv zeta.
  destruct (map_estimate_frames pyro_plate (site_fn site) _ (site_cond_indep_stack site) st)
    as [[out|e] st1]; [|reflexivity].
  unfold pyro_param, pyro_sample_delta.
  destruct (param_store st1 !! param_name_of name) as [w|]; [reflexivity|].
  destruct out as [seed|]; reflexivity.
Qed.

(** The state [map_estimate] leaves behind, whatever its outcome, is the
    state the loop over some frames left behind, with the handler stack
    put back and the parameter store changed at most under
    ["auto_" + name]. *)
Lemma EasyGuide_map_estimate_state (name : string) (st : state) :
  exists fn init fs store',
    snd (EasyGuide_map_estimate pyro_plate name st)
    = set_PYRO_STACK (PYRO_STACK st)
        (set_param_store store' (snd (map_estimate_frames pyro_plate fn init fs st)))
    /\ forall k, k <> param_name_of name -> store' !! k = param_store st !! k.
Proof.
  assert (exists fn init store',
            st = set_PYRO_STACK (PYRO_STACK st)
                   (set_param_store store' (snd (map_estimate_frames pyro_plate fn init [] st)))
            /\ forall k, k <> param_name_of name -> store' !! k = param_store st !! k)
    as (fn0 & init0 & store0 & Hsame & Hstore0).
  { exists {| batch_shape := []; event_shape := []; support := real |}, None, (param_store st).
    split; [destruct st; reflexivity | reflexivity]. }
  destruct (prototype_trace st) as [tr|] eqn:Htr.
  2:{ exists fn0, init0, [], store0. split; [|exact Hstore0].
      unfold EasyGuide_map_estimate. rewrite Htr. exact Hsame. }
  destruct (trace_node tr name) as [site|e] eqn:Hnode.
  2:{ exists fn0, init0, [], store0. split; [|exact Hstore0].
      unfold EasyGuide_map_estimate. rewrite Htr, Hnode. exact Hsame. }
  rewrite (EasyGuide_map_estimate_unfold name tr site st Htr Hnode). cbv zeta.
  match goal with |- context [map_estimate_frames pyro_plate ?fn ?i ?fs st] =>
    destruct (map_estimate_frames_inv fn fs i st) as [Hps _];
    exists fn, i, fs;
    destruct (map_estimate_frames pyro_plate fn i fs st) as [[out|e] st1]
  end; simpl in Hps |- *.
  - destruct (param_store st1 !! param_name_of name) as [w|] eqn:Hw.
    + exists (param_store st1). split; [destruct st1; reflexivity|].
      intros k _. rewrite Hps. reflexivity.
    + destruct out as [seed|].
      * eexists. split; [reflexivity|]. intros k Hk.
        rewrite lookup_insert_ne by congruence. rewrite Hps. reflexivity.
      * exists (param_store st1). split; [destruct st1; reflexivity|].
        intros k _. rewrite Hps. reflexivity.
  - exists (param_store st1). split; [destruct st1; reflexivity|].
    intros k _. rewrite Hps. reflexivity.
Qed.
End ParamStore.

(** ** Within one invocation the registry only grows *)

Section RegistryGrows.
Context {lib : Substrate}.
Variable pyro_plate : string -> plate_args -> plate_attrs.

Lemma EasyGuide_plate_kept (name : string) (a : plate_args) (st : state) :
  plates_kept st (snd (EasyGuide_plate pyro_plate name a st)).
Proof.
  unfold EasyGuide_plate. intros n p Hp.
  destruct (plates st !! name) eqn:Hname; simpl; [exact Hp|].
  rewrite lookup_insert_ne by congruence. exact Hp.
Qed.

Lemma EasyGuide_group_kept (pattern : string) (st : state) :
  plates_kept st (snd (EasyGuide_group pattern st)).
Proof.
  unfold EasyGuide_group. intros n p Hp.
  destruct (groups st !! pattern); [exact Hp|].
  destruct (prototype_trace st); [|exact Hp].
  destruct (select_sites _ _) as [[|s sites]|]; try exact Hp.
  destruct (Group_init _ _); exact Hp.
Qed.

Lemma map_estimate_frames_kept (fn : distribution) (fs : list frame)
    (init : option tensor) (st : state) :
  plates_kept st (snd (map_estimate_frames pyro_plate fn init fs st)).
Proof.
  revert init st. induction fs as [|f fs IH]; intros init st n p Hp; simpl; [exact Hp|].
  unfold bind at 1.
  assert (plates_kept st (snd (map_estimate_frame pyro_plate fn init f st))) as Hstep.
  { unfold map_estimate_frame, bind. intros n' p' Hp'.
    pose proof (EasyGuide_plate_kept (frame_name f) no_args st n' p' Hp') as Hk.
    destruct (EasyGuide_plate pyro_plate (frame_name f) no_args st) as [[q|e] st1];
      simpl in Hk |- *; [|exact Hk].
    destruct (negb (is_active q st1)); simpl; [exact Hk|].
    destruct init as [v|]; [|exact Hk].
    destruct (decide _); [|exact Hk].
    destruct (repeat_to_full_size q fn v); exact Hk. }
  specialize (Hstep n p Hp).
  destruct (map_estimate_frame pyro_plate fn init f st) as [[out|e] st1]; simpl in Hstep.
  - apply IH. exact Hstep.
  - exact Hstep.
Qed.

Lemma EasyGuide_map_estimate_kept (name : string) (st : state) :
  plates_kept st (snd (EasyGuide_map_estimate pyro_plate name st)).
Proof.
  destruct (EasyGuide_map_estimate_state pyro_plate name st)
    as (fn & init & fs & store' & -> & _).
  intros n p Hp. simpl. apply (map_estimate_frames_kept fn fs init st n p Hp).
Qed.
End RegistryGrows.


(** * Further properties of the module *)

(** ** Catalog construction: when it succeeds and what it registers *)

Lemma setup_frames_run (fs : list frame) (st : state) :
  Forall (fun f => frame_vectorized f = true) fs ->
  setup_frames fs st
  = (Ok tt, set_frames (foldl (fun m f => <[frame_name f := f]> m) (frames st) fs) st).
Proof.
  revert st. induction fs as [|f fs IH]; intros st Hall; simpl.
  - destruct st. reflexivity.
  - apply Forall_cons in Hall as [Hf Hall]. rewrite Hf.
    unfold bind, modify. rewrite IH by exact Hall. reflexivity.
Qed.

Lemma setup_sites_run (sites : list site) (st : state) :
  Forall (fun f => frame_vectorized f = true) (flat_map site_cond_indep_stack sites) ->
  setup_sites sites st
  = (Ok tt, set_frames (foldl (fun m f => <[frame_name f := f]> m) (frames st)
                          (flat_map site_cond_indep_stack sites)) st).
Proof.
  revert st. induction sites as [|s sites IH]; intros st Hall; simpl.
  - destruct st. reflexivity.
  - simpl in Hall. apply Forall_app in Hall as [Hs Hall].
    unfold bind. rewrite setup_frames_run by exact Hs.
    rewrite IH by exact Hall. rewrite foldl_app. reflexivity.
Qed.

Lemma register_frames_lookup (fs : list frame) (m : gmap string frame) (name : string) :
  foldl (fun m f => <[frame_name f := f]> m) m fs !! name
  = match last_frame_named name fs with
    | Some f => Some f
    | None => m !! name
    end.
Proof.
  unfold last_frame_named. revert m. induction fs as [|f fs IH]; intros m; simpl.
  - reflexivity.
  - rewrite IH. destruct (bool_decide (frame_name f = name)) eqn:Hname.
    + apply bool_decide_eq_true in Hname.
      destruct (List.filter _ fs) as [|f' l]; simpl.
      * rewrite <- Hname. apply lookup_insert_eq.
      * destruct (last (f' :: l)) eqn:Hlast; [reflexivity|].
        apply last_None in Hlast. discriminate.
    + apply bool_decide_eq_false in Hname.
      destruct (last (List.filter _ fs)); [reflexivity|].
      apply lookup_insert_ne. exact Hname.
Qed.

Lemma setup_prototype_ok_vectorized (model_trace : list site) (st : state) :
  fst (EasyGuide_setup_prototype model_trace st) = Ok tt ->
  Forall (fun f => frame_vectorized f = true) (trace_frames model_trace).
Proof.
  unfold EasyGuide_setup_prototype, bind, modify, trace_frames.
  intros Hok. apply Forall_forall. intros f Hf.
  destruct (frame_vectorized f) eqn:Hv; [reflexivity|].
  apply list_elem_of_In, in_flat_map in Hf as (s & Hs & Hf).
  rewrite (setup_sites_sequential _ s f _) in Hok; try discriminate.
  - apply list_elem_of_In. exact Hs.
  - apply list_elem_of_In. exact Hf.
  - exact Hv.
Qed.

(** X1.  [_setup_prototype] returns normally exactly when every frame of
    every stochastic node of the trace is vectorized; frames of nodes that
    are not stochastic are not looked at. *)
Theorem EasyGuide_setup_prototype_ok_iff (model_trace : list site) (st : state) :
  fst (EasyGuide_setup_prototype model_trace st) = Ok tt
  <-> Forall (fun f => frame_vectorized f = true) (trace_frames model_trace).
Proof.
  split; [apply setup_prototype_ok_vectorized|].
  intros Hall. unfold EasyGuide_setup_prototype, bind, modify.
  unfold trace_frames in Hall. rewrite setup_sites_run by exact Hall. reflexivity.
Qed.



(** Two plates called [data], of sizes 10 and 7: the registry keeps the
    one of size 7, which the later site carries. *)
Example EasyGuide_setup_prototype_last_wins :
  frames (snd (EasyGuide_setup_prototype [site_obs; site_x; site_x7] (EasyGuide_init ∅ 0)))
    !! "data" = Some frame_data7.
Proof. vm_compute. reflexivity. Qed.

(** ** [Group.__init__]: shared frames, outcome and declared size *)

(** X3.  The frames of a group are exactly the vectorized frames that
    every member site carries, each listed once. *)
Theorem Group_init_frames_common (oid : nat) (sites : list site) (g : Group) :
  Group_init oid sites = Ok g ->
  NoDup (group_frames g)
  /\ forall f, f ∈ group_frames g <->
       forall s, s ∈ sites -> f ∈ site_cond_indep_stack s /\ frame_vectorized f = true.
Proof.
  unfold Group_init. destruct sites as [|s0 rest]; [discriminate|].
  destruct (event_shape_loop _ _ _) as [n|]; simpl; [|discriminate].
  intros [= <-]. simpl.
  assert (forall f s, f ∈ vectorized_frames s <->
            f ∈ site_cond_indep_stack s /\ frame_vectorized f = true) as Hvec.
  { intros f s. unfold vectorized_frames. rewrite !list_elem_of_In, filter_In. reflexivity. }
  split.
  - apply NoDup_ListNoDup, List.NoDup_filter, NoDup_ListNoDup, NoDup_remove_dups.
  - intros f. rewrite list_elem_of_In, filter_In, <- list_elem_of_In, elem_of_remove_dups.
    rewrite forallb_forall. split.
    + intros [H0 Hall] s Hs. apply Hvec.
      apply elem_of_cons in Hs as [-> | Hs]; [exact H0|].
      apply list_elem_of_In in Hs. apply Hall in Hs.
      apply bool_decide_eq_true in Hs. exact Hs.
    + intros Hall. split.
      * apply Hvec, Hall. left.
      * intros s Hs. apply bool_decide_eq_true, Hvec, Hall. right.
        apply list_elem_of_In. exact Hs.
Qed.

Lemma Group_init_frames_common_witness :
  NoDup (group_frames group_x)
  /\ forall f, f ∈ group_frames group_x <->
       forall s, s ∈ [site_x] -> f ∈ site_cond_indep_stack s /\ frame_vectorized f = true.
Proof.
  apply (Group_init_frames_common 0 [site_x] group_x). reflexivity.
Defined.

Lemma collapse_frames_raises (fs : list frame) (b : list nat) :
  ~ Forall (fun f => is_Some (py_index (length b) (frame_dim f))) fs ->
  collapse_frames fs b = Raise IndexError.
Proof.
  revert b. induction fs as [|f fs IH]; intros b Hbad; simpl.
  - exfalso. apply Hbad. constructor.
  - unfold list_setitem.
    destruct (py_index (length b) (frame_dim f)) as [k|] eqn:Hk; simpl; [|reflexivity].
    apply IH. rewrite length_insert. intros Hall. apply Hbad.
    constructor; [rewrite Hk; eauto | exact Hall].
Qed.

Lemma event_shape_loop_raises (fs : list frame) (sites : list site) (acc : nat) :
  ~ Forall (fun s =>
      Forall (fun f => is_Some (py_index (length (batch_shape (site_fn s))) (frame_dim f))) fs)
    sites ->
  event_shape_loop fs sites acc = Raise IndexError.
Proof.
  revert acc. induction sites as [|s sites IH]; intros acc Hbad; simpl.
  - exfalso. apply Hbad. constructor.
  - unfold site_flat_size.
    destruct (decide (Forall (fun f =>
                is_Some (py_index (length (batch_shape (site_fn s))) (frame_dim f))) fs))
      as [Hs|Hs].
    + destruct (collapse_frames_ok fs _ Hs) as (b & -> & _). simpl.
      apply IH. intros Hall. apply Hbad. constructor; assumption.
    + rewrite (collapse_frames_raises fs _ Hs). reflexivity.
Qed.

Lemma event_shape_loop_total (fs : list frame) (sites : list site) (acc : nat) :
  Forall (fun s =>
      Forall (fun f => is_Some (py_index (length (batch_shape (site_fn s))) (frame_dim f))) fs)
    sites ->
  exists n, event_shape_loop fs sites acc = Ok n.
Proof.
  revert acc. induction sites as [|s sites IH]; intros acc Hall; simpl.
  - eauto.
  - apply Forall_cons in Hall as [Hs Hall]. unfold site_flat_size.
    destruct (collapse_frames_ok fs _ Hs) as (b & -> & _). simpl. apply IH, Hall.
Qed.

(** X4.  [Group.__init__] fails its assertion on an empty list.  On a
    non-empty list it builds the group when every shared frame indexes the
    batch shape of every member, and raises [IndexError] otherwise; no
    other exception leaves it. *)
Theorem Group_init_outcome (oid : nat) (sites : list site) :
  match sites with
  | [] => Group_init oid sites = Raise AssertionError
  | _ :: _ =>
      (shared_dims_ok sites ->
         exists g, Group_init oid sites = Ok g
                   /\ group_oid g = oid /\ group_sites g = sites)
      /\ (~ shared_dims_ok sites -> Group_init oid sites = Raise IndexError)
  end.
Proof.
  destruct sites as [|s0 rest]; [reflexivity|]. unfold shared_dims_ok, Group_init. split.
  - intros Hok.
    destruct (event_shape_loop_total _ _ 0 Hok) as (n & ->). simpl.
    eexists. repeat split.
  - intros Hbad. rewrite (event_shape_loop_raises _ _ 0 Hbad). reflexivity.
Qed.

(** A site recorded inside the plate [data] whose distribution was not
    broadcast over it: the shared frame points at a batch dimension the
    site does not have, and the constructor raises [IndexError]. *)
Example Group_init_index_error :
  Group_init 0 [{| site_name := "u"; site_stochastic := true;
                   site_fn := {| batch_shape := []; event_shape := []; support := real |};
                   site_value := zeros [];
                   site_cond_indep_stack := [frame_data] |}]
  = Raise IndexError.
Proof. reflexivity. Qed.

Lemma event_shape_loop_sum (sites : list site) (acc : nat) :
  event_shape_loop [] sites acc
  = Ok (acc + sum_list_with
                (fun s => numel (batch_shape (site_fn s) ++ event_shape (site_fn s))) sites).
Proof.
  revert acc. induction sites as [|s sites IH]; intros acc; simpl.
  - f_equal. lia.
  - unfold site_flat_size. simpl. rewrite IH, numel_app. f_equal. lia.
Qed.

(** X5.  When the member sites share no frame, the declared size of the
    group is the total number of elements of the members, batch
    dimensions included. *)
Theorem Group_init_no_common_frames (oid : nat) (sites : list site) :
  sites <> [] ->
  common_frames sites = [] ->
  exists g,
    Group_init oid sites = Ok g
    /\ group_frames g = []
    /\ group_event_shape g
       = [sum_list_with
            (fun s => numel (batch_shape (site_fn s) ++ event_shape (site_fn s))) sites].
Proof.
  intros Hne Hnone. unfold Group_init. destruct sites as [|s0 rest]; [congruence|].
  rewrite Hnone, event_shape_loop_sum. simpl. eexists. repeat split.
Qed.

Lemma Group_init_no_common_frames_witness :
  exists g,
    Group_init 0 [site_x; site_b] = Ok g
    /\ group_frames g = []
    /\ group_event_shape g
       = [sum_list_with
            (fun s => numel (batch_shape (site_fn s) ++ event_shape (site_fn s)))
            [site_x; site_b]].
Proof.
  apply (Group_init_no_common_frames 0 [site_x; site_b]).
  - discriminate.
  - reflexivity.
Defined.

Lemma collapse_frames_ones (fs : list frame) (b b' : list nat) :
  collapse_frames fs b = Ok b' ->
  (forall k n, b !! k = Some n ->
     n = 1 \/ exists f, f ∈ fs /\ py_index (length b) (frame_dim f) = Some k) ->
  Forall (fun n => n = 1) b'.
Proof.
  revert b. induction fs as [|f fs IH]; intros b; simpl.
  - intros [= <-] Hcov. apply Forall_lookup. intros k n Hk.
    destruct (Hcov k n Hk) as [-> | (f & Hf & _)]; [reflexivity | inversion Hf].
  - unfold list_setitem.
    destruct (py_index (length b) (frame_dim f)) as [k0|] eqn:Hk0; simpl; [|discriminate].
    intros Hrun Hcov. apply (IH _ Hrun). intros k n Hk. rewrite length_insert.
    destruct (decide (k = k0)) as [->|Hne].
    + left. apply lookup_lt_Some in Hk as Hlt. rewrite length_insert in Hlt.
      rewrite list_lookup_insert_eq in Hk by exact Hlt. congruence.
    + rewrite list_lookup_insert_ne in Hk by congruence.
      destruct (Hcov k n Hk) as [-> | (f' & Hf' & Hidx)]; [left; reflexivity|].
      apply elem_of_cons in Hf' as [-> | Hf']; [congruence|].
      right. exists f'. split; assumption.
Qed.

Lemma numel_ones (b : list nat) : Forall (fun n => n = 1) b -> numel b = 1.
Proof.
  induction 1 as [|n b Hn _ IH]; simpl; [reflexivity|]. rewrite Hn, IH. reflexivity.
Qed.

(** X6.  When every batch dimension of every member either has size 1 or
    is the dimension of a shared frame, the declared size of the group is
    the sum of the spans that the loop of [Group.sample] consumes. *)
Theorem Group_init_declared_size_is_consumed (oid : nat) (sites : list site) :
  sites <> [] ->
  shared_dims_ok sites ->
  (forall s k n, s ∈ sites -> batch_shape (site_fn s) !! k = Some n ->
     n = 1 \/ exists f, f ∈ common_frames sites
                 /\ py_index (length (batch_shape (site_fn s))) (frame_dim f) = Some k) ->
  exists g,
    Group_init oid sites = Ok g /\ group_event_shape g = [consumed sites].
Proof.
  intros Hne Hok Hcov. unfold Group_init. destruct sites as [|s0 rest]; [congruence|].
  rewrite (event_shape_loop_unit_batch (common_frames (s0 :: rest)) (s0 :: rest) 0).
  - simpl. eexists. split; reflexivity.
  - intros s Hs. unfold shared_dims_ok in Hok. rewrite Forall_forall in Hok.
    destruct (collapse_frames_ok _ _ (Hok s Hs)) as (b & Hb & _).
    exists b. split; [exact Hb|]. apply numel_ones.
    apply (collapse_frames_ones _ _ _ Hb). intros k n Hk. eapply Hcov; eassumption.
Qed.

Lemma Group_init_declared_size_is_consumed_witness :
  exists g,
    Group_init 0 [site_ab; site_x] = Ok g
    /\ group_event_shape g = [consumed [site_ab; site_x]].
Proof.
  apply (Group_init_declared_size_is_consumed 0 [site_ab; site_x]).
  - discriminate.
  - unfold shared_dims_ok. simpl.
    repeat (apply Forall_cons; split); try apply Forall_nil; eexists; reflexivity.
  - intros s k n Hs Hk. right. exists frame_data. split; [simpl; left|].
    apply elem_of_cons in Hs as [-> | Hs].
    + destruct k as [|k]; [reflexivity | destruct k; discriminate].
    + apply elem_of_cons in Hs as [-> | Hs]; [|inversion Hs].
      destruct k as [|k]; [reflexivity | destruct k; discriminate].
Defined.

(** ** [EasyGuide.group]: effect, errors and what gets selected *)

(** X7.  [group] is atomic on failure: when it raises, the state is the
    one it started from.  When it returns a group, that group is cached
    under the pattern, every other cache entry is as before, and the
    catalog, the frames, the plate registry, the parameter store and the
    handler stack are untouched. *)
Theorem EasyGuide_group_effect {lib : Substrate} (pattern : string) (st : state) :
  match EasyGuide_group pattern st with
  | (Raise _, st') => st' = st
  | (Ok g, st') =>
      groups st' !! pattern = Some g
      /\ (forall q, q <> pattern -> groups st' !! q = groups st !! q)
      /\ prototype_trace st' = prototype_trace st /\ frames st' = frames st
      /\ plates st' = plates st /\ param_store st' = param_store st
      /\ PYRO_STACK st' = PYRO_STACK st
  end.
Proof.
  unfold EasyGuide_group.
  destruct (groups st !! pattern) as [g|] eqn:Hlook.
  { repeat split; auto. }
  destruct (prototype_trace st) as [tr|] eqn:Htr; [|reflexivity].
  destruct (select_sites pattern (iter_stochastic_nodes tr)) as [[|s sites]|e];
    try reflexivity.
  destruct (Group_init (next_oid st) (s :: sites)) as [g|e]; [|reflexivity].
  simpl. split; [apply lookup_insert_eq|]. split; [|repeat split; auto].
  intros q Hq. apply lookup_insert_ne. congruence.
Qed.

(** X8.  Before the catalog exists no pattern can be served: [group]
    raises [AttributeError] (the catalog is still [None]) and changes
    nothing. *)
Theorem EasyGuide_group_before_catalog {lib : Substrate} (pattern : string) (st : state) :
  groups_wf st ->
  prototype_trace st = None ->
  EasyGuide_group pattern st = (Raise AttributeError, st).
Proof.
  intros Hwf Hnone. unfold EasyGuide_group.
  destruct (groups st !! pattern) as [g|] eqn:Hlook.
  - destruct (groups_selected st Hwf pattern g Hlook) as (tr & Htr & _). congruence.
  - rewrite Hnone. reflexivity.
Qed.

Lemma EasyGuide_group_before_catalog_witness :
  EasyGuide_group (lib := lib_real) "x" (EasyGuide_init ∅ 0)
  = (Raise AttributeError, EasyGuide_init ∅ 0).
Proof.
  apply (EasyGuide_group_before_catalog (lib := lib_real) "x" (EasyGuide_init ∅ 0)).
  - apply groups_wf_empty. reflexivity.
  - reflexivity.
Defined.

Lemma filter_all_true {A} (f : A -> bool) (l : list A) :
  (forall x, f x = true) -> List.filter f l = l.
Proof.
  intros Hf. induction l as [|x l IH]; simpl; [reflexivity|]. rewrite Hf, IH. reflexivity.
Qed.

(** X9.  With the default pattern [".*"], [group] selects every stochastic
    site of the catalog, in catalog order; on a catalog without stochastic
    sites it raises [ValueError]. *)
Theorem EasyGuide_group_default_selects_all {lib : Substrate} (tr : list site) (st : state) :
  groups_wf st ->
  prototype_trace st = Some tr ->
  Forall site_wf (iter_stochastic_nodes tr) ->
  (iter_stochastic_nodes tr <> [] ->
     exists g st', EasyGuide_group_default st = (Ok g, st')
                   /\ group_sites g = iter_stochastic_nodes tr)
  /\ (iter_stochastic_nodes tr = [] ->
        EasyGuide_group_default st = (Raise ValueError, st)).
Proof.
  intros Hwf Htr Hsites.
  assert (select_sites ".*" (iter_stochastic_nodes tr) = Ok (iter_stochastic_nodes tr)) as Hsel.
  { rewrite (select_sites_filter ".*" (Seq (Star Any) Eps)) by reflexivity.
    rewrite filter_all_true; [reflexivity|]. intros s.
    destruct (list_ascii_of_string (site_name s)); reflexivity. }
  unfold EasyGuide_group_default. split.
  - intros Hne.
    destruct (EasyGuide_group_total ".*" tr _ st Hwf Htr Hsites Hsel Hne)
      as (g & st' & Hrun & Hgs & _).
    eauto.
  - intros Hnil. rewrite Hnil in Hsel at 2. unfold EasyGuide_group.
    rewrite (groups_wf_uncached ".*" tr st Hwf Htr Hsel), Htr, Hsel. reflexivity.
Qed.

Lemma EasyGuide_group_default_selects_all_witness :
  (iter_stochastic_nodes catalog3 <> [] ->
     exists g st', EasyGuide_group_default (lib := lib_real) st3 = (Ok g, st')
                   /\ group_sites g = iter_stochastic_nodes catalog3)
  /\ (iter_stochastic_nodes catalog3 = [] ->
        EasyGuide_group_default (lib := lib_real) st3 = (Raise ValueError, st3)).
Proof.
  apply (EasyGuide_group_default_selects_all (lib := lib_real) catalog3 st3).
  - apply groups_wf_empty. reflexivity.
  - reflexivity.
  - exact catalog3_wf.
Defined.

Lemma select_sites_is_sublist {lib : Substrate} (pattern : string) (nodes sel : list site) :
  select_sites pattern nodes = Ok sel -> sublist sel nodes.
Proof.
  revert sel. induction nodes as [|s nodes IH]; intros sel; simpl.
  - intros [= <-]. constructor.
  - destruct (re_match pattern (site_name s)) as [b|e]; simpl; [|discriminate].
    destruct (select_sites pattern nodes) as [sel'|e]; simpl; [|discriminate].
    intros [= <-]. destruct b; constructor; auto.
Qed.

Lemma iter_stochastic_nodes_sublist (tr : list site) :
  sublist (iter_stochastic_nodes tr) tr.
Proof.
  unfold iter_stochastic_nodes. induction tr as [|s tr IH]; simpl; [constructor|].
  destruct (site_stochastic s); constructor; exact IH.
Qed.

(** X10.  The sites of a group that [group] returns are stochastic sites of
    the catalog, listed in catalog order without repetition of positions
    (a sublist of the trace), and there is at least one. *)
Theorem EasyGuide_group_sites_from_catalog {lib : Substrate} (pattern : string) (tr : list site)
    (g : Group) (st st' : state) :
  groups_wf st ->
  prototype_trace st = Some tr ->
  EasyGuide_group pattern st = (Ok g, st') ->
  sublist (group_sites g) tr
  /\ Forall (fun s => site_stochastic s = true) (group_sites g)
  /\ group_sites g <> [].
Proof.
  intros Hwf Htr Hrun.
  destruct (EasyGuide_group_selected pattern tr g st st' Hwf Htr Hrun) as [Hsel Hne].
  apply select_sites_is_sublist in Hsel as Hsub.
  split; [|split; [|exact Hne]].
  - etransitivity; [exact Hsub | apply iter_stochastic_nodes_sublist].
  - apply Forall_forall. intros s Hs.
    apply (sublist_subseteq _ _ Hsub) in Hs.
    unfold iter_stochastic_nodes in Hs.
    apply list_elem_of_In, filter_In in Hs as [_ Hs]. exact Hs.
Qed.

Lemma EasyGuide_group_sites_from_catalog_witness :
  sublist (group_sites group_x) catalog3
  /\ Forall (fun s => site_stochastic s = true) (group_sites group_x)
  /\ group_sites group_x <> [].
Proof.
  apply (EasyGuide_group_sites_from_catalog (lib := lib_real) "x" catalog3 group_x st3
           (set_next_oid 1 (set_groups {[ "x" := group_x ]} st3))).
  - apply groups_wf_empty. reflexivity.
  - reflexivity.
  - vm_compute. reflexivity.
Defined.

(** ** [Group.sample]: which packed elements each site receives *)

Lemma shape_last_split (sh : list nat) (n : nat) :
  last sh = Some n -> sh = shape_init sh ++ [n].
Proof.
  intros H. apply last_Some in H as (l & ->). unfold shape_init.
  rewrite length_app. simpl.
  replace (length l + 1 - 1) with (length l) by lia.
  rewrite take_app_length. reflexivity.
Qed.

Lemma slice_rows_lookup (dat : list Z) (rows n lo w r k : nat) :
  length dat = rows * n -> lo + w <= n -> r < rows -> k < w ->
  flat_map (fun r' => take w (drop (r' * n + lo) dat)) (seq 0 rows) !! (r * w + k)
  = dat !! (r * n + lo + k).
Proof.
  intros Hdat Hfit Hr Hk.
  rewrite (lookup_flat_map_uniform _ _ w).
  - rewrite lookup_seq_lt by exact Hr. simpl.
    rewrite lookup_take_lt by exact Hk. rewrite lookup_drop. reflexivity.
  - intros r' Hr'. apply elem_of_seq in Hr'.
    rewrite length_take, length_drop, Hdat.
    assert (r' * n + n <= rows * n) by nia. lia.
  - exact Hk.
Qed.

Lemma slice_rows_length (dat : list Z) (rows n lo w : nat) :
  length dat = rows * n -> lo + w <= n ->
  length (flat_map (fun r' => take w (drop (r' * n + lo) dat)) (seq 0 rows)) = rows * w.
Proof.
  intros Hdat Hfit. rewrite (length_flat_map_uniform _ _ w).
  - rewrite length_seq. reflexivity.
  - intros r' Hr'. apply elem_of_seq in Hr'.
    rewrite length_take, length_drop, Hdat.
    assert (r' * n + n <= rows * n) by nia. lia.
Qed.

(** One step of the loop, element by element. *)
Lemma unpack_site_get (guide_z : tensor) (n pos : nat) (s : site) :
  tensor_wf guide_z ->
  last (shape guide_z) = Some n ->
  pos + span_size s <= n ->
  exists t,
    unpack_site guide_z pos s = Ok t
    /\ shape t = shape_init (shape guide_z) ++ event_shape (site_fn s)
    /\ tensor_wf t
    /\ forall bidx eidx e,
         is_Some (ravel (shape_init (shape guide_z)) bidx) ->
         ravel (event_shape (site_fn s)) eidx = Some e ->
         tensor_get t (bidx ++ eidx) = tensor_get guide_z (bidx ++ [pos + e]).
Proof.
  intros Hwf Hlast Hfit.
  pose proof (shape_last_split _ _ Hlast) as Hsplit.
  set (batch := shape_init (shape guide_z)) in *.
  assert (length (data guide_z) = numel batch * n) as Hdat.
  { unfold tensor_wf in Hwf. rewrite Hwf, Hsplit, numel_app, numel_singleton. reflexivity. }
  unfold unpack_site, slice_last. rewrite Hlast. simpl. fold batch.
  rewrite (Nat.min_l pos n) by lia. rewrite (Nat.min_l (pos + span_size s) n) by lia.
  replace (pos + span_size s - pos) with (span_size s) by lia.
  unfold reshape. simpl. rewrite !numel_app, numel_singleton.
  unfold span_size at 1. rewrite decide_True by reflexivity.
  eexists. split; [reflexivity|]. simpl. split; [reflexivity|]. split.
  - unfold tensor_wf. simpl.
    rewrite (slice_rows_length _ _ n pos _ Hdat) by lia.
    rewrite numel_app. reflexivity.
  - intros bidx eidx e [r Hr] He. unfold tensor_get. simpl.
    pose proof (ravel_lt _ _ _ Hr) as Hrlt. pose proof (ravel_lt _ _ _ He) as Helt.
    rewrite (ravel_app _ _ _ _ _ _ Hr He).
    rewrite Hsplit at 1.
    rewrite (ravel_app batch [n] bidx [pos + e] r (pos + e) Hr).
    2:{ simpl. unfold span_size in Hfit. rewrite decide_True by lia. f_equal. lia. }
    rewrite numel_singleton.
    rewrite (slice_rows_lookup _ _ n pos _ r e Hdat) by (unfold span_size in *; lia).
    f_equal. lia.
Qed.


Section SampleLoop.
Context {lib : Substrate}.
Variable pyro_plate : string -> plate_args -> plate_attrs.

(** X11.  [Group.sample] cuts the packed sample into contiguous spans, one
    per member site in the order of the member list: when it returns on a
    packed sample that covers the spans, the tensor handed to the support
    transform of a site, whose replayed Delta sample is the value returned
    for the site, holds at element [e] of the flattened event, at a batch
    index, the packed element at that batch index and trailing position
    [start + e], where [start] is where the spans of the sites before it
    end. *)
Theorem Group_sample_elements (g : Group) (guide_z : tensor) (n : nat)
    (model_zs : gmap string tensor) (st st' : state) :
  tensor_wf guide_z ->
  last (shape guide_z) = Some n ->
  consumed (group_sites g) <= n ->
  NoDup (site_name <$> group_sites g) ->
  Group_sample pyro_plate g guide_z st = (Ok (guide_z, model_zs), st') ->
  forall pre s post, group_sites g = pre ++ s :: post ->
    exists u zl st_in,
      unpack_site guide_z (consumed pre) s = Ok u
      /\ constrain (site_fn s) u = Ok zl
      /\ fst zl = biject_to (support (site_fn s)) u
      /\ model_zs !! site_name s
         = Some (sample_delta (site_name s) (fst zl) (Some (snd zl))
                   (event_dim (site_fn s)) st_in)
      /\ forall bidx eidx e,
           is_Some (ravel (shape_init (shape guide_z)) bidx) ->
           ravel (event_shape (site_fn s)) eidx = Some e ->
           tensor_get u (bidx ++ eidx)
           = tensor_get guide_z (bidx ++ [consumed pre + e]).
Proof.
  intros Hwf Hlast Hle Hnd Hrun pre s post Heq.
  apply Group_sample_Ok in Hrun as [_ Hloop].
  destruct (sample_loop_entries pyro_plate guide_z (group_sites g) Hnd 0 ∅ model_zs st st'
              Hloop) as [Hin _].
  destruct (Hin pre s post Heq) as (u & zl & st_in & Hu & Hzl & Hz). simpl in Hu.
  assert (fst zl = biject_to (support (site_fn s)) u) as Hfst.
  { revert Hzl. unfold constrain. destruct (sum_rightmost _ _); [|discriminate].
    intros [= <-]. reflexivity. }
  exists u, zl, st_in. repeat (split; [assumption|]).
  destruct (unpack_site_get guide_z n (consumed pre) s Hwf Hlast) as (t' & Ht' & _ & _ & Hget).
  - rewrite Heq, consumed_app, consumed_cons in Hle. lia.
  - assert (t' = u) as -> by congruence. exact Hget.
Qed.
End SampleLoop.

Lemma Group_sample_elements_witness :
  Group_sample (lib := lib_real) plate_of_args group_abx guide_z_abx st3
  = (Ok (guide_z_abx, zs_abx),
     snd (Group_sample (lib := lib_real) plate_of_args group_abx guide_z_abx st3))
  /\ forall pre s post, group_sites group_abx = pre ++ s :: post ->
    exists u zl st_in,
      unpack_site guide_z_abx (consumed pre) s = Ok u
      /\ constrain (lib := lib_real) (site_fn s) u = Ok zl
      /\ fst zl = biject_to (Substrate := lib_real) (support (site_fn s)) u
      /\ zs_abx !! site_name s
         = Some (sample_delta (Substrate := lib_real) (site_name s) (fst zl) (Some (snd zl))
                   (event_dim (site_fn s)) st_in)
      /\ forall bidx eidx e,
           is_Some (ravel (shape_init (shape guide_z_abx)) bidx) ->
           ravel (event_shape (site_fn s)) eidx = Some e ->
           tensor_get u (bidx ++ eidx)
           = tensor_get guide_z_abx (bidx ++ [consumed pre + e]).
Proof.
  split; [vm_compute; reflexivity|].
  apply (Group_sample_elements (lib := lib_real) plate_of_args group_abx guide_z_abx 3
           zs_abx st3
           (snd (Group_sample (lib := lib_real) plate_of_args group_abx guide_z_abx st3))).
  - reflexivity.
  - reflexivity.
  - vm_compute. lia.
  - simpl. apply NoDup_cons. split; [|apply NoDup_singleton].
    intros H. apply list_elem_of_singleton in H. discriminate.
  - vm_compute. reflexivity.
Defined.

(** On the packed rows [[1, 2, 3]] and [[4, 5, 6]] the site [ab] (event
    size 2) receives the columns 0 and 1 and the site [x] the column 2. *)
Example Group_sample_abx :
  exists zs st',
    Group_sample (lib := lib_real) plate_of_args group_abx guide_z_abx st3
    = (Ok (guide_z_abx, zs), st')
    /\ data <$> zs !! "ab" = Some [1; 2; 4; 5]%Z
    /\ data <$> zs !! "x" = Some [3; 6]%Z.
Proof.
  eexists _, _. split; [vm_compute; reflexivity|]. split; vm_compute; reflexivity.
Qed.

(** A packed sample without batch elements: the reshape of the log
    density in [sum_rightmost] is refused, and [Group.sample] raises. *)
Example Group_sample_empty_batch :
  fst (Group_sample (lib := lib_real) plate_of_args group_abx
         {| shape := [0; 3]; data := []; requires_grad := true |} st3)
  = Raise RuntimeError.
Proof. vm_compute. reflexivity. Qed.

Example Group_init_abx : Group_init 0 [site_ab; site_x] = Ok group_abx.
Proof. reflexivity. Qed.

(** ** [Group.sample]: a packed sample that is too short *)

Lemma unpack_site_overflow (guide_z : tensor) (n pos : nat) (s : site) :
  last (shape guide_z) = Some n ->
  numel (shape_init (shape guide_z)) <> 0 ->
  pos <= n -> n < pos + span_size s ->
  unpack_site guide_z pos s = Raise RuntimeError.
Proof.
  intros Hlast Hrows Hpos Hover. unfold unpack_site, slice_last. rewrite Hlast. simpl.
  unfold reshape. simpl. rewrite !numel_app, numel_singleton.
  rewrite (Nat.min_l pos n) by lia. rewrite (Nat.min_r (pos + span_size s) n) by lia.
  unfold span_size in *. rewrite decide_False; [reflexivity|]. nia.
Qed.

Lemma constrain_raise {lib : Substrate} (fn : distribution) (u : tensor) (e : exn) :
  constrain fn u = Raise e -> e = RuntimeError.
Proof.
  unfold constrain. destruct (sum_rightmost _ _); [discriminate|].
  intros [= <-]. reflexivity.
Qed.

Section SampleErrors.
Context {lib : Substrate}.
Variable pyro_plate : string -> plate_args -> plate_attrs.

Lemma sample_loop_too_short (guide_z : tensor) (n : nat) (sites : list site) :
  last (shape guide_z) = Some n ->
  numel (shape_init (shape guide_z)) <> 0 ->
  forall (pos : nat) (acc : gmap string tensor) (st : state),
    pos <= n -> n < pos + consumed sites ->
    fst (sample_loop pyro_plate guide_z pos sites acc st) = Raise RuntimeError.
Proof.
  intros Hlast Hrows. induction sites as [|s sites IH]; intros pos acc st Hpos Hover.
  - unfold consumed in Hover. simpl in Hover. lia.
  - rewrite consumed_cons in Hover. rewrite sample_loop_cons.
    destruct (decide (pos + span_size s <= n)) as [Hfit|Hfit].
    + destruct (unpack_site_shape guide_z n pos s Hlast Hfit) as (t & -> & _).
      destruct (constrain (site_fn s) t) as [zl|e] eqn:Hzl.
      * cbv zeta. apply IH; lia.
      * apply constrain_raise in Hzl as ->. reflexivity.
    + rewrite (unpack_site_overflow guide_z n pos s Hlast Hrows) by lia. reflexivity.
Qed.

(** X12.  A packed sample whose trailing dimension is shorter than the
    spans of the member sites add up to makes [Group.sample] raise
    [RuntimeError] (the reshape of the first span that does not fit),
    provided the sample has at least one batch element. *)
Theorem Group_sample_too_short (g : Group) (guide_z : tensor) (n : nat) (st : state) :
  last (shape guide_z) = Some n ->
  numel (shape_init (shape guide_z)) <> 0 ->
  n < consumed (group_sites g) ->
  fst (Group_sample pyro_plate g guide_z st) = Raise RuntimeError.
Proof.
  intros Hlast Hrows Hshort.
  assert (fst (sample_loop pyro_plate guide_z 0 (group_sites g) ∅ st) = Raise RuntimeError)
    as H by (apply (sample_loop_too_short guide_z n); [assumption | assumption | lia | lia]).
  unfold Group_sample, bind.
  destruct (sample_loop pyro_plate guide_z 0 (group_sites g) ∅ st) as [[zs|e] st'];
    simpl in H |- *.
  - discriminate.
  - injection H as ->. reflexivity.
Qed.
End SampleErrors.

Lemma Group_sample_too_short_witness :
  fst (Group_sample (lib := lib_real) plate_of_args group_abx guide_z_sub st3)
  = Raise RuntimeError.
Proof.
  apply (Group_sample_too_short (lib := lib_real) plate_of_args group_abx guide_z_sub 1 st3).
  - reflexivity.
  - vm_compute. lia.
  - vm_compute. lia.
Defined.

(** ** [Group.sample]: what it leaves alone and what it registers *)

Lemma instance_kept_refl (st : state) : instance_kept st st.
Proof. unfold instance_kept, plates_kept. repeat split; auto. Qed.

Lemma instance_kept_trans (st1 st2 st3 : state) :
  instance_kept st1 st2 -> instance_kept st2 st3 -> instance_kept st1 st3.
Proof.
  unfold instance_kept, plates_kept.
  intros (H1 & H2 & H3 & H4 & H5 & H6) (K1 & K2 & K3 & K4 & K5 & K6).
  repeat split; try congruence; [auto | lia].
Qed.

Lemma instance_kept_stack (st st' : state) (v : list nat) :
  instance_kept st st' -> instance_kept st (set_PYRO_STACK v st').
Proof. unfold instance_kept, plates_kept. simpl. tauto. Qed.

Section SampleFrame.
Context {lib : Substrate}.
Variable pyro_plate : string -> plate_args -> plate_attrs.

Lemma EasyGuide_plate_instance_kept (name : string) (a : plate_args) (st : state) :
  instance_kept st (snd (EasyGuide_plate pyro_plate name a st))
  /\ PYRO_STACK (snd (EasyGuide_plate pyro_plate name a st)) = PYRO_STACK st
  /\ is_Some (plates (snd (EasyGuide_plate pyro_plate name a st)) !! name).
Proof.
  unfold EasyGuide_plate. destruct (plates st !! name) as [p|] eqn:Hp; simpl.
  - split; [apply instance_kept_refl|]. split; [reflexivity|]. rewrite Hp. eauto.
  - split; [|split; [reflexivity|]].
    + unfold instance_kept, plates_kept. simpl. repeat split; try lia.
      intros n q Hq. rewrite lookup_insert_ne by congruence. exact Hq.
    + rewrite lookup_insert_eq. eauto.
Qed.

Lemma enter_frames_step (f : frame) (fs : list frame) (st : state) :
  exists st2,
    enter_frames pyro_plate (f :: fs) st = enter_frames pyro_plate fs st2
    /\ instance_kept st st2
    /\ is_Some (plates st2 !! frame_name f).
Proof.
  destruct (EasyGuide_plate_instance_kept (frame_name f) no_args st) as (Hk & _ & Hreg).
  destruct (EasyGuide_plate_ok pyro_plate (frame_name f) no_args st) as (p & st1 & Hrun).
  rewrite Hrun in Hk, Hreg. simpl in Hk, Hreg.
  simpl. unfold bind. rewrite Hrun.
  destruct (negb (is_active p st1)); simpl.
  - eexists. split; [reflexivity|]. split; [|exact Hreg].
    apply instance_kept_stack. exact Hk.
  - eexists. split; [reflexivity|]. split; assumption.
Qed.

Lemma enter_frames_instance_kept (fs : list frame) (st : state) :
  instance_kept st (snd (enter_frames pyro_plate fs st))
  /\ forall f, f ∈ fs -> is_Some (plates (snd (enter_frames pyro_plate fs st)) !! frame_name f).
Proof.
  revert st. induction fs as [|f fs IH]; intros st.
  - split; [apply instance_kept_refl|]. intros f Hf. inversion Hf.
  - destruct (enter_frames_step f fs st) as (st2 & -> & Hk & [q Hq]).
    destruct (IH st2) as [Hk3 Hreg3]. split.
    + eapply instance_kept_trans; eassumption.
    + intros f' Hf'. apply elem_of_cons in Hf' as [-> | Hf']; [|auto].
      destruct Hk3 as (_ & _ & _ & _ & Hp3 & _). exists q. apply Hp3, Hq.
Qed.

Lemma sample_loop_step (guide_z : tensor) (pos : nat) (s : site) (sites : list site)
    (acc : gmap string tensor) (st : state) (u : tensor) (zl : tensor * tensor) :
  unpack_site guide_z pos s = Ok u ->
  constrain (site_fn s) u = Ok zl ->
  exists st2 v,
    sample_loop pyro_plate guide_z pos (s :: sites) acc st
    = sample_loop pyro_plate guide_z (pos + span_size s) sites
        (<[site_name s := v]> acc) st2
    /\ instance_kept st st2
    /\ PYRO_STACK st2 = PYRO_STACK st
    /\ forall f, f ∈ site_cond_indep_stack s -> is_Some (plates st2 !! frame_name f).
Proof.
  intros Hu Hzl. rewrite sample_loop_cons, Hu, Hzl. cbv zeta.
  destruct (enter_frames_instance_kept (site_cond_indep_stack s) st) as [Hk Hreg].
  eexists _, _. split; [reflexivity|]. split; [apply instance_kept_stack; exact Hk|].
  split; [reflexivity|]. exact Hreg.
Qed.

Lemma sample_loop_instance_kept (guide_z : tensor) (sites : list site) :
  forall (pos : nat) (acc : gmap string tensor) (st : state),
    instance_kept st (snd (sample_loop pyro_plate guide_z pos sites acc st))
    /\ PYRO_STACK (snd (sample_loop pyro_plate guide_z pos sites acc st)) = PYRO_STACK st
    /\ match fst (sample_loop pyro_plate guide_z pos sites acc st) with
       | Ok zs =>
           dom zs = dom acc ∪ list_to_set (site_name <$> sites)
           /\ forall s f, s ∈ sites -> f ∈ site_cond_indep_stack s ->
                is_Some (plates (snd (sample_loop pyro_plate guide_z pos sites acc st))
                           !! frame_name f)
       | Raise _ => True
       end.
Proof.
  induction sites as [|s sites IH]; intros pos acc st.
  - simpl. split; [apply instance_kept_refl|]. split; [reflexivity|]. split.
    + rewrite union_empty_r_L. reflexivity.
    + intros s f Hs. inversion Hs.
  - destruct (unpack_site guide_z pos s) as [u|e] eqn:Hu.
    2:{ rewrite sample_loop_cons, Hu. simpl.
        split; [apply instance_kept_refl|]. split; [reflexivity | exact I]. }
    destruct (constrain (site_fn s) u) as [zl|e] eqn:Hzl.
    2:{ rewrite sample_loop_cons, Hu, Hzl. simpl.
        split; [apply instance_kept_refl|]. split; [reflexivity | exact I]. }
    destruct (sample_loop_step guide_z pos s sites acc st u zl Hu Hzl)
      as (st2 & v & -> & Hk2 & Hstack2 & Hreg).
    destruct (IH (pos + span_size s) (<[site_name s := v]> acc) st2) as (Hk' & Hstack & Hok).
    split; [eapply instance_kept_trans; eassumption|].
    split; [congruence|].
    destruct (sample_loop pyro_plate guide_z (pos + span_size s) sites
                (<[site_name s := v]> acc) st2) as [[zs|e] st3]; simpl in *; [|exact I].
    destruct Hok as [Hdom Hplates]. split.
    + rewrite Hdom, dom_insert_L. simpl.
      apply set_eq. intros x. rewrite !elem_of_union. tauto.
    + intros s' f Hs' Hf. apply elem_of_cons in Hs' as [-> | Hs']; [|eauto].
      destruct (Hreg f Hf) as [q Hq].
      destruct Hk' as (_ & _ & _ & _ & Hp & _). exists q. apply Hp. exact Hq.
Qed.

(** X13.  Whatever its outcome, [Group.sample] leaves the catalog, the
    frames, the group cache and the parameter store as they were, removes
    nothing from the plate registry, and leaves the handler stack as it
    found it: the plates it enters for a site are exited before the next
    site is handled. *)
Theorem Group_sample_frame (g : Group) (guide_z : tensor) (st : state) :
  instance_kept st (snd (Group_sample pyro_plate g guide_z st))
  /\ PYRO_STACK (snd (Group_sample pyro_plate g guide_z st)) = PYRO_STACK st.
Proof.
  destruct (sample_loop_instance_kept guide_z (group_sites g) 0 ∅ st) as (Hk & Hstack & _).
  unfold Group_sample, bind.
  destruct (sample_loop pyro_plate guide_z 0 (group_sites g) ∅ st) as [[zs|e] st'];
    simpl in *; auto.
Qed.

(** X14.  When [Group.sample] returns, the first component is the packed
    sample it was given, the keys of the returned dict are exactly the
    names of the member sites, and the plate registry has an entry for the
    name of every frame of every member site. *)
Theorem Group_sample_keys (g : Group) (guide_z z : tensor)
    (model_zs : gmap string tensor) (st st' : state) :
  Group_sample pyro_plate g guide_z st = (Ok (z, model_zs), st') ->
  z = guide_z
  /\ dom model_zs = list_to_set (site_name <$> group_sites g)
  /\ forall s f, s ∈ group_sites g -> f ∈ site_cond_indep_stack s ->
       is_Some (plates st' !! frame_name f).
Proof.
  destruct (sample_loop_instance_kept guide_z (group_sites g) 0 ∅ st) as (_ & _ & Hok).
  unfold Group_sample, bind.
  destruct (sample_loop pyro_plate guide_z 0 (group_sites g) ∅ st) as [[zs|e] st1];
    simpl in *; [|discriminate].
  intros [= <- <- <-]. destruct Hok as [Hdom Hplates].
  split; [reflexivity|]. split; [|exact Hplates].
  rewrite Hdom, dom_empty_L. apply union_empty_l_L.
Qed.
End SampleFrame.

Lemma Group_sample_keys_witness :
  guide_z_abx = guide_z_abx
  /\ dom zs_abx = list_to_set (site_name <$> group_sites group_abx)
  /\ forall s f, s ∈ group_sites group_abx -> f ∈ site_cond_indep_stack s ->
       is_Some (plates (snd (Group_sample (lib := lib_real) plate_of_args group_abx
                               guide_z_abx st3))
                  !! frame_name f).
Proof.
  apply (Group_sample_keys (lib := lib_real) plate_of_args group_abx guide_z_abx guide_z_abx
           zs_abx st3).
  vm_compute. reflexivity.
Defined.

(** ** Plates are entered at most once *)

Section EnterOnce.
Context {lib : Substrate}.
Variable pyro_plate : string -> plate_args -> plate_attrs.

Lemma enter_if_inactive_NoDup (p : plate) (st : state) :
  NoDup (PYRO_STACK st) ->
  NoDup (PYRO_STACK
           (snd ((if negb (is_active p st) then enter_context p st else ret tt st)
                 : result unit * state))).
Proof.
  intros Hnd. unfold is_active.
  destruct (bool_decide (plate_oid p ∈ PYRO_STACK st)) eqn:Hact; simpl; [exact Hnd|].
  apply bool_decide_eq_false in Hact.
  apply NoDup_app. split; [exact Hnd|]. split; [|apply NoDup_singleton].
  intros o Ho Ho'. apply list_elem_of_singleton in Ho'. subst o. contradiction.
Qed.

Lemma EasyGuide_plate_stack (name : string) (a : plate_args) (st : state) :
  PYRO_STACK (snd (EasyGuide_plate pyro_plate name a st)) = PYRO_STACK st.
Proof. unfold EasyGuide_plate. destruct (plates st !! name); reflexivity. Qed.

(** X15.  Neither the loop of [Group.sample] nor the loop of
    [map_estimate] enters a plate that is already active: a handler stack
    in which no object occurs twice is still such a stack after either
    loop, also when [map_estimate] stops on an error. *)
Theorem plates_entered_once (fn : distribution) (init : option tensor)
    (fs : list frame) (st : state) :
  NoDup (PYRO_STACK st) ->
  NoDup (PYRO_STACK (snd (enter_frames pyro_plate fs st)))
  /\ NoDup (PYRO_STACK (snd (map_estimate_frames pyro_plate fn init fs st))).
Proof.
  intros Hnd. split.
  - revert st Hnd. induction fs as [|f fs IH]; intros st Hnd; simpl; [exact Hnd|].
    unfold bind at 1.
    pose proof (EasyGuide_plate_stack (frame_name f) no_args st) as Hst.
    destruct (EasyGuide_plate_ok pyro_plate (frame_name f) no_args st) as (p & st1 & Hrun).
    rewrite Hrun in Hst |- *. simpl in Hst. unfold bind at 1.
    assert (NoDup (PYRO_STACK st1)) as Hnd1 by (rewrite Hst; exact Hnd).
    pose proof (enter_if_inactive_NoDup p st1 Hnd1) as Hstep.
    destruct (negb (is_active p st1)); simpl in Hstep |- *; apply IH; exact Hstep.
  - revert init st Hnd. induction fs as [|f fs IH]; intros init st Hnd; simpl; [exact Hnd|].
    unfold bind at 1.
    assert (NoDup (PYRO_STACK (snd (map_estimate_frame pyro_plate fn init f st)))) as Hstep.
    { unfold map_estimate_frame, bind.
      pose proof (EasyGuide_plate_stack (frame_name f) no_args st) as Hst.
      destruct (EasyGuide_plate_ok pyro_plate (frame_name f) no_args st) as (p & st1 & Hrun).
      rewrite Hrun in Hst |- *. simpl in Hst.
      assert (NoDup (PYRO_STACK st1)) as Hnd1 by (rewrite Hst; exact Hnd).
      pose proof (enter_if_inactive_NoDup p st1 Hnd1) as Hent.
      destruct (negb (is_active p st1)); simpl in Hent |- *; [exact Hent|].
      destruct init as [v|]; [|exact Hnd1].
      destruct (decide _); [|exact Hnd1].
      destruct (repeat_to_full_size p fn v); exact Hnd1. }
    destruct (map_estimate_frame pyro_plate fn init f st) as [[out|e] st1]; simpl in Hstep.
    + apply IH. exact Hstep.
    + exact Hstep.
Qed.
End EnterOnce.

Lemma plates_entered_once_witness :
  NoDup (PYRO_STACK (snd (enter_frames plate_of_args [frame_sub; frame_sub] st_sub)))
  /\ NoDup (PYRO_STACK (snd (map_estimate_frames plate_of_args (site_fn site_s) None
                               [frame_sub; frame_sub] st_sub))).
Proof.
  apply (plates_entered_once plate_of_args (site_fn site_s) None [frame_sub; frame_sub] st_sub).
  apply NoDup_singleton.
Defined.

(** ** [map_estimate]: what it leaves alone, and calling it again *)

Lemma set_PYRO_STACK_same (st : state) : set_PYRO_STACK (PYRO_STACK st) st = st.
Proof. destruct st. reflexivity. Qed.

Section MapEstimateAgain.
Context {lib : Substrate}.
Variable pyro_plate : string -> plate_args -> plate_attrs.

Lemma map_estimate_frame_facts (fn : distribution) (init : option tensor) (f : frame)
    (st : state) :
  instance_kept st (snd (map_estimate_frame pyro_plate fn init f st))
  /\ is_Some (plates (snd (map_estimate_frame pyro_plate fn init f st)) !! frame_name f).
Proof.
  unfold map_estimate_frame, bind.
  destruct (EasyGuide_plate_instance_kept pyro_plate (frame_name f) no_args st)
    as (Hk & _ & Hreg).
  destruct (EasyGuide_plate_ok pyro_plate (frame_name f) no_args st) as (p & st1 & Hrun).
  rewrite Hrun in Hk, Hreg |- *. simpl in Hk, Hreg.
  destruct (negb (is_active p st1)); simpl.
  - split; [apply instance_kept_stack; exact Hk | exact Hreg].
  - destruct init as [v|]; [|split; assumption].
    destruct (decide _); [|split; assumption].
    destruct (repeat_to_full_size p fn v); split; assumption.
Qed.

Lemma map_estimate_frames_facts (fn : distribution) (fs : list frame)
    (init : option tensor) (st : state) :
  instance_kept st (snd (map_estimate_frames pyro_plate fn init fs st))
  /\ match fst (map_estimate_frames pyro_plate fn init fs st) with
     | Ok _ => forall f, f ∈ fs ->
                 is_Some (plates (snd (map_estimate_frames pyro_plate fn init fs st))
                            !! frame_name f)
     | Raise _ => True
     end.
Proof.
  revert init st. induction fs as [|f fs IH]; intros init st; simpl.
  - split; [apply instance_kept_refl|]. intros f Hf. inversion Hf.
  - unfold bind.
    destruct (map_estimate_frame_facts fn init f st) as [Hk [q Hq]].
    destruct (map_estimate_frame pyro_plate fn init f st) as [[out|e] st1];
      simpl in Hk, Hq |- *; [|split; [exact Hk | exact I]].
    destruct (IH out st1) as [Hk' Hok]. split; [eapply instance_kept_trans; eassumption|].
    destruct (map_estimate_frames pyro_plate fn out fs st1) as [[out'|e] st2];
      simpl in *; [|exact I].
    intros f' Hf'. apply elem_of_cons in Hf' as [-> | Hf']; [|auto].
    destruct Hk' as (_ & _ & _ & _ & Hp & _). exists q. apply Hp, Hq.
Qed.

(** What one round of the loop does to the handler stack. *)
Lemma map_estimate_frame_stack (fn : distribution) (init out : option tensor) (f : frame)
    (st st1 : state) :
  map_estimate_frame pyro_plate fn init f st = (Ok out, st1) ->
  exists p,
    plates st1 !! frame_name f = Some p
    /\ PYRO_STACK st1
       = if bool_decide (plate_oid p ∈ PYRO_STACK st) then PYRO_STACK st
         else PYRO_STACK st ++ [plate_oid p].
Proof.
  unfold map_estimate_frame, bind.
  pose proof (EasyGuide_plate_stack pyro_plate (frame_name f) no_args st) as Hstack.
  destruct (EasyGuide_plate_ok pyro_plate (frame_name f) no_args st) as (p & st0 & Hrun).
  pose proof (EasyGuide_plate_registered pyro_plate _ _ _ _ _ Hrun) as Hreg.
  rewrite Hrun in Hstack |- *. simpl in Hstack.
  unfold is_active. rewrite Hstack.
  destruct (decide (plate_oid p ∈ PYRO_STACK st)) as [Hin|Hnin].
  - rewrite !bool_decide_eq_true_2 by exact Hin. simpl.
    intros Hout. exists p. rewrite bool_decide_eq_true_2 by exact Hin.
    assert (st1 = st0) as ->.
    { destruct init as [v|]; [|congruence].
      destruct (decide _); [|congruence].
      destruct (repeat_to_full_size p fn v); [congruence | discriminate]. }
    split; assumption.
  - rewrite !bool_decide_eq_false_2 by exact Hnin. simpl.
    unfold enter_context, modify, bind, ret. intros [= <- <-]. exists p. simpl.
    rewrite bool_decide_eq_false_2 by exact Hnin.
    rewrite Hstack. split; [exact Hreg | reflexivity].
Qed.

(** The handler stack after the loop is the one [enter_stack] computes
    from the registry the loop leaves behind. *)
Lemma map_estimate_frames_stack (fn : distribution) (fs : list frame) :
  forall (init out : option tensor) (st st' : state),
    map_estimate_frames pyro_plate fn init fs st = (Ok out, st') ->
    PYRO_STACK st' = enter_stack (plates st') fs (PYRO_STACK st).
Proof.
  induction fs as [|f fs IH]; intros init out st st'; simpl.
  - intros [= <- <-]. reflexivity.
  - unfold bind at 1.
    destruct (map_estimate_frame pyro_plate fn init f st) as [[o1|e] st1] eqn:Hstep;
      [|discriminate].
    intros Hrest.
    apply map_estimate_frame_stack in Hstep as (p & Hreg & Hstack).
    pose proof (map_estimate_frames_kept pyro_plate fn fs o1 st1 _ _ Hreg) as Hkept.
    rewrite Hrest in Hkept. simpl in Hkept.
    rewrite (IH _ _ _ _ Hrest), Hstack. unfold enter_stack. simpl. rewrite Hkept.
    reflexivity.
Qed.

(** With nothing to seed and every plate registered, the loop only
    touches the handler stack. *)
Lemma map_estimate_frames_registered_run (fn : distribution) (fs : list frame) (st : state) :
  (forall f, f ∈ fs -> is_Some (plates st !! frame_name f)) ->
  map_estimate_frames pyro_plate fn None fs st
  = (Ok None, set_PYRO_STACK (enter_stack (plates st) fs (PYRO_STACK st)) st).
Proof.
  revert st. induction fs as [|f fs IH]; intros st Hreg; simpl.
  - unfold enter_stack. simpl. rewrite set_PYRO_STACK_same. reflexivity.
  - destruct (Hreg f) as [p Hp]; [left|].
    unfold bind at 1. unfold map_estimate_frame, bind.
    rewrite (EasyGuide_plate_hit pyro_plate _ _ p st Hp).
    assert (forall f', f' ∈ fs -> is_Some (plates st !! frame_name f')) as Hreg'
      by (intros f' Hf'; apply Hreg; right; exact Hf').
    unfold enter_stack. simpl. rewrite Hp. unfold is_active.
    destruct (decide (plate_oid p ∈ PYRO_STACK st)) as [Hin|Hnin].
    + rewrite !bool_decide_eq_true_2 by exact Hin. simpl. apply IH, Hreg'.
    + rewrite !bool_decide_eq_false_2 by exact Hnin. simpl.
      rewrite (IH (set_PYRO_STACK (PYRO_STACK st ++ [plate_oid p]) st) Hreg').
      reflexivity.
Qed.

(** Calling [map_estimate] in a state that a call has just left: the
    parameter exists, the plates are registered, and the loop enters the
    same plates again. *)
Lemma EasyGuide_map_estimate_rerun (name : string) (tr : list site) (site : site)
    (sb : state) (w : tensor) (stack0 : list nat) :
  prototype_trace sb = Some tr ->
  trace_node tr name = Ok site ->
  param_store sb !! param_name_of name = Some w ->
  (forall f, f ∈ site_cond_indep_stack site -> is_Some (plates sb !! frame_name f)) ->
  PYRO_STACK sb = enter_stack (plates sb) (site_cond_indep_stack site) stack0 ->
  EasyGuide_map_estimate pyro_plate name (set_PYRO_STACK stack0 sb)
  = (Ok (sample_delta name
           (param_value (param_name_of name) (event_dim (site_fn site)) w sb) None
           (event_dim (site_fn site)) sb),
     set_PYRO_STACK stack0 sb).
Proof.
  intros Htr Hnode Hw Hreg Hstack.
  rewrite (EasyGuide_map_estimate_unfold pyro_plate name tr site) by assumption.
  cbv zeta. simpl param_store at 1. rewrite Hw.
  rewrite map_estimate_frames_registered_run by exact Hreg.
  simpl plates. simpl PYRO_STACK. rewrite <- Hstack.
  assert (set_PYRO_STACK (PYRO_STACK sb) (set_PYRO_STACK stack0 sb) = sb) as ->
    by (destruct sb; reflexivity).
  rewrite Hw. reflexivity.
Qed.

(** X16.  Whatever its outcome, [map_estimate(name)] leaves the catalog,
    the frames and the group cache as they were, removes nothing from the
    plate registry, leaves the handler stack as it found it, and changes
    the parameter store at no key other than ["auto_" + name]. *)
Theorem EasyGuide_map_estimate_frame_conditions (name : string) (st : state) :
  let st' := snd (EasyGuide_map_estimate pyro_plate name st) in
  prototype_trace st' = prototype_trace st
  /\ frames st' = frames st
  /\ groups st' = groups st
  /\ plates_kept st st'
  /\ PYRO_STACK st' = PYRO_STACK st
  /\ forall k, k <> param_name_of name -> param_store st' !! k = param_store st !! k.
Proof.
  simpl. unfold EasyGuide_map_estimate.
  destruct (prototype_trace st) as [tr|] eqn:Htr; simpl.
  2:{ unfold plates_kept. repeat split; auto. }
  destruct (trace_node tr name) as [site|e]; simpl.
  2:{ unfold plates_kept. repeat split; auto. }
  unfold with_ExitStack, bind.
  match goal with |- context [map_estimate_frames pyro_plate ?fn ?i ?fs st] =>
    destruct (map_estimate_frames_facts fn fs i st) as [(H1 & H2 & H3 & H4 & H5 & _) _];
    destruct (map_estimate_frames pyro_plate fn i fs st) as [[out|e] st1]
  end; simpl in *.
  - unfold pyro_param, ret.
    destruct (param_store st1 !! param_name_of name) as [v|]; simpl.
    + repeat split; auto; try congruence; intros k _; rewrite H4; reflexivity.
    + destruct out as [v|]; simpl.
      * repeat split; auto; try congruence; intros k Hk.
        rewrite lookup_insert_ne by congruence. rewrite H4. reflexivity.
      * repeat split; auto; try congruence; intros k _; rewrite H4; reflexivity.
  - repeat split; auto; try congruence; intros k _; rewrite H4; reflexivity.
Qed.

(** X17.  [map_estimate] is idempotent: after a call that returned a
    value, the same call returns the same value again and leaves the whole
    state as it is; no parameter is seeded a second time and no plate is
    built a second time. *)
Theorem EasyGuide_map_estimate_again (name : string) (v : tensor) (st st1 : state) :
  EasyGuide_map_estimate pyro_plate name st = (Ok v, st1) ->
  EasyGuide_map_estimate pyro_plate name st1 = (Ok v, st1).
Proof.
  intros Hrun.
  destruct (prototype_trace st) as [tr|] eqn:Htr.
  2:{ unfold EasyGuide_map_estimate in Hrun. rewrite Htr in Hrun. discriminate. }
  destruct (trace_node tr name) as [site|e] eqn:Hnode.
  2:{ unfold EasyGuide_map_estimate in Hrun. rewrite Htr, Hnode in Hrun. discriminate. }
  rewrite (EasyGuide_map_estimate_unfold pyro_plate name tr site st Htr Hnode) in Hrun.
  cbv zeta in Hrun.
  match type of Hrun with context [map_estimate_frames pyro_plate ?fn ?i ?fs st] =>
    destruct (map_estimate_frames_facts fn fs i st) as [(H1 & H2 & H3 & H4 & H5 & H6) Hreg];
    pose proof (map_estimate_frames_stack fn fs i) as Hstack;
    destruct (map_estimate_frames pyro_plate fn i fs st) as [[out|e] st0] eqn:Hloop
  end; simpl in H1, H4, Hreg; [|discriminate].
  specialize (Hstack out st st0 Hloop).
  destruct (param_store st0 !! param_name_of name) as [w|] eqn:Hw.
  - injection Hrun as <- <-.
    apply (EasyGuide_map_estimate_rerun name tr site st0 w (PYRO_STACK st));
      try assumption. congruence.
  - destruct out as [seed|]; [|discriminate].
    injection Hrun as <- <-.
    apply (EasyGuide_map_estimate_rerun name tr site
             (set_param_store
                (<[param_name_of name :=
                     param_init (support (site_fn site)) (event_dim (site_fn site)) seed]>
                   (param_store st0)) st0)
             _ (PYRO_STACK st)); simpl; try assumption.
    + congruence.
    + apply lookup_insert_eq.
Qed.
End MapEstimateAgain.

Lemma EasyGuide_map_estimate_again_witness :
  exists v st1,
    EasyGuide_map_estimate (lib := lib_real) plate_of_args "b" st3 = (Ok v, st1)
    /\ EasyGuide_map_estimate (lib := lib_real) plate_of_args "b" st1 = (Ok v, st1).
Proof.
  eexists _, _. split; [vm_compute; reflexivity|].
  apply (EasyGuide_map_estimate_again (lib := lib_real) plate_of_args "b" _ st3).
  vm_compute. reflexivity.
Defined.

(** ** [map_estimate]: errors *)

Lemma trace_node_missing (tr : list site) (name : string) :
  name ∉ (site_name <$> tr) -> trace_node tr name = Raise KeyError.
Proof.
  intros Hnot. unfold trace_node.
  destruct (List.find _ tr) as [s|] eqn:Hfind; [|reflexivity].
  apply find_some in Hfind as [Hin Hname]. apply bool_decide_eq_true in Hname.
  exfalso. apply Hnot. rewrite <- Hname. apply list_elem_of_fmap.
  exists s. split; [reflexivity|]. apply list_elem_of_In. exact Hin.
Qed.

Section MapEstimateErrors.
Context {lib : Substrate}.
Variable pyro_plate : string -> plate_args -> plate_attrs.

(** X19.  [map_estimate] on a name that no node of the catalog carries
    raises [KeyError], and before the catalog exists it raises
    [AttributeError]; in both cases nothing is changed: no parameter is
    created and no plate is built. *)
Theorem EasyGuide_map_estimate_unknown (name : string) (st : state) :
  match prototype_trace st with
  | None => EasyGuide_map_estimate pyro_plate name st = (Raise AttributeError, st)
  | Some tr =>
      name ∉ (site_name <$> tr) ->
      EasyGuide_map_estimate pyro_plate name st = (Raise KeyError, st)
  end.
Proof.
  unfold EasyGuide_map_estimate.
  destruct (prototype_trace st) as [tr|]; [|reflexivity].
  intros Hnot. rewrite (trace_node_missing tr name Hnot). reflexivity.
Qed.

(** X20.  When the parameter does not exist yet, the plate of the site's
    first frame is registered, active and subsampled, and the value
    recorded for the site does not have subsample-size length along the
    plate dimension, [map_estimate] fails its assertion: it raises
    [AssertionError], seeds nothing and leaves the state as it was. *)
Theorem EasyGuide_map_estimate_assertion (name : string) (tr : list site) (site : site)
    (f : frame) (rest : list frame) (p : plate) (n : nat) (st : state) :
  prototype_trace st = Some tr ->
  trace_node tr name = Ok site ->
  param_store st !! param_name_of name = None ->
  site_cond_indep_stack site = f :: rest ->
  plates st !! frame_name f = Some p ->
  plate_oid p ∈ PYRO_STACK st ->
  (plate_subsample_size p < plate_size p)%Z ->
  tensor_size (site_value site) (plate_dim p - event_dim (site_fn site)) = Ok n ->
  Z.of_nat n <> plate_subsample_size p ->
  EasyGuide_map_estimate pyro_plate name st = (Raise AssertionError, st).
Proof.
  intros Htr Hnode Hnone Hstack Hp Hact Hsub Hsize Hne.
  unfold EasyGuide_map_estimate. rewrite Htr, Hnode, Hnone, Hstack.
  unfold with_ExitStack, bind. simpl. unfold bind, map_estimate_frame, bind.
  rewrite (EasyGuide_plate_hit pyro_plate _ _ p st Hp).
  unfold is_active. rewrite bool_decide_eq_true_2 by exact Hact. simpl.
  rewrite decide_True by exact Hsub.
  unfold repeat_to_full_size.
  assert (tensor_size (detach (site_value site)) (plate_dim p - event_dim (site_fn site))
          = Ok n) as -> by exact Hsize.
  simpl. rewrite decide_False by exact Hne. simpl.
  rewrite set_PYRO_STACK_same. reflexivity.
Qed.
End MapEstimateErrors.

Lemma EasyGuide_map_estimate_assertion_witness :
  EasyGuide_map_estimate (lib := lib_real) plate_of_args "s" st_sub7
  = (Raise AssertionError, st_sub7).
Proof.
  apply (EasyGuide_map_estimate_assertion (lib := lib_real) plate_of_args "s" [site_s7] site_s7
           frame_sub [] plate_sub 7 st_sub7).
  - reflexivity.
  - reflexivity.
  - reflexivity.
  - reflexivity.
  - reflexivity.
  - simpl. left.
  - reflexivity.
  - reflexivity.
  - discriminate.
Defined.

(** ** [Group.map_estimate] *)

Section GroupMapEstimate.
Context {lib : Substrate}.
Variable pyro_plate : string -> plate_args -> plate_attrs.

Lemma EasyGuide_map_estimate_stored (name : string) (v : tensor) (st st' : state) :
  EasyGuide_map_estimate pyro_plate name st = (Ok v, st') ->
  is_Some (param_store st' !! param_name_of name)
  /\ forall k w, param_store st !! k = Some w -> param_store st' !! k = Some w.
Proof.
  intros Hrun.
  destruct (prototype_trace st) as [tr|] eqn:Htr.
  2:{ unfold EasyGuide_map_estimate in Hrun. rewrite Htr in Hrun. discriminate. }
  destruct (trace_node tr name) as [site|e] eqn:Hnode.
  2:{ unfold EasyGuide_map_estimate in Hrun. rewrite Htr, Hnode in Hrun. discriminate. }
  rewrite (EasyGuide_map_estimate_unfold pyro_plate name tr site st Htr Hnode) in Hrun.
  cbv zeta in Hrun.
  match type of Hrun with context [map_estimate_frames pyro_plate ?fn ?i ?fs st] =>
    destruct (map_estimate_frames_inv pyro_plate fn fs i st) as [Hps _];
    destruct (map_estimate_frames pyro_plate fn i fs st) as [[out|e] st0]
  end; simpl in Hps; [|discriminate].
  destruct (param_store st0 !! param_name_of name) as [w|] eqn:Hw.
  - injection Hrun as <- <-. simpl. split; [rewrite Hw; eauto|].
    intros k w' Hk. congruence.
  - destruct out as [seed|]; [|discriminate].
    injection Hrun as <- <-. simpl. split; [rewrite lookup_insert_eq; eauto|].
    intros k w' Hk. rewrite <- Hps in Hk.
    rewrite lookup_insert_ne by congruence. exact Hk.
Qed.

Lemma Group_map_estimate_loop_spec (sites : list site) :
  forall (acc zs : gmap string tensor) (st st' : state),
    Group_map_estimate_loop pyro_plate sites acc st = (Ok zs, st') ->
    dom zs = dom acc ∪ list_to_set (site_name <$> sites)
    /\ (forall s, s ∈ sites -> is_Some (param_store st' !! param_name_of (site_name s)))
    /\ (forall k w, param_store st !! k = Some w -> param_store st' !! k = Some w).
Proof.
  induction sites as [|s sites IH]; intros acc zs st st'; simpl.
  - intros [= <- <-]. split; [simpl; rewrite union_empty_r_L; reflexivity|].
    split; [intros s Hs; inversion Hs | auto].
  - unfold bind at 1.
    destruct (EasyGuide_map_estimate pyro_plate (site_name s) st) as [[v|e] st1] eqn:Hrun;
      [|discriminate].
    apply EasyGuide_map_estimate_stored in Hrun as [[w Hstored] Hmono].
    intros Hloop. apply IH in Hloop as (Hdom & Hzs & Hmono').
    split; [|split; [|auto]].
    + rewrite Hdom, dom_insert_L. simpl.
      apply set_eq. intros x. rewrite !elem_of_union. tauto.
    + intros s' Hs'. apply elem_of_cons in Hs' as [-> | Hs']; [|auto].
      exists w. apply Hmono'. exact Hstored.
Qed.

(** X21.  When [Group.map_estimate] returns, the keys of the returned dict
    are exactly the names of the member sites, the parameter store holds a
    parameter ["auto_" + name] for every member site, and every parameter
    that existed before the call still has its old value. *)
Theorem Group_map_estimate_spec (g : Group) (zs : gmap string tensor) (st st' : state) :
  Group_map_estimate pyro_plate g st = (Ok zs, st') ->
  dom zs = list_to_set (site_name <$> group_sites g)
  /\ (forall s, s ∈ group_sites g ->
        is_Some (param_store st' !! param_name_of (site_name s)))
  /\ (forall k w, param_store st !! k = Some w -> param_store st' !! k = Some w).
Proof.
  unfold Group_map_estimate. intros Hrun.
  apply Group_map_estimate_loop_spec in Hrun as (Hdom & Hzs & Hmono).
  split; [|split; assumption]. rewrite Hdom, dom_empty_L. apply union_empty_l_L.
Qed.
End GroupMapEstimate.

Lemma Group_map_estimate_spec_witness :
  exists zs st',
    Group_map_estimate (lib := lib_real) plate_of_args group_abx st3 = (Ok zs, st')
    /\ dom zs = list_to_set (site_name <$> group_sites group_abx)
    /\ (forall s, s ∈ group_sites group_abx ->
          is_Some (param_store st' !! param_name_of (site_name s)))
    /\ (forall k w, param_store st3 !! k = Some w -> param_store st' !! k = Some w).
Proof.
  eexists _, _. split; [vm_compute; reflexivity|].
  apply (Group_map_estimate_spec (lib := lib_real) plate_of_args group_abx _ st3).
  vm_compute. reflexivity.
Defined.

(** ** Across invocations: what [__call__] keeps *)

Lemma EasyGuide_group_cached_after {lib : Substrate} (pattern : string) (g : Group) (st st' : state) :
  EasyGuide_group pattern st = (Ok g, st') ->
  groups st' !! pattern = Some g /\ prototype_trace st' = prototype_trace st.
Proof.
  unfold EasyGuide_group.
  destruct (groups st !! pattern) as [g0|] eqn:Hlook.
  { intros [= <- <-]. auto. }
  destruct (prototype_trace st) as [tr|] eqn:Htr; [|discriminate].
  destruct (select_sites pattern (iter_stochastic_nodes tr)) as [[|s sites]|e];
    try discriminate.
  destruct (Group_init (next_oid st) (s :: sites)) as [g1|e]; [|discriminate].
  intros [= <- <-]. simpl. split; [apply lookup_insert_eq | exact Htr].
Qed.

(** X22.  The group cache outlives an invocation: a guide body that asks
    for [group(pattern)] gets, in a later invocation of the same instance,
    the very object it got before, and that later invocation changes
    nothing, whatever model trace its arguments would record. *)
Theorem EasyGuide_call_group_persists {lib : Substrate} (pattern : string) (tr model1 model2 : list site)
    (g : Group) (st st1 : state) :
  prototype_trace st = Some tr ->
  EasyGuide_call model1 (EasyGuide_group pattern) st = (Ok g, st1) ->
  EasyGuide_call model2 (EasyGuide_group pattern) st1 = (Ok g, st1).
Proof.
  intros Htr. unfold EasyGuide_call, bind, modify, ret. rewrite Htr.
  destruct (EasyGuide_group pattern st) as [[g0|e] st0] eqn:Hrun; [|discriminate].
  intros [= <- <-].
  apply EasyGuide_group_cached_after in Hrun as [Hreg Htr0]. simpl.
  rewrite Htr0, Htr.
  rewrite (EasyGuide_group_hit pattern g0 (set_plates ∅ st0)) by exact Hreg.
  reflexivity.
Qed.

Lemma EasyGuide_call_group_persists_witness :
  EasyGuide_call [site_y] (EasyGuide_group (lib := lib_real) "x")
    (set_next_oid 1 (set_groups {[ "x" := group_x ]} st3))
  = (Ok group_x, set_next_oid 1 (set_groups {[ "x" := group_x ]} st3)).
Proof.
  apply (EasyGuide_call_group_persists (lib := lib_real) "x" catalog3 catalog3 [site_y]
           group_x st3).
  - reflexivity.
  - vm_compute. reflexivity.
Defined.

Lemma EasyGuide_call_prototype_trace {R} (model_trace : list site) (guide : M R) (st : state) :
  (forall s, prototype_trace (snd (guide s)) = prototype_trace s) ->
  prototype_trace (snd (EasyGuide_call model_trace guide st))
  = match prototype_trace st with
    | None => Some model_trace
    | Some tr => Some tr
    end.
Proof.
  intros Hguide. unfold EasyGuide_call, bind, modify, ret.
  destruct (prototype_trace st) as [tr|] eqn:Htr.
  - specialize (Hguide st). destruct (guide st) as [[r|e] st1]; simpl in *; congruence.
  - pose proof (EasyGuide_setup_prototype_assigns model_trace st) as Hset.
    destruct (EasyGuide_setup_prototype model_trace st) as [[[]|e] st0]; simpl in Hset.
    + specialize (Hguide st0). destruct (guide st0) as [[r|e] st1]; simpl in *; congruence.
    + exact Hset.
Qed.

(** X23.  The catalog is fixed by the first invocation: with guide bodies
    that do not assign [prototype_trace] themselves, the first invocation
    of a fresh instance leaves the trace of its own arguments as the
    catalog, also when it raises, and a later invocation keeps that
    catalog whatever trace its arguments would record. *)
Theorem EasyGuide_call_catalog_fixed {R1 R2} (trace1 trace2 : list site)
    (guide1 : M R1) (guide2 : M R2) (st : state) :
  prototype_trace st = None ->
  (forall s, prototype_trace (snd (guide1 s)) = prototype_trace s) ->
  (forall s, prototype_trace (snd (guide2 s)) = prototype_trace s) ->
  prototype_trace (snd (EasyGuide_call trace1 guide1 st)) = Some trace1
  /\ prototype_trace
       (snd (EasyGuide_call trace2 guide2 (snd (EasyGuide_call trace1 guide1 st))))
     = Some trace1.
Proof.
  intros Hnone H1 H2.
  pose proof (EasyGuide_call_prototype_trace trace1 guide1 st H1) as Hfirst.
  rewrite Hnone in Hfirst. split; [exact Hfirst|].
  rewrite (EasyGuide_call_prototype_trace trace2 guide2 _ H2), Hfirst. reflexivity.
Qed.

Lemma guide_plate_data_prototype_trace (s : state) :
  prototype_trace (snd (guide_plate_data s)) = prototype_trace s.
Proof.
  unfold guide_plate_data, EasyGuide_plate. destruct (plates s !! "data"); reflexivity.
Qed.

Lemma EasyGuide_call_catalog_fixed_witness :
  prototype_trace (snd (EasyGuide_call [site_x] guide_plate_data (EasyGuide_init ∅ 0)))
  = Some [site_x]
  /\ prototype_trace
       (snd (EasyGuide_call catalog3 guide_plate_data
               (snd (EasyGuide_call [site_x] guide_plate_data (EasyGuide_init ∅ 0)))))
     = Some [site_x].
Proof.
  apply (EasyGuide_call_catalog_fixed [site_x] catalog3 guide_plate_data guide_plate_data).
  - reflexivity.
  - exact guide_plate_data_prototype_trace.
  - exact guide_plate_data_prototype_trace.
Defined.

(** ** The invariants of the two caches hold in every state the methods reach *)

Lemma groups_wf_kept {lib : Substrate} (st st' : state) :
  groups_wf st ->
  prototype_trace st' = prototype_trace st ->
  groups st' = groups st ->
  next_oid st <= next_oid st' ->
  groups_wf st'.
Proof.
  intros [Hsel Hb Hd] Htr Hg Hn. split; rewrite ?Hg, ?Htr.
  - exact Hsel.
  - intros p g Hp. apply Hb in Hp. lia.
  - exact Hd.
Qed.

Lemma groups_wf_instance_kept {lib : Substrate} (st st' : state) :
  groups_wf st -> instance_kept st st' -> groups_wf st'.
Proof.
  intros Hwf (H1 & _ & H3 & _ & _ & H6). eapply groups_wf_kept; eassumption.
Qed.

Lemma plates_wf_same (st st' : state) :
  plates_wf st -> plates st' = plates st -> next_oid st <= next_oid st' -> plates_wf st'.
Proof.
  intros [Hn Hb Hd] Hp Ho. split; rewrite ?Hp.
  - exact Hn.
  - intros n p Hq. apply Hb in Hq. lia.
  - exact Hd.
Qed.

Lemma setup_sites_only_frames (sites : list site) (st : state) :
  exists m, snd (setup_sites sites st) = set_frames m st.
Proof.
  revert st. induction sites as [|s sites IH]; intros st; simpl.
  - exists (frames st). destruct st. reflexivity.
  - unfold bind.
    assert (forall fs st0, exists m, snd (setup_frames fs st0) = set_frames m st0) as Hfs.
    { intros fs. induction fs as [|f fs IHfs]; intros st0; simpl.
      - exists (frames st0). destruct st0. reflexivity.
      - destruct (frame_vectorized f).
        + unfold bind, modify. destruct (IHfs (set_frames (<[frame_name f:=f]> (frames st0)) st0))
            as (m & ->). exists m. reflexivity.
        + exists (frames st0). destruct st0. reflexivity. }
    destruct (Hfs (site_cond_indep_stack s) st) as (m & Hm).
    destruct (setup_frames (site_cond_indep_stack s) st) as [[u|e] st1]; simpl in Hm; subst st1.
    + destruct (IH (set_frames m st)) as (m' & ->). exists m'. reflexivity.
    + exists m. reflexivity.
Qed.

Section Invariants.
Context {lib : Substrate}.
Variable pyro_plate : string -> plate_args -> plate_attrs.

Lemma EasyGuide_plate_plates_wf (name : string) (a : plate_args) (st : state) :
  plates_wf st -> plates_wf (snd (EasyGuide_plate pyro_plate name a st)).
Proof.
  intros Hwf. unfold EasyGuide_plate.
  destruct (plates st !! name) as [p|] eqn:Hp; simpl; [exact Hwf|].
  split; simpl.
  - intros n q Hq. destruct (decide (name = n)) as [<-|Hne].
    + rewrite lookup_insert_eq in Hq. injection Hq as <-. reflexivity.
    + rewrite lookup_insert_ne in Hq by exact Hne. exact (plates_named st Hwf n q Hq).
  - intros n q Hq. destruct (decide (name = n)) as [<-|Hne].
    + rewrite lookup_insert_eq in Hq. injection Hq as <-. simpl. lia.
    + rewrite lookup_insert_ne in Hq by exact Hne.
      pose proof (plates_bounded st Hwf n q Hq). lia.
  - intros n m q r Hq Hr Heq.
    destruct (decide (name = n)) as [<-|Hn]; destruct (decide (name = m)) as [<-|Hm];
      try reflexivity.
    + rewrite lookup_insert_eq in Hq. injection Hq as <-.
      rewrite lookup_insert_ne in Hr by exact Hm.
      pose proof (plates_bounded st Hwf m r Hr). simpl in Heq. lia.
    + rewrite lookup_insert_eq in Hr. injection Hr as <-.
      rewrite lookup_insert_ne in Hq by exact Hn.
      pose proof (plates_bounded st Hwf n q Hq). simpl in Heq. lia.
    + rewrite lookup_insert_ne in Hq by exact Hn.
      rewrite lookup_insert_ne in Hr by exact Hm.
      exact (plates_distinct st Hwf n m q r Hq Hr Heq).
Qed.

Lemma plates_wf_stack (v : list nat) (st : state) :
  plates_wf st -> plates_wf (set_PYRO_STACK v st).
Proof. intros Hwf. apply (plates_wf_same st); [exact Hwf | reflexivity | simpl; lia]. Qed.

Lemma enter_frames_plates_wf (fs : list frame) (st : state) :
  plates_wf st -> plates_wf (snd (enter_frames pyro_plate fs st)).
Proof.
  revert st. induction fs as [|f fs IH]; intros st Hwf; simpl; [exact Hwf|].
  unfold bind at 1.
  pose proof (EasyGuide_plate_plates_wf (frame_name f) no_args st Hwf) as Hwf1.
  destruct (EasyGuide_plate_ok pyro_plate (frame_name f) no_args st) as (p & st1 & Hrun).
  rewrite Hrun in Hwf1 |- *. simpl in Hwf1. unfold bind at 1.
  destruct (negb (is_active p st1)); simpl; apply IH; [apply plates_wf_stack|]; exact Hwf1.
Qed.

Lemma map_estimate_frames_plates_wf (fn : distribution) (fs : list frame)
    (init : option tensor) (st : state) :
  plates_wf st -> plates_wf (snd (map_estimate_frames pyro_plate fn init fs st)).
Proof.
  revert init st. induction fs as [|f fs IH]; intros init st Hwf; simpl; [exact Hwf|].
  unfold bind at 1.
  assert (plates_wf (snd (map_estimate_frame pyro_plate fn init f st))) as Hstep.
  { unfold map_estimate_frame, bind.
    pose proof (EasyGuide_plate_plates_wf (frame_name f) no_args st Hwf) as Hwf1.
    destruct (EasyGuide_plate_ok pyro_plate (frame_name f) no_args st) as (p & st1 & Hrun).
    rewrite Hrun in Hwf1 |- *. simpl in Hwf1.
    destruct (negb (is_active p st1)); simpl; [apply plates_wf_stack; exact Hwf1|].
    destruct init as [v|]; [|exact Hwf1].
    destruct (decide _); [|exact Hwf1].
    destruct (repeat_to_full_size p fn v); exact Hwf1. }
  destruct (map_estimate_frame pyro_plate fn init f st) as [[out|e] st1]; simpl in Hstep.
  - apply IH. exact Hstep.
  - exact Hstep.
Qed.

Lemma EasyGuide_map_estimate_plates_wf (name : string) (st : state) :
  plates_wf st -> plates_wf (snd (EasyGuide_map_estimate pyro_plate name st)).
Proof.
  intros Hwf.
  destruct (EasyGuide_map_estimate_state pyro_plate name st)
    as (fn & init & fs & store' & -> & _).
  pose proof (map_estimate_frames_plates_wf fn fs init st Hwf) as Hwf1.
  apply (plates_wf_same (snd (map_estimate_frames pyro_plate fn init fs st)));
    [exact Hwf1 | reflexivity | simpl; lia].
Qed.

Lemma sample_loop_plates_wf (guide_z : tensor) (sites : list site) :
  forall pos acc st,
    plates_wf st -> plates_wf (snd (sample_loop pyro_plate guide_z pos sites acc st)).
Proof.
  induction sites as [|s sites IH]; intros pos acc st Hwf; [exact Hwf|].
  rewrite sample_loop_cons.
  destruct (unpack_site guide_z pos s) as [u|e]; [|exact Hwf].
  destruct (constrain (site_fn s) u) as [zl|e]; [|exact Hwf].
  cbv zeta. apply IH, plates_wf_stack, enter_frames_plates_wf, Hwf.
Qed.

Lemma EasyGuide_map_estimate_instance (name : string) (st : state) :
  prototype_trace (snd (EasyGuide_map_estimate pyro_plate name st)) = prototype_trace st
  /\ groups (snd (EasyGuide_map_estimate pyro_plate name st)) = groups st
  /\ next_oid st <= next_oid (snd (EasyGuide_map_estimate pyro_plate name st)).
Proof.
  destruct (EasyGuide_map_estimate_state pyro_plate name st)
    as (fn & init & fs & store' & -> & _).
  destruct (map_estimate_frames_facts pyro_plate fn fs init st)
    as [(H1 & _ & H3 & _ & _ & H6) _].
  simpl. auto.
Qed.

(** X24.  The consistency of the group cache with the catalog is an
    invariant of the instance: every method keeps it, and so does an
    invocation whose guide body keeps it, including a first invocation
    that builds the catalog or fails to. *)
Theorem groups_wf_invariant {R} (pattern name : string) (a : plate_args) (g : Group)
    (guide_z : tensor) (model_trace : list site) (guide : M R) (st : state) :
  groups_wf st ->
  (forall s, groups_wf s -> groups_wf (snd (guide s))) ->
  groups_wf (snd (EasyGuide_group pattern st))
  /\ groups_wf (snd (EasyGuide_plate pyro_plate name a st))
  /\ groups_wf (snd (EasyGuide_map_estimate pyro_plate name st))
  /\ groups_wf (snd (Group_sample pyro_plate g guide_z st))
  /\ groups_wf (snd (EasyGuide_call model_trace guide st)).
Proof.
  intros Hwf Hguide.
  split; [apply EasyGuide_group_groups_wf; exact Hwf|].
  split.
  { eapply groups_wf_instance_kept; [exact Hwf|].
    apply (EasyGuide_plate_instance_kept pyro_plate name a st). }
  split.
  { destruct (EasyGuide_map_estimate_instance name st) as (H1 & H2 & H3).
    eapply groups_wf_kept; eassumption. }
  split.
  { destruct (sample_loop_instance_kept pyro_plate guide_z (group_sites g) 0 ∅ st)
      as (Hk & _ & _).
    unfold Group_sample, bind.
    destruct (sample_loop pyro_plate guide_z 0 (group_sites g) ∅ st) as [[zs|e] st'];
      simpl in *; eapply groups_wf_instance_kept; eassumption. }
  unfold EasyGuide_call, bind, modify, ret.
  assert (forall s, groups_wf s ->
            groups_wf (snd (match guide s with
                            | (Ok r, s1) => (Ok r, set_plates ∅ s1)
                            | (Raise e, s1) => (Raise e, s1)
                            end))) as Hrest.
  { intros s Hs. specialize (Hguide s Hs).
    destruct (guide s) as [[r|e] s1]; simpl in *; [|exact Hguide].
    eapply groups_wf_kept; [exact Hguide | | | ]; simpl; auto. }
  destruct (prototype_trace st) as [tr|] eqn:Htr.
  - apply Hrest. exact Hwf.
  - assert (groups_wf (snd (EasyGuide_setup_prototype model_trace st))) as Hwf0.
    { unfold EasyGuide_setup_prototype, bind, modify.
      destruct (setup_sites_only_frames (iter_stochastic_nodes model_trace)
                  (set_prototype_trace (Some model_trace) st)) as (m & ->).
      split; simpl.
      - intros p h Hp. destruct (groups_selected st Hwf p h Hp) as (t & Ht & _). congruence.
      - exact (groups_bounded st Hwf).
      - exact (groups_distinct st Hwf). }
    destruct (EasyGuide_setup_prototype model_trace st) as [[[]|e] st0]; simpl in Hwf0.
    + apply Hrest. exact Hwf0.
    + exact Hwf0.
Qed.

(** X25.  The plate registry has its own invariant, which the methods
    keep: an entry is a plate of the name it is filed under, and entries
    under different names are different objects. *)
Theorem plates_wf_invariant (name : string) (a : plate_args) (pattern : string)
    (g : Group) (guide_z : tensor) (st : state) :
  plates_wf st ->
  plates_wf (snd (EasyGuide_plate pyro_plate name a st))
  /\ plates_wf (snd (EasyGuide_group pattern st))
  /\ plates_wf (snd (EasyGuide_map_estimate pyro_plate name st))
  /\ plates_wf (snd (Group_sample pyro_plate g guide_z st)).
Proof.
  intros Hwf. split; [apply EasyGuide_plate_plates_wf; exact Hwf|].
  split.
  { unfold EasyGuide_group.
    destruct (groups st !! pattern); [exact Hwf|].
    destruct (prototype_trace st); [|exact Hwf].
    destruct (select_sites _ _) as [[|s sites]|]; try exact Hwf.
    destruct (Group_init _ _); [|exact Hwf].
    apply (plates_wf_same st); [exact Hwf | reflexivity | simpl; lia]. }
  split; [apply EasyGuide_map_estimate_plates_wf; exact Hwf|].
  pose proof (sample_loop_plates_wf guide_z (group_sites g) 0 ∅ st Hwf) as H.
  unfold Group_sample, bind.
  destruct (sample_loop pyro_plate guide_z 0 (group_sites g) ∅ st) as [[zs|e] st'];
    simpl in *; exact H.
Qed.
End Invariants.

Lemma guide_plate_data_groups_wf {lib : Substrate} (s : state) :
  groups_wf s -> groups_wf (snd (guide_plate_data s)).
Proof.
  intros Hwf. eapply groups_wf_instance_kept; [exact Hwf|].
  apply (EasyGuide_plate_instance_kept plate_of_args "data" _ s).
Qed.

Lemma groups_wf_invariant_witness :
  groups_wf (lib := lib_real) (snd (EasyGuide_group (lib := lib_real) "x" st3))
  /\ groups_wf (lib := lib_real) (snd (EasyGuide_plate plate_of_args "x" no_args st3))
  /\ groups_wf (lib := lib_real)
       (snd (EasyGuide_map_estimate (lib := lib_real) plate_of_args "x" st3))
  /\ groups_wf (lib := lib_real)
       (snd (Group_sample (lib := lib_real) plate_of_args group_abx guide_z_abx st3))
  /\ groups_wf (lib := lib_real) (snd (EasyGuide_call catalog3 guide_plate_data st3)).
Proof.
  apply (groups_wf_invariant (lib := lib_real) plate_of_args "x" "x" no_args group_abx
           guide_z_abx catalog3 guide_plate_data st3).
  - apply groups_wf_empty. reflexivity.
  - exact guide_plate_data_groups_wf.
Defined.

Lemma plates_wf_invariant_witness :
  plates_wf (snd (EasyGuide_plate plate_of_args "s" no_args st_sub))
  /\ plates_wf (snd (EasyGuide_group (lib := lib_real) "s" st_sub))
  /\ plates_wf (snd (EasyGuide_map_estimate (lib := lib_real) plate_of_args "s" st_sub))
  /\ plates_wf (snd (Group_sample (lib := lib_real) plate_of_args group_abx guide_z_abx
                       st_sub)).
Proof.
  apply (plates_wf_invariant (lib := lib_real) plate_of_args "s" no_args "s" group_abx
           guide_z_abx st_sub).
  split; simpl.
  - intros n p Hp. apply lookup_singleton_Some in Hp as [<- <-]. reflexivity.
  - intros n p Hp. apply lookup_singleton_Some in Hp as [<- <-]. simpl. lia.
  - intros n m p q Hp Hq _.
    apply lookup_singleton_Some in Hp as [<- _].
    apply lookup_singleton_Some in Hq as [<- _]. reflexivity.
Defined.

(** Witnesses for the outcome of [Group.__init__] and for an unknown
    site name. *)
Lemma Group_init_outcome_witness :
  exists g, Group_init 0 [site_ab; site_x] = Ok g
            /\ group_oid g = 0 /\ group_sites g = [site_ab; site_x].
Proof.
  apply (Group_init_outcome 0 [site_ab; site_x]).
  unfold shared_dims_ok. simpl.
  repeat (apply Forall_cons; split); try apply Forall_nil; eexists; reflexivity.
Defined.

Lemma EasyGuide_map_estimate_unknown_witness :
  EasyGuide_map_estimate (lib := lib_real) plate_of_args "nowhere" st3 = (Raise KeyError, st3).
Proof.
  apply (EasyGuide_map_estimate_unknown (lib := lib_real) plate_of_args "nowhere" st3).
  vm_compute. intros H. repeat (apply elem_of_cons in H as [H|H]; [discriminate|]).
  inversion H.
Defined.

(** ** [map_estimate]: what is written to the parameter store *)

Section Seeding.
Context {lib : Substrate}.
Variable pyro_plate : string -> plate_args -> plate_attrs.

Lemma map_estimate_frames_app (fn : distribution) (l1 l2 : list frame) :
  forall (init out : option tensor) (st st1 : state),
    map_estimate_frames pyro_plate fn init l1 st = (Ok out, st1) ->
    map_estimate_frames pyro_plate fn init (l1 ++ l2) st
    = map_estimate_frames pyro_plate fn out l2 st1.
Proof.
  induction l1 as [|f l1 IH]; intros init out st st1; simpl.
  - intros [= <- <-]. reflexivity.
  - unfold bind.
    destruct (map_estimate_frame pyro_plate fn init f st) as [[o|e] s0]; [|discriminate].
    apply IH.
Qed.

(** One round of the loop for a frame whose plate is not both active and
    subsampled: the seed is passed on as it is; the plate is entered
    unless it is active already. *)
Lemma map_estimate_frame_full (fn : distribution) (init : option tensor) (f : frame)
    (st : state) :
  plates_wf st ->
  (forall o, o ∈ PYRO_STACK st -> o < next_oid st) ->
  (forall p, plates st !! frame_name f = Some p -> plate_oid p ∈ PYRO_STACK st ->
     (plate_size p <= plate_subsample_size p)%Z) ->
  exists p st1,
    map_estimate_frame pyro_plate fn init f st = (Ok init, st1)
    /\ plates st1 = <[frame_name f := p]> (plates st)
    /\ (PYRO_STACK st1 = PYRO_STACK st /\ plate_oid p ∈ PYRO_STACK st
        \/ PYRO_STACK st1 = PYRO_STACK st ++ [plate_oid p])
    /\ param_store st1 = param_store st
    /\ plates_wf st1
    /\ (forall o, o ∈ PYRO_STACK st1 -> o < next_oid st1).
Proof.
  intros Hwf Hbound Hfull. unfold map_estimate_frame, bind.
  destruct (plates st !! frame_name f) as [p|] eqn:Hp.
  - rewrite (EasyGuide_plate_hit pyro_plate _ _ p st Hp). unfold is_active.
    destruct (decide (plate_oid p ∈ PYRO_STACK st)) as [Hin|Hnin].
    + rewrite bool_decide_eq_true_2 by exact Hin. simpl.
      exists p, st. split.
      { destruct init as [v|]; [|reflexivity].
        rewrite decide_False; [reflexivity|]. specialize (Hfull p eq_refl Hin). lia. }
      split; [symmetry; apply insert_id; exact Hp|].
      split; [left; split; [reflexivity | exact Hin]|].
      split; [reflexivity|]. split; assumption.
    + rewrite bool_decide_eq_false_2 by exact Hnin. simpl.
      exists p. eexists. split; [reflexivity|]. simpl.
      split; [symmetry; apply insert_id; exact Hp|].
      split; [right; reflexivity|]. split; [reflexivity|].
      split; [apply plates_wf_stack; exact Hwf|].
      intros o Ho. apply elem_of_app in Ho as [Ho|Ho]; [auto|].
      apply list_elem_of_singleton in Ho as ->. exact (plates_bounded st Hwf _ p Hp).
  - pose proof (EasyGuide_plate_plates_wf pyro_plate (frame_name f) no_args st Hwf) as Hwf1.
    pose proof (EasyGuide_plate_stack pyro_plate (frame_name f) no_args st) as Hstack.
    pose proof (EasyGuide_plate_param_store pyro_plate (frame_name f) no_args st) as Hps.
    destruct (EasyGuide_plate_miss pyro_plate (frame_name f) no_args st Hp)
      as (p & st1 & Hrun & Hoid & _ & Hpl & Hnext).
    rewrite Hrun in Hwf1, Hstack, Hps |- *. simpl in Hwf1, Hstack, Hps.
    assert (is_active p st1 = false) as ->.
    { apply bool_decide_eq_false. rewrite Hstack, Hoid. intros Hin.
      apply Hbound in Hin. lia. }
    simpl. exists p. eexists. split; [reflexivity|]. simpl.
    split; [exact Hpl|]. split; [right; rewrite Hstack; reflexivity|].
    split; [exact Hps|]. split; [apply plates_wf_stack; exact Hwf1|].
    intros o Ho. rewrite Hstack in Ho. apply elem_of_app in Ho as [Ho|Ho].
    + apply Hbound in Ho. lia.
    + apply list_elem_of_singleton in Ho. lia.
Qed.

(** The loop over frames none of whose plates is both active and
    subsampled: the seed comes out as it went in, the parameter store is
    left alone, every frame has its plate registered afterwards, and the
    handler stack has grown by plates of these frames only. *)
Lemma map_estimate_frames_full (fn : distribution) (init : option tensor)
    (fs : list frame) :
  NoDup (frame_name <$> fs) ->
  forall st, plates_wf st -> frames_at_full_size fs st ->
    exists st',
      map_estimate_frames pyro_plate fn init fs st = (Ok init, st')
      /\ param_store st' = param_store st
      /\ plates_wf st'
      /\ (forall n, n ∉ (frame_name <$> fs) -> plates st' !! n = plates st !! n)
      /\ (forall f, f ∈ fs -> is_Some (plates st' !! frame_name f))
      /\ (forall o, o ∈ PYRO_STACK st -> o ∈ PYRO_STACK st')
      /\ (forall o, o ∈ PYRO_STACK st' ->
            o ∈ PYRO_STACK st
            \/ exists f q, f ∈ fs /\ plates st' !! frame_name f = Some q /\ plate_oid q = o)
      /\ (forall o, o ∈ PYRO_STACK st' -> o < next_oid st').
Proof.
  induction fs as [|f fs IH]; intros Hnd st Hwf [Hfull Hbound].
  - exists st. split; [reflexivity|]. split; [reflexivity|]. split; [exact Hwf|].
    split; [reflexivity|]. split; [intros f Hf; inversion Hf|].
    split; [auto|]. split; [auto | exact Hbound].
  - simpl in Hnd. apply NoDup_cons in Hnd as [Hfresh Hnd].
    assert (forall f', f' ∈ fs -> frame_name f' <> frame_name f) as Hother.
    { intros f' Hf' Heq. apply Hfresh. rewrite <- Heq. apply list_elem_of_fmap. eauto. }
    destruct (map_estimate_frame_full fn init f st Hwf Hbound)
      as (p & st1 & Hrun & Hpl & Hstack & Hps & Hwf1 & Hbound1).
    { intros q Hq. apply (Hfull f q); [left | exact Hq]. }
    assert (plates st1 !! frame_name f = Some p) as Hp1
      by (rewrite Hpl; apply lookup_insert_eq).
    assert (forall o, o ∈ PYRO_STACK st1 -> o ∈ PYRO_STACK st \/ o = plate_oid p) as Hstack1.
    { intros o Ho. destruct Hstack as [[Heq _] | Heq]; rewrite Heq in Ho; [left; exact Ho|].
      apply elem_of_app in Ho as [Ho|Ho]; [left; exact Ho|].
      apply list_elem_of_singleton in Ho. right. exact Ho. }
    assert (forall o, o ∈ PYRO_STACK st -> o ∈ PYRO_STACK st1) as Hsub1.
    { intros o Ho. destruct Hstack as [[Heq _] | Heq]; rewrite Heq; [exact Ho|].
      apply elem_of_app. left. exact Ho. }
    assert (forall n, n <> frame_name f -> plates st1 !! n = plates st !! n) as Hpl1.
    { intros n Hn. rewrite Hpl. apply lookup_insert_ne. congruence. }
    destruct (IH Hnd st1 Hwf1) as (st' & Hrun' & Hps' & Hwf' & Hkeep & Hreg & Hsub & Hnew & Hbound').
    { split; [|exact Hbound1]. intros f' q Hf' Hq Hact.
      assert (plates st !! frame_name f' = Some q) as Hq0
        by (rewrite <- Hpl1 by (apply Hother; exact Hf'); exact Hq).
      destruct (Hstack1 _ Hact) as [Hin | Heq].
      - apply (Hfull f' q); [right; exact Hf' | exact Hq0 | exact Hin].
      - exfalso. apply (Hother f' Hf').
        exact (plates_distinct st1 Hwf1 _ _ q p Hq Hp1 Heq). }
    assert (plates st' !! frame_name f = Some p) as Hp'.
    { rewrite Hkeep; [exact Hp1|]. exact Hfresh. }
    exists st'. split.
    { simpl. unfold bind at 1. rewrite Hrun. exact Hrun'. }
    split; [congruence|]. split; [exact Hwf'|]. split.
    { intros n Hn. simpl in Hn. apply not_elem_of_cons in Hn as [Hne Hn].
      rewrite Hkeep by exact Hn. apply Hpl1. exact Hne. }
    split.
    { intros f' Hf'. apply elem_of_cons in Hf' as [-> | Hf']; [eauto | auto]. }
    split; [auto|]. split; [|exact Hbound'].
    intros o Ho. destruct (Hnew o Ho) as [Hin | (f' & q & Hf' & Hq & Hoid)].
    + destruct (Hstack1 _ Hin) as [Hin0 | ->]; [left; exact Hin0|].
      right. exists f, p. split; [left|]. split; [exact Hp' | reflexivity].
    + right. exists f', q. split; [right; exact Hf'|]. split; assumption.
Qed.
(** One round of the loop for a frame whose plate is registered, active
    and subsampled, with a seed at hand. *)
Lemma map_estimate_frame_active (fn : distribution) (v v' : tensor) (f : frame)
    (p : plate) (st : state) :
  plates st !! frame_name f = Some p ->
  plate_oid p ∈ PYRO_STACK st ->
  (plate_subsample_size p < plate_size p)%Z ->
  repeat_to_full_size p fn v = Ok v' ->
  map_estimate_frame pyro_plate fn (Some v) f st = (Ok (Some v'), st).
Proof.
  intros Hp Hact Hsub Hrep. unfold map_estimate_frame, bind.
  rewrite (EasyGuide_plate_hit pyro_plate _ _ p st Hp).
  unfold is_active. rewrite bool_decide_eq_true_2 by exact Hact. simpl.
  rewrite decide_True by exact Hsub. rewrite Hrep. reflexivity.
Qed.

(** What [map_estimate] does once the loop over the frames has returned a
    seed for a parameter that does not exist yet. *)
Lemma EasyGuide_map_estimate_seeds (name : string) (tr : list site) (site : site)
    (seed : tensor) (st st1 : state) :
  prototype_trace st = Some tr ->
  trace_node tr name = Ok site ->
  param_store st !! param_name_of name = None ->
  map_estimate_frames pyro_plate (site_fn site) (Some (detach (site_value site)))
    (site_cond_indep_stack site) st = (Ok (Some seed), st1) ->
  param_store st1 = param_store st ->
  exists v,
    EasyGuide_map_estimate pyro_plate name st
    = (Ok v, set_PYRO_STACK (PYRO_STACK st)
               (set_param_store
                  (<[param_name_of name :=
                       param_init (support (site_fn site)) (event_dim (site_fn site)) seed]>
                     (param_store st)) st1)).
Proof.
  intros Htr Hnode Hnone Hloop Hps.
  rewrite (EasyGuide_map_estimate_unfold pyro_plate name tr site st Htr Hnode).
  cbv zeta. rewrite Hnone, Hloop, Hps, Hnone. eexists. reflexivity.
Qed.


(** C9.  [map_estimate(name)] for a site of the catalog writes to the
    parameter store at most under the key ["auto_" + name].  When that key
    is present the store is left as it is, whatever the outcome.  When it
    is absent, a call that raises writes nothing, and a call that returns
    has created the parameter from a seed that is cut from gradient
    history, every element of which is an element of the value recorded
    for the site in the catalog, and which is that value itself, detached,
    when the site lies in no plate.  And when it is absent and no plate of
    the site is both active and subsampled, the call does return and the
    parameter is created from the recorded value, detached. *)
Theorem EasyGuide_map_estimate_param_store (name : string) (tr : list site)
    (site : site) (st : state) :
  prototype_trace st = Some tr ->
  trace_node tr name = Ok site ->
  let fn := site_fn site in
  let pn := param_name_of name in
  let r := fst (EasyGuide_map_estimate pyro_plate name st) in
  let st' := snd (EasyGuide_map_estimate pyro_plate name st) in
  (forall w, param_store st !! pn = Some w -> param_store st' = param_store st)
  /\ (param_store st !! pn = None ->
        match r with
        | Raise _ => param_store st' = param_store st
        | Ok _ =>
            exists seed,
              param_store st'
              = <[pn := param_init (support fn) (event_dim fn) seed]> (param_store st)
              /\ requires_grad seed = false
              /\ (forall z, z ∈ data seed -> z ∈ data (site_value site))
              /\ (site_cond_indep_stack site = [] -> seed = detach (site_value site))
        end)
  /\ (param_store st !! pn = None ->
      plates_wf st ->
      NoDup (frame_name <$> site_cond_indep_stack site) ->
      frames_at_full_size (site_cond_indep_stack site) st ->
      (exists v, r = Ok v)
      /\ param_store st'
         = <[pn := param_init (support fn) (event_dim fn) (detach (site_value site))]>
             (param_store st)).
Proof.
  intros Htr Hnode fn pn r st'. subst r st'.
  split; [|split].
  - intros w Hw.
    rewrite (EasyGuide_map_estimate_unfold pyro_plate name tr site st Htr Hnode).
    cbv zeta. fold pn. rewrite Hw.
    destruct (map_estimate_frames_inv pyro_plate (site_fn site) (site_cond_indep_stack site)
                None st) as [Hps _].
    destruct (map_estimate_frames pyro_plate (site_fn site) None
                (site_cond_indep_stack site) st) as [[out|e] st1]; simpl in Hps |- *;
      [|exact Hps].
    rewrite Hps, Hw. simpl. exact Hps.
  - intros Hnone.
    rewrite (EasyGuide_map_estimate_unfold pyro_plate name tr site st Htr Hnode).
    cbv zeta. fold pn. rewrite Hnone.
    destruct (map_estimate_frames_inv pyro_plate (site_fn site) (site_cond_indep_stack site)
                (Some (detach (site_value site))) st) as [Hps Hout].
    destruct (map_estimate_frames pyro_plate (site_fn site)
                (Some (detach (site_value site))) (site_cond_indep_stack site) st)
      as [[out|e] st1] eqn:Hloop; simpl in Hps, Hout |- *; [|exact Hps].
    destruct Hout as (seed & -> & Hgrad & Helem).
    rewrite Hps, Hnone. simpl. exists seed.
    split; [reflexivity|]. split; [exact Hgrad|]. split; [exact Helem|].
    intros Hnil. rewrite Hnil in Hloop. simpl in Hloop. unfold ret in Hloop. congruence.
  - intros Hnone Hwf Hnd Hfull.
    destruct (map_estimate_frames_full (site_fn site) (Some (detach (site_value site)))
                (site_cond_indep_stack site) Hnd st Hwf Hfull)
      as (st1 & Hloop & Hps & _).
    destruct (EasyGuide_map_estimate_seeds name tr site _ st st1 Htr Hnode Hnone Hloop Hps)
      as (v & ->).
    simpl. split; [eauto | reflexivity].
Qed.

(** X18.  When the parameter does not exist yet and no plate of the site
    is both active and subsampled at the call (the frames of the site have
    distinct names), [map_estimate] returns, having created the parameter
    from the value recorded in the catalog, detached and otherwise
    unchanged; the plate of every frame of the site is registered
    afterwards, and the handler stack is as it was. *)
Theorem EasyGuide_map_estimate_inactive_seed (name : string) (tr : list site)
    (site : site) (st : state) :
  plates_wf st ->
  prototype_trace st = Some tr ->
  trace_node tr name = Ok site ->
  param_store st !! param_name_of name = None ->
  NoDup (frame_name <$> site_cond_indep_stack site) ->
  frames_at_full_size (site_cond_indep_stack site) st ->
  exists v st',
    EasyGuide_map_estimate pyro_plate name st = (Ok v, st')
    /\ param_store st'
       = <[param_name_of name :=
             param_init (support (site_fn site)) (event_dim (site_fn site))
               (detach (site_value site))]> (param_store st)
    /\ PYRO_STACK st' = PYRO_STACK st
    /\ (forall f, f ∈ site_cond_indep_stack site -> is_Some (plates st' !! frame_name f))
    /\ plates_wf st'.
Proof.
  intros Hwf Htr Hnode Hnone Hnd Hfull.
  destruct (map_estimate_frames_full (site_fn site) (Some (detach (site_value site)))
              (site_cond_indep_stack site) Hnd st Hwf Hfull)
    as (st1 & Hloop & Hps & Hwf1 & _ & Hreg & _).
  destruct (EasyGuide_map_estimate_seeds name tr site _ st st1 Htr Hnode Hnone Hloop Hps)
    as (v & Hrun).
  exists v. eexists. split; [exact Hrun|]. simpl.
  split; [reflexivity|]. split; [reflexivity|]. split; [exact Hreg|].
  apply (plates_wf_same st1); [exact Hwf1 | reflexivity | simpl; lia].
Qed.

(** X26.  For a site whose only plate is registered, active and subsampled
    (positive subsample size below the full size), and whose recorded
    value has subsample-size length along the plate dimension, a first
    [map_estimate] returns and changes nothing in the state but the
    parameter store, where it creates the parameter from a seed that has
    the full size along that dimension, is cut from gradient history, and
    holds at plate coordinate [i] the recorded element at coordinate
    [i mod subsample_size]. *)
Theorem EasyGuide_map_estimate_full_size_seed (name : string) (tr : list site)
    (site : site) (f : frame) (p : plate) (st : state) (d ss size : nat) :
  prototype_trace st = Some tr ->
  trace_node tr name = Ok site ->
  param_store st !! param_name_of name = None ->
  site_cond_indep_stack site = [f] ->
  plates st !! frame_name f = Some p ->
  plate_oid p ∈ PYRO_STACK st ->
  tensor_wf (site_value site) ->
  py_index (length (shape (site_value site))) (plate_dim p - event_dim (site_fn site)) = Some d ->
  shape (site_value site) !! d = Some ss ->
  plate_subsample_size p = Z.of_nat ss ->
  plate_size p = Z.of_nat size ->
  0 < ss < size ->
  exists seed v,
    EasyGuide_map_estimate pyro_plate name st
    = (Ok v, set_param_store
               (<[param_name_of name :=
                    param_init (support (site_fn site)) (event_dim (site_fn site)) seed]>
                  (param_store st)) st)
    /\ shape seed = <[d := size]> (shape (site_value site))
    /\ requires_grad seed = false
    /\ forall idx i,
         idx !! d = Some i -> is_Some (ravel (shape seed) idx) ->
         tensor_get seed idx = tensor_get (site_value site) (<[d := i mod ss]> idx).
Proof.
  intros Htr Hnode Hnone Hstack Hp Hact Hwf Hd Hss Hsub Hsize [Hpos Hlt].
  destruct (repeat_to_full_size_spec p (site_fn site) (detach (site_value site)) d ss size)
    as (seed & Hrep & Hshape & _ & Hgrad & _ & Hget); try assumption.
  assert (map_estimate_frames pyro_plate (site_fn site) (Some (detach (site_value site)))
            (site_cond_indep_stack site) st = (Ok (Some seed), st)) as Hloop.
  { rewrite Hstack. simpl. unfold bind.
    rewrite (map_estimate_frame_active _ _ seed f p st Hp Hact) by (lia || exact Hrep).
    reflexivity. }
  destruct (EasyGuide_map_estimate_seeds name tr site seed st st Htr Hnode Hnone Hloop
              eq_refl) as (v & Hrun).
  exists seed, v. split; [|split; [exact Hshape | split; [exact Hgrad | exact Hget]]].
  rewrite Hrun. reflexivity.
Qed.
End Seeding.

Lemma st_sub_plates_wf : plates_wf st_sub.
Proof.
  split; simpl.
  - intros n p Hp. apply lookup_singleton_Some in Hp as [<- <-]. reflexivity.
  - intros n p Hp. apply lookup_singleton_Some in Hp as [<- <-]. simpl. lia.
  - intros n m p q Hp Hq _.
    apply lookup_singleton_Some in Hp as [<- _].
    apply lookup_singleton_Some in Hq as [<- _]. reflexivity.
Qed.


(** The seed [[0, 1, 2]] under subsample size 3 and full size 7 becomes
    [[0, 1, 2, 0, 1, 2, 0]]: that is what a whole invocation leaves in the
    parameter store under [auto_s]. *)
Example map_estimate_repeats_0120120 :
  exists v st',
    EasyGuide_call [site_s] guide_map_s (EasyGuide_init ∅ 0) = (Ok v, st')
    /\ shape <$> param_store st' !! "auto_s" = Some [7]
    /\ data <$> param_store st' !! "auto_s" = Some [0; 1; 2; 0; 1; 2; 0]%Z.
Proof.
  eexists _, _. split; [vm_compute; reflexivity|]. split; vm_compute; reflexivity.
Qed.

(** A parameter that already exists, for instance after optimization
    steps changed it, is not seeded again. *)
Example EasyGuide_map_estimate_keeps_existing :
  let trained := {| shape := [7]; data := [9; 9; 9; 9; 9; 9; 9]%Z; requires_grad := true |} in
  let st := set_param_store {[ "auto_s" := trained ]} st_sub in
  snd (EasyGuide_map_estimate (lib := lib_real) plate_of_args "s" st) = st.
Proof. vm_compute. reflexivity. Qed.

Lemma st3_plates_wf : plates_wf st3.
Proof. split; intros *; simpl; rewrite lookup_empty; discriminate. Qed.

Lemma st3_at_full_size (fs : list frame) : frames_at_full_size fs st3.
Proof.
  split; simpl.
  - intros f p _ Hp. rewrite lookup_empty in Hp. discriminate.
  - intros o Ho. inversion Ho.
Qed.

Lemma EasyGuide_map_estimate_param_store_witness :
  let fn := site_fn site_ab in
  let pn := param_name_of "ab" in
  let r := fst (EasyGuide_map_estimate (lib := lib_real) plate_of_args "ab" st3) in
  let st' := snd (EasyGuide_map_estimate (lib := lib_real) plate_of_args "ab" st3) in
  (forall w, param_store st3 !! pn = Some w -> param_store st' = param_store st3)
  /\ (param_store st3 !! pn = None ->
        match r with
        | Raise _ => param_store st' = param_store st3
        | Ok _ =>
            exists seed,
              param_store st'
              = <[pn := param_init (Substrate := lib_real) (support fn) (event_dim fn) seed]>
                  (param_store st3)
              /\ requires_grad seed = false
              /\ (forall z, z ∈ data seed -> z ∈ data (site_value site_ab))
              /\ (site_cond_indep_stack site_ab = [] -> seed = detach (site_value site_ab))
        end)
  /\ (param_store st3 !! pn = None ->
      plates_wf st3 ->
      NoDup (frame_name <$> site_cond_indep_stack site_ab) ->
      frames_at_full_size (site_cond_indep_stack site_ab) st3 ->
      (exists v, r = Ok v)
      /\ param_store st'
         = <[pn := param_init (Substrate := lib_real) (support fn) (event_dim fn)
                     (detach (site_value site_ab))]>
             (param_store st3)).
Proof.
  apply (EasyGuide_map_estimate_param_store (lib := lib_real) plate_of_args "ab" catalog3
           site_ab st3).
  - reflexivity.
  - reflexivity.
Defined.

Lemma EasyGuide_map_estimate_inactive_seed_witness :
  exists v st',
    EasyGuide_map_estimate (lib := lib_real) plate_of_args "ab" st3 = (Ok v, st')
    /\ param_store st'
       = <[param_name_of "ab" :=
             param_init (Substrate := lib_real) (support (site_fn site_ab))
               (event_dim (site_fn site_ab)) (detach (site_value site_ab))]>
           (param_store st3)
    /\ PYRO_STACK st' = PYRO_STACK st3
    /\ (forall f, f ∈ site_cond_indep_stack site_ab -> is_Some (plates st' !! frame_name f))
    /\ plates_wf st'.
Proof.
  apply (EasyGuide_map_estimate_inactive_seed (lib := lib_real) plate_of_args "ab" catalog3
           site_ab st3).
  - exact st3_plates_wf.
  - reflexivity.
  - reflexivity.
  - reflexivity.
  - apply NoDup_singleton.
  - apply st3_at_full_size.
Defined.

Lemma EasyGuide_map_estimate_full_size_seed_witness :
  exists seed v,
    EasyGuide_map_estimate (lib := lib_real) plate_of_args "s" st_sub
    = (Ok v, set_param_store
               (<[param_name_of "s" :=
                    param_init (Substrate := lib_real) (support (site_fn site_s))
                      (event_dim (site_fn site_s)) seed]>
                  (param_store st_sub)) st_sub)
    /\ shape seed = <[0 := 7]> (shape (site_value site_s))
    /\ requires_grad seed = false
    /\ forall idx i,
         idx !! 0 = Some i -> is_Some (ravel (shape seed) idx) ->
         tensor_get seed idx = tensor_get (site_value site_s) (<[0 := i mod 3]> idx).
Proof.
  apply (EasyGuide_map_estimate_full_size_seed (lib := lib_real) plate_of_args "s" [site_s]
           site_s frame_sub plate_sub st_sub 0 3 7).
  - reflexivity.
  - reflexivity.
  - reflexivity.
  - reflexivity.
  - reflexivity.
  - simpl. left.
  - reflexivity.
  - reflexivity.
  - reflexivity.
  - reflexivity.
  - reflexivity.
  - lia.
Defined.
